(** * sandbox-runtime: violation store, host matcher, orchestrator and
      Unix-socket supervisor

    A shallow embedding of the parts of the sandbox runtime that the
    specification makes quantified statements about, and the proofs of
    those statements.

    - [ViolationStore]  : [SandboxViolationStore] (sandbox-violation-store.ts)
    - [HostMatcher]     : the allow/deny decision of the filtering proxies
    - [Orchestrator]    : [SandboxManager.initialize] and the port accessors
    - [ProxyEnv]        : [generateProxyEnvVars]
    - [Supervisor]      : [startUnixSocketSupervisor] and
                          [stopUnixSocketSupervisor] (unix-socket-supervisor.ts)
*)

From Stdlib Require Import Ascii.
From stdpp Require Import gmap strings list pretty.

Local Open Scope Z_scope.

(** ** JavaScript helpers shared by the modules *)

(** [Array.prototype.slice(start)] with an integral [start] and no [end]:
    a negative [start] counts from the end and is clamped at 0, a
    non-negative one is clamped at the length. *)
Definition js_slice {A} (start : Z) (xs : list A) : list A :=
  let len := Z.of_nat (length xs) in
  let k := if start <? 0 then Z.max (len + start) 0 else Z.min start len in
  drop (Z.to_nat k) xs.

(** Truthiness of an optional string ([undefined] and the empty string are
    falsy). *)
Definition js_truthy (o : option string) : bool :=
  match o with
  | Some s => negb (String.eqb s EmptyString)
  | None => false
  end.

(** A JavaScript [Set] of object identities is the list of its entries in
    insertion order.  [delete] empties the entry and leaves it in place, so
    that a [forEach] in progress keeps its position; [add] appends, and a
    [forEach] in progress visits what is appended (ECMAScript,
    Set.prototype.forEach). *)
Definition set_add `{EqDecision A} (x : A) (s : list (option A)) : list (option A) :=
  if decide (Some x ∈ s) then s else s ++ [Some x].

Definition set_delete `{EqDecision A} (x : A) (s : list (option A)) : list (option A) :=
  (λ e, if decide (e = Some x) then None else e) <$> s.

(** The members, in insertion order, and [size]. *)
Definition set_members {A} (s : list (option A)) : list A := omap id s.

Definition set_size {A} (s : list (option A)) : nat := length (set_members s).

(** The first member among the entries [s], which start at index [j], with
    its index; [set_next s i] is what a [forEach] that has reached index [i]
    visits next. *)
Fixpoint first_member {A} (s : list (option A)) (j : nat) : option (nat * A) :=
  match s with
  | [] => None
  | Some x :: _ => Some (j, x)
  | None :: s' => first_member s' (S j)
  end.

Definition set_next {A} (s : list (option A)) (i : nat) : option (nat * A) :=
  first_member (drop i s) i.

(** The [n] last elements of a list (all of it when it is shorter). *)
Definition lastn {A} (n : nat) (xs : list A) : list A :=
  drop (length xs - n) xs.

(** ** The violation store (sandbox-violation-store.ts) *)

Module ViolationStore.

(** Modelled from the spec: the declaration of [SandboxViolationEvent]
    (macos-sandbox-utils.ts) is not among the sources.  The record has the
    two optional fields the store reads ([executionId], [encodedCommand])
    and the payload of the spec's violation event. *)
Record SandboxViolationEvent := mkEvent {
  line : string;
  command : option string;
  encodedCommand : option string;
  executionId : option string;
  timestamp : Z;
}.

Global Instance SandboxViolationEvent_eq_dec : EqDecision SandboxViolationEvent.
Proof. solve_decision. Defined.

(** Arrays are mutable heap objects: [this.violations.push] updates one in
    place, [slice], the spread [[...a]] and [filter] allocate a new one.
    A location is an index into the heap. *)
Abbreviation loc := nat (only parsing).
Abbreviation Heap := (list (list SandboxViolationEvent)) (only parsing).

Definition array_get (h : Heap) (l : loc) : list SandboxViolationEvent :=
  default [] (h !! l).

Definition array_alloc (xs : list SandboxViolationEvent) (h : Heap) : loc * Heap :=
  (length h, h ++ [xs]).

Definition array_push (l : loc) (v : SandboxViolationEvent) (h : Heap) : Heap :=
  alter (λ xs, xs ++ [v]) l h.

(** Listeners are JavaScript functions, compared by identity. *)
Abbreviation listener := nat (only parsing).

(** The [Set] objects of [executionListeners] are heap objects too: the
    map holds a reference, and a [forEach] over a set goes on over that
    object when the map has dropped it. *)
Abbreviation set_ref := nat (only parsing).

(** The fields of the class.  [totalCount] is a JavaScript number used as a
    counter; it is exact on the range a process can reach. *)
Record Store := mkStore {
  violations : loc;
  totalCount : N;
  listeners : list (option listener);
  executionListeners : gmap string set_ref;
}.

(** What the outside observes of the store: each call of a listener, in
    order.  A broadcast listener receives a reference to an array, an
    execution listener receives the violation; [key] is the key of
    [executionListeners] under which the listener was found. *)
Inductive Call :=
  | BroadcastCall (l : listener) (arr : loc)
  | ExecutionCall (key : string) (l : listener) (v : SandboxViolationEvent).

Global Instance Call_eq_dec : EqDecision Call.
Proof. solve_decision. Defined.

(** A listener is arbitrary code that the store calls without a [try]:
    while it runs it may write to the arrays it has a reference to, call
    the methods of the store, return or throw.  The store code that is
    suspended meanwhile is a stack of frames, innermost first:
    - [Running l]: the listener [l] has been called and has not returned;
    - [NotifyListeners arr index]: the [forEach] of [notifyListeners],
      which passes [arr] and looks at the entry [index] next;
    - [NotifyExecution set id v index]: the [forEach] of [addViolation] over
      the set object [set] found under [id];
    - [AfterNotifyListeners v]: what [addViolation] does after
      [this.notifyListeners()]. *)
Inductive Frame :=
  | Running (l : listener)
  | NotifyListeners (arr : loc) (index : nat)
  | NotifyExecution (set : set_ref) (id : string) (v : SandboxViolationEvent)
      (index : nat)
  | AfterNotifyListeners (v : SandboxViolationEvent).

Global Instance Frame_eq_dec : EqDecision Frame.
Proof. solve_decision. Defined.

(** The store and its surroundings: the arrays, the set objects, the
    fields, the calls made so far, the arrays a reference to which has
    left the store ([handed]: returned by a method or passed to a
    listener), and the frames.  Control is outside the store when the
    stack is empty, and in the listener [l] when [Running l] is on top. *)
Record World := mkWorld {
  heap : Heap;
  sets : list (list (option listener));
  store : Store;
  calls : list Call;
  handed : list loc;
  stack : list Frame;
}.

Definition maxSize : nat := 500.

(** [new SandboxViolationStore()] *)
Definition new_world : World :=
  {| heap := [[]]; sets := [];
     store := {| violations := 0%nat; totalCount := 0%N; listeners := [];
                 executionListeners := ∅ |};
     calls := []; handed := []; stack := [] |}.

Definition stored (w : World) : list SandboxViolationEvent :=
  array_get (heap w) (violations (store w)).

Definition set_heap (h : Heap) (w : World) : World :=
  {| heap := h; sets := sets w; store := store w; calls := calls w;
     handed := handed w; stack := stack w |}.

Definition set_sets (ss : list (list (option listener))) (w : World) : World :=
  {| heap := heap w; sets := ss; store := store w; calls := calls w;
     handed := handed w; stack := stack w |}.

Definition set_store (s : Store) (w : World) : World :=
  {| heap := heap w; sets := sets w; store := s; calls := calls w;
     handed := handed w; stack := stack w |}.

Definition set_handed (hs : list loc) (w : World) : World :=
  {| heap := heap w; sets := sets w; store := store w; calls := calls w;
     handed := hs; stack := stack w |}.

Definition set_stack (fs : list Frame) (w : World) : World :=
  {| heap := heap w; sets := sets w; store := store w; calls := calls w;
     handed := handed w; stack := fs |}.

Definition set_violations (l : loc) (s : Store) : Store :=
  {| violations := l; totalCount := totalCount s; listeners := listeners s;
     executionListeners := executionListeners s |}.

Definition set_totalCount (n : N) (s : Store) : Store :=
  {| violations := violations s; totalCount := n; listeners := listeners s;
     executionListeners := executionListeners s |}.

Definition set_listeners (ls : list (option listener)) (s : Store) : Store :=
  {| violations := violations s; totalCount := totalCount s; listeners := ls;
     executionListeners := executionListeners s |}.

Definition set_executionListeners (m : gmap string set_ref) (s : Store) : Store :=
  {| violations := violations s; totalCount := totalCount s;
     listeners := listeners s; executionListeners := m |}.

(** The call [listener(...)]: it is observed, and control passes to the
    listener; [frames] is the store code that waits for it. *)
Definition invoke (c : Call) (l : listener) (frames : list Frame) (w : World) : World :=
  {| heap := heap w; sets := sets w; store := store w; calls := calls w ++ [c];
     handed := handed w; stack := Running l :: frames |}.

(** A new array with the given contents; returns its location. *)
Definition new_array (xs : list SandboxViolationEvent) (w : World) : loc * World :=
  let '(r, h) := array_alloc xs (heap w) in (r, set_heap h w).

(** A new array that is returned or passed on. *)
Definition hand_out (xs : list SandboxViolationEvent) (w : World) : loc * World :=
  let '(r, w') := new_array xs w in (r, set_handed (handed w' ++ [r]) w').

(** [getViolations(limit?)]; a limit is an integral number. *)
Definition getViolations (limit : option Z) (w : World) : loc * World :=
  match limit with
  | None => hand_out (stored w) w
  | Some n => hand_out (js_slice (- n) (stored w)) w
  end.

(** [getCount()] *)
Definition getCount (w : World) : nat := length (stored w).

(** [getTotalCount()] *)
Definition getTotalCount (w : World) : N := totalCount (store w).

(** The store code of [frames] runs on, up to the next call of a listener
    or to the end of the frames that belong to the store: a [forEach]
    calls the member it finds next and waits, or is over; after
    [notifyListeners], [addViolation] starts the [forEach] over the set of
    the violation's execution, if there is one. *)
Fixpoint resume (frames : list Frame) (w : World) : World :=
  match frames with
  | [] => set_stack [] w
  | Running _ :: _ => set_stack frames w
  | NotifyListeners arr index :: rest =>
      match set_next (listeners (store w)) index with
      | Some (j, l) =>
          invoke (BroadcastCall l arr) l (NotifyListeners arr (S j) :: rest) w
      | None => resume rest w
      end
  | NotifyExecution s id v index :: rest =>
      match set_next (default [] (sets w !! s)) index with
      | Some (j, l) =>
          invoke (ExecutionCall id l v) l (NotifyExecution s id v (S j) :: rest) w
      | None => resume rest w
      end
  | AfterNotifyListeners v :: rest =>
      if js_truthy (executionId v) then
        match executionId v with
        | Some id =>
            match executionListeners (store w) !! id with
            | Some s =>
                match set_next (default [] (sets w !! s)) 0 with
                | Some (j, l) =>
                    invoke (ExecutionCall id l v) l
                      (NotifyExecution s id v (S j) :: rest) w
                | None => resume rest w
                end
            | None => resume rest w
            end
        | None => resume rest w
        end
      else resume rest w
  end.

(** [notifyListeners()], with the frames that wait for it. *)
Definition notifyListeners (frames : list Frame) (w : World) : World :=
  let '(snapshot, w1) := getViolations None w in
  resume (NotifyListeners snapshot 0 :: frames) w1.

(** [addViolation(violation)], first part: [push], [totalCount++] and the
    trim to [maxSize]. *)
Definition record_violation (violation : SandboxViolationEvent) (w : World) : World :=
  let w1 := set_heap (array_push (violations (store w)) violation (heap w)) w in
  let w2 := set_store (set_totalCount (totalCount (store w1) + 1)%N (store w1)) w1 in
  if (maxSize <? length (stored w2))%nat then
    let '(r, w') := new_array (js_slice (- Z.of_nat maxSize) (stored w2)) w2 in
    set_store (set_violations r (store w')) w'
  else w2.

(** [addViolation(violation)], up to the first call of a listener. *)
Definition addViolation (violation : SandboxViolationEvent) (w : World) : World :=
  let w1 := record_violation violation w in
  notifyListeners (AfterNotifyListeners violation :: stack w1) w1.

(** [clear()], up to the first call of a listener. *)
Definition clear (w : World) : World :=
  let '(r, w1) := new_array [] w in
  let w2 := set_store (set_violations r (store w1)) w1 in
  notifyListeners (stack w2) w2.

(** The closure returned by [subscribe]. *)
Definition unsubscribe (l : listener) (w : World) : World :=
  set_store (set_listeners (set_delete l (listeners (store w))) (store w)) w.

(** [subscribe(listener)], up to the call of the listener; the closure is
    what the method returns when the listener has returned. *)
Definition subscribe (l : listener) (w : World) : (World → World) * World :=
  let w1 := set_store (set_listeners (set_add l (listeners (store w))) (store w)) w in
  let '(snapshot, w2) := getViolations None w1 in
  (unsubscribe l, invoke (BroadcastCall l snapshot) l (stack w2) w2).

(** The closure returned by [subscribeToExecution]. *)
Definition unsubscribeExecution (id : string) (l : listener) (w : World) : World :=
  match executionListeners (store w) !! id with
  | Some s =>
      let w1 := set_sets (alter (set_delete l) s (sets w)) w in
      if (set_size (default [] (sets w1 !! s)) =? 0)%nat
      then set_store (set_executionListeners (delete id (executionListeners (store w1)))
                        (store w1)) w1
      else w1
  | None => w
  end.

(** [subscribeToExecution(executionId, listener)] *)
Definition subscribeToExecution (id : string) (l : listener) (w : World)
  : (World → World) * World :=
  let w1 :=
    if decide (is_Some (executionListeners (store w) !! id)) then w
    else set_store (set_executionListeners
                      (<[id := length (sets w)]> (executionListeners (store w)))
                      (store w))
           (set_sets (sets w ++ [[]]) w) in
  let w2 :=
    match executionListeners (store w1) !! id with
    | Some s => set_sets (alter (set_add l) s (sets w1)) w1
    | None => w1
    end in
  (unsubscribeExecution id l, w2).

(** [getViolationsForExecution(executionId)] *)
Definition getViolationsForExecution (id : string) (w : World) : loc * World :=
  hand_out (filter (λ v, executionId v = Some id) (stored w)) w.

Section Encoder.

(** Modelled from the spec: [encodeSandboxedCommand] (sandbox-utils.ts) is
    not among the sources.  The spec calls its result a stable hash of the
    command, the same for the same command string across runs: a function
    of the command string alone, which is all that is assumed of it. *)
Variable encodeSandboxedCommand : string → string.

(** [getViolationsForCommand(command)] *)
Definition getViolationsForCommand (cmd : string) (w : World) : loc * World :=
  let commandBase64 := encodeSandboxedCommand cmd in
  hand_out (filter (λ v, encodedCommand v = Some commandBase64) (stored w)) w.

End Encoder.

(** A holder of an array reference overwrites the array (any sequence of
    [push], [pop], [splice], index or [length] assignments amounts to
    one). *)
Definition mutate (r : loc) (xs : list SandboxViolationEvent) (w : World) : World :=
  set_heap (<[r := xs]> (heap w)) w.

(** The running listener returns: the store code that called it goes
    on. *)
Definition listener_returns (w : World) : World :=
  match stack w with
  | Running _ :: rest => resume rest w
  | _ => w
  end.

(** An exception leaves the frames of the store, none of which has a
    [catch], and arrives in the listener that called the method, or
    outside. *)
Fixpoint unwind (frames : list Frame) : list Frame :=
  match frames with
  | [] => []
  | Running _ :: _ => frames
  | _ :: rest => unwind rest
  end.

(** The running listener throws, or lets the exception of a method it
    called pass. *)
Definition listener_throws (w : World) : World :=
  match stack w with
  | Running _ :: rest => set_stack (unwind rest) w
  | _ => w
  end.

(** A write through a reference: to an array that has been handed out.
    The violations themselves are values: the store reads two of their
    fields and never writes to them. *)
Definition write (r : loc) (xs : list SandboxViolationEvent) (w : World) : World :=
  if decide (r ∈ handed w) then mutate r xs w else w.

(** A violation with the given time stamp and execution id. *)
Definition example_event (t : Z) (id : option string) : SandboxViolationEvent :=
  {| line := "deny(1) file-read-data /etc/passwd"; command := None;
     encodedCommand := None; executionId := id; timestamp := t |}.

(** *** Histories of one store *)

(** What happens to a store, one step at a time: the code that has control
    (the listener that runs, or the code outside when none does) calls a
    method or a closure the store has returned, or writes to an array; the
    listener that runs returns or throws. *)
Inductive Op :=
  | OpAddViolation (v : SandboxViolationEvent)
  | OpClear
  | OpSubscribe (l : listener)
  | OpUnsubscribe (l : listener)
  | OpSubscribeToExecution (id : string) (l : listener)
  | OpUnsubscribeExecution (id : string) (l : listener)
  | OpGetViolations (limit : option Z)
  | OpGetViolationsForExecution (id : string)
  | ListenerReturns
  | ListenerThrows
  | ArrayWrite (r : loc) (xs : list SandboxViolationEvent).

Global Instance Op_eq_dec : EqDecision Op.
Proof. solve_decision. Defined.

Definition step (w : World) (o : Op) : World :=
  match o with
  | OpAddViolation v => addViolation v w
  | OpClear => clear w
  | OpSubscribe l => (subscribe l w).2
  | OpUnsubscribe l => unsubscribe l w
  | OpSubscribeToExecution id l => (subscribeToExecution id l w).2
  | OpUnsubscribeExecution id l => unsubscribeExecution id l w
  | OpGetViolations limit => (getViolations limit w).2
  | OpGetViolationsForExecution id => (getViolationsForExecution id w).2
  | ListenerReturns => listener_returns w
  | ListenerThrows => listener_throws w
  | ArrayWrite r xs => write r xs w
  end.

Definition run (ops : list Op) (w : World) : World := foldl step w ops.

(** The violations a history adds, in order. *)
Definition added (ops : list Op) : list SandboxViolationEvent :=
  omap (λ o, match o with OpAddViolation v => Some v | _ => None end) ops.

(** The violations a history adds after its last [clear], on top of [acc]. *)
Fixpoint added_since_clear (acc : list SandboxViolationEvent) (ops : list Op)
  : list SandboxViolationEvent :=
  match ops with
  | [] => acc
  | OpAddViolation v :: ops' => added_since_clear (acc ++ [v]) ops'
  | OpClear :: ops' => added_since_clear [] ops'
  | _ :: ops' => added_since_clear acc ops'
  end.

(** The calls made between two worlds of one history. *)
Definition new_calls (w w' : World) : list Call :=
  drop (length (calls w)) (calls w').

(** The arrays a broadcast listener was called with. *)
Definition snapshots_to (cb : listener) (cs : list Call) : list loc :=
  omap (λ c, match c with
             | BroadcastCall l r => if decide (l = cb) then Some r else None
             | ExecutionCall _ _ _ => None
             end) cs.

(** The violations delivered to the listener [cb] registered under [id]. *)
Definition deliveries_to (id : string) (cb : listener) (cs : list Call)
  : list SandboxViolationEvent :=
  omap (λ c, match c with
             | ExecutionCall k l v =>
                 if decide (k = id ∧ l = cb) then Some v else None
             | BroadcastCall _ _ => None
             end) cs.

(** The broadcast listeners, and the listeners registered under an
    execution id, in the order of their registration. *)
Definition subscribers (w : World) : list listener :=
  set_members (listeners (store w)).

Definition listeners_of (w : World) (id : string) : list listener :=
  match executionListeners (store w) !! id with
  | Some s => set_members (default [] (sets w !! s))
  | None => []
  end.

(** The violations whose delivery is under way. *)
Definition in_delivery (fs : list Frame) : list SandboxViolationEvent :=
  omap (λ f, match f with
             | NotifyExecution _ _ v _ | AfterNotifyListeners v => Some v
             | _ => None
             end) fs.

(** What a frame needs of the world. *)
Definition frame_ok (w : World) (f : Frame) : Prop :=
  match f with
  | Running _ | AfterNotifyListeners _ => True
  | NotifyListeners arr _ => arr ∈ handed w
  | NotifyExecution s id v _ =>
      (s < length (sets w))%nat ∧ executionId v = Some id ∧ id ≠ EmptyString
      ∧ ∀ k, executionListeners (store w) !! k = Some s → k = id
  end.

(** The class invariant, with what it needs of the surroundings: the
    array of the store is allocated and no reference to it has left the
    store; the sets have no member twice; the sets of [executionListeners]
    are allocated, not empty and not shared between keys, and a set that
    the map has dropped is empty. *)
Record wf (w : World) : Prop := {
  wf_alloc : (violations (store w) < length (heap w))%nat;
  wf_handed : ∀ r, r ∈ handed w →
                   (r < length (heap w))%nat ∧ r ≠ violations (store w);
  wf_listeners : NoDup (subscribers w);
  wf_sets : ∀ s entries, sets w !! s = Some entries → NoDup (set_members entries);
  wf_execution : ∀ id s, executionListeners (store w) !! id = Some s →
                         ∃ entries, sets w !! s = Some entries
                                    ∧ set_members entries ≠ [];
  wf_keys : ∀ id1 id2 s, executionListeners (store w) !! id1 = Some s →
                         executionListeners (store w) !! id2 = Some s → id1 = id2;
  wf_dropped : ∀ s entries l, sets w !! s = Some entries → l ∈ set_members entries →
                              ∃ id, executionListeners (store w) !! id = Some s;
  wf_stack : Forall (frame_ok w) (stack w);
}.

(** *** What the proofs say of worlds, frames and calls *)

(** The world with more calls made. *)
Definition add_calls (cs : list Call) (w : World) : World :=
  {| heap := heap w; sets := sets w; store := store w; calls := calls w ++ cs;
     handed := handed w; stack := stack w |}.

(** The frames a step starts from: those of the world, and for
    [addViolation] the delivery that it starts. *)
Definition frames_of (w : World) (o : Op) : list Frame :=
  match o with
  | OpAddViolation v => AfterNotifyListeners v :: stack w
  | _ => stack w
  end.

(** A listener the store calls is registered when it is called: a
    broadcast listener is passed an array that is handed out, an execution
    listener is passed a violation whose delivery is under way, and is
    found under the execution id of that violation, which is not empty. *)
Definition call_ok (w : World) (frames : list Frame) (c : Call) : Prop :=
  match c with
  | BroadcastCall l r => r ∈ handed w ∧ l ∈ subscribers w
  | ExecutionCall k l v =>
      executionId v = Some k ∧ k ≠ EmptyString ∧ l ∈ listeners_of w k
      ∧ v ∈ in_delivery frames
  end.

(** Control is outside the store or in a listener: the frame on top, if
    there is one, is that of a running listener. *)
Definition controlled (w : World) : Prop := unwind (stack w) = stack w.

End ViolationStore.

(** ** The host matcher of the filtering proxies *)

Module HostMatcher.

(** [NetworkRestrictionConfig] (sandbox-schemas.ts): both lists are
    optional.  A missing configuration denies all network; a missing list
    is read as the empty one. *)
Record NetworkRestrictionConfig := mkNetworkRestrictionConfig {
  allowedHosts : option (list string);
  deniedHosts : option (list string);
}.

(** [NetworkHostPattern] (sandbox-schemas.ts): a destination. *)
Record NetworkHostPattern := mkDestination {
  host : string;
  port : option Z;
}.

Inductive Verdict := Allow | Deny.

Global Instance Verdict_eq_dec : EqDecision Verdict.
Proof. solve_decision. Defined.

(** Modelled from the spec: the matcher (http-proxy.ts, socks-proxy.ts and
    the filter they share) is not among the sources.  Section 4.1:
    evaluate the deny patterns first and return [Deny] on any match, then
    the allow patterns and return [Allow] on any match, and [Deny] when
    nothing matches.  The pattern language of section 4.1 (exact names,
    left wildcards, port suffixes, CIDR blocks, [*]) is the parameter
    [pattern_matches]. *)
Definition host_matcher (pattern_matches : string → NetworkHostPattern → bool)
    (cfg : option NetworkRestrictionConfig) (dest : NetworkHostPattern) : Verdict :=
  match cfg with
  | None => Deny
  | Some c =>
      if existsb (λ p, pattern_matches p dest) (default [] (deniedHosts c)) then Deny
      else if existsb (λ p, pattern_matches p dest) (default [] (allowedHosts c))
           then Allow
           else Deny
  end.

(** Modelled from the spec: three of the pattern forms of section 4.1,
    compared without regard to case: the universal [*], a left wildcard
    [*.example.com] (any non-empty prefix followed by [.example.com],
    not the apex) and an exact name. *)
Definition lower_ascii (c : ascii) : ascii :=
  let n := N_of_ascii c in
  if ((65 <=? n) && (n <=? 90))%N then ascii_of_N (n + 32) else c.

Definition lower (s : string) : list ascii :=
  map lower_ascii (String.list_ascii_of_string s).

Definition name_pattern_matches (pattern : string) (dest : NetworkHostPattern) : bool :=
  let p := lower pattern in
  let h := lower (host dest) in
  match p with
  | ["*"%char] => true
  | "*"%char :: ("."%char :: _) as suffix =>
      bool_decide (suffix `suffix_of` h) && (length suffix <? length h)%nat
  | _ => bool_decide (p = h)
  end.

End HostMatcher.

(** ** The orchestrator: initialization and proxy ports *)

Module Orchestrator.

Inductive ReadPolicy := DenyOnly | AllowOnly.

Record NetworkConfig := mkNetworkConfig {
  allowed_domains : list string;
  denied_domains : list string;
  allowed_unix_sockets : list string;
  http_proxy_port : option Z;
  socks_proxy_port : option Z;
}.

Record FilesystemConfig := mkFilesystemConfig {
  read_policy : ReadPolicy;
  deny_read : list string;
  allow_read : list string;
  deny_within_allow_read : list string;
  allow_write : list string;
  deny_write : list string;
  deny_within_allow_write : list string;
}.

Record IgnoreViolations := mkIgnoreViolations {
  ignore_filesystem : list string;
  ignore_network : list string;
}.

Record Config := mkConfig {
  network : NetworkConfig;
  filesystem : FilesystemConfig;
  env : option (list (string * string));
  pre_command : option string;
  enable_weaker_nested_sandbox : bool;
  ignore_violations : IgnoreViolations;
}.

Global Instance ReadPolicy_eq_dec : EqDecision ReadPolicy.
Proof. solve_decision. Defined.
Global Instance NetworkConfig_eq_dec : EqDecision NetworkConfig.
Proof. solve_decision. Defined.
Global Instance FilesystemConfig_eq_dec : EqDecision FilesystemConfig.
Proof. solve_decision. Defined.
Global Instance IgnoreViolations_eq_dec : EqDecision IgnoreViolations.
Proof. solve_decision. Defined.
Global Instance Config_eq_dec : EqDecision Config.
Proof. solve_decision. Defined.

Inductive Error :=
  | InvalidConfig (field reason : string)
  | AlreadyInitialized
  | ProxyBindFailure (which : string) (cause : string).

(** A proxy is external, on a port the caller supplied, or local, with a
    listener of this process bound to the port. *)
Inductive ProxyHandle :=
  | External (port : Z)
  | Local (port : Z).

Definition handle_port (h : ProxyHandle) : Z :=
  match h with External p | Local p => p end.

Definition local_port (h : ProxyHandle) : list Z :=
  match h with External _ => [] | Local p => [p] end.

Record Initialized := mkInitialized {
  config : Config;
  http_proxy : ProxyHandle;
  socks_proxy : ProxyHandle;
  violation_store : ViolationStore.World;
  execution_counter : N;
  teardown_registered : bool;
}.

(** The process-wide cell, and the loopback ports in use on the host (by
    this process or any other). *)
Record State := mkState {
  cell : option Initialized;
  ports_in_use : gset Z;
}.

Definition port_in_range (p : Z) : bool := (1 <=? p) && (p <=? 65535).

Section Initialize.

(** The host: binding a listener to port 0 makes the operating system
    choose the port, or fail. *)
Variable os_pick : gset Z → option Z.

(** The platform's mandated minimum of readable paths. *)
Variable loader_minimum : list string.

Definition out_of_range (configured : option Z) : bool :=
  match configured with
  | Some p => negb (port_in_range p)
  | None => false
  end.

Definition conflicting (http socks : option Z) : bool :=
  match http, socks with
  | Some p, Some s => p =? s
  | _, _ => false
  end.

(** Modelled from the spec: sandbox-manager.ts is not among the sources.
    Section 4.8: reject a port out of range, equal HTTP and SOCKS ports,
    and an allow-only read policy with an empty allow list and no
    mandated minimum. *)
Definition validate (c : Config) : option Error :=
  if out_of_range (http_proxy_port (network c))
  then Some (InvalidConfig "network.http_proxy_port" "port out of range")
  else if out_of_range (socks_proxy_port (network c))
  then Some (InvalidConfig "network.socks_proxy_port" "port out of range")
  else if conflicting (http_proxy_port (network c)) (socks_proxy_port (network c))
  then Some (InvalidConfig "network.socks_proxy_port" "conflicting ports")
  else
    match read_policy (filesystem c), allow_read (filesystem c), loader_minimum with
    | AllowOnly, [], [] =>
        Some (InvalidConfig "filesystem.allow_read" "empty allow list")
    | _, _, _ => None
    end.

(** Modelled from the spec: "Starts any proxy whose port was not supplied
    externally; for external ports, no listener is started and no liveness
    probe is attempted." *)
Definition start_proxy (which : string) (configured : option Z) (in_use : gset Z)
  : Error + ProxyHandle * gset Z :=
  match configured with
  | Some p => inr (External p, in_use)
  | None =>
      match os_pick in_use with
      | Some p => inr (Local p, {[p]} ∪ in_use)
      | None => inl (ProxyBindFailure which "no port available")
      end
  end.

(** Modelled from the spec: [initialize(config)].  Sections 3, 4.8 and 8:
    when the cell is initialized the call is a no-op for a structurally
    equal configuration and fails with [AlreadyInitialized] for any other
    one (section 8 asks this of every other configuration, so the cell is
    looked at before the configuration is validated); otherwise the
    configuration is validated and the two proxies are started, the HTTP
    one first.  An error leaves the state as it was: a listener started
    before a later failure is closed again. *)
Definition initialize (c : Config) (st : State) : (Error + unit) * State :=
  match cell st with
  | Some i =>
      if decide (config i = c) then (inr (), st) else (inl AlreadyInitialized, st)
  | None =>
      match validate c with
      | Some e => (inl e, st)
      | None =>
      match start_proxy "http" (http_proxy_port (network c)) (ports_in_use st) with
      | inl e => (inl e, st)
      | inr (http, in_use1) =>
      match start_proxy "socks" (socks_proxy_port (network c)) in_use1 with
      | inl e => (inl e, st)
      | inr (socks, in_use2) =>
          (inr (),
           {| cell := Some {| config := c; http_proxy := http; socks_proxy := socks;
                              violation_store := ViolationStore.new_world;
                              execution_counter := 0%N;
                              teardown_registered := true |};
              ports_in_use := in_use2 |})
      end end end
  end.

End Initialize.

(** Modelled from the spec: the accessors of section 4.8. *)
Definition getProxyPort (st : State) : option Z :=
  handle_port ∘ http_proxy <$> cell st.

Definition getSocksProxyPort (st : State) : option Z :=
  handle_port ∘ socks_proxy <$> cell st.

Definition getEnv (st : State) : option (list (string * string)) :=
  i ← cell st; env (config i).

Definition getPreCommand (st : State) : option string :=
  i ← cell st; pre_command (config i).

(** The ports on which this process has a listener. *)
Definition local_listeners (st : State) : list Z :=
  match cell st with
  | Some i => local_port (http_proxy i) ++ local_port (socks_proxy i)
  | None => []
  end.

(** Modelled from the spec: [reset()] stops the local proxies, releases
    their ports and empties the cell; it is safe when uninitialized. *)
Definition reset (st : State) : State :=
  {| cell := None;
     ports_in_use := ports_in_use st ∖ list_to_set (local_listeners st) |}.

(** A host that hands out the lowest free port of the dynamic range,
    49152 to 65535. *)
Fixpoint first_free_from (count : nat) (p : Z) (in_use : gset Z) : option Z :=
  match count with
  | O => None
  | S count' =>
      if bool_decide (p ∈ in_use) then first_free_from count' (p + 1) in_use
      else Some p
  end.

Definition first_free_port (in_use : gset Z) : option Z :=
  first_free_from (Z.to_nat 16384) 49152 in_use.

(** The configuration of the proxy-port tests, and a process that has not
    called [initialize]. *)
Definition example_config (http socks : option Z) : Config :=
  {| network := {| allowed_domains := ["example.com"]; denied_domains := [];
                   allowed_unix_sockets := [];
                   http_proxy_port := http; socks_proxy_port := socks |};
     filesystem := {| read_policy := DenyOnly; deny_read := []; allow_read := [];
                      deny_within_allow_read := []; allow_write := [];
                      deny_write := []; deny_within_allow_write := [] |};
     env := None; pre_command := None; enable_weaker_nested_sandbox := false;
     ignore_violations := {| ignore_filesystem := []; ignore_network := [] |} |}.

Definition uninitialized : State := {| cell := None; ports_in_use := ∅ |}.

End Orchestrator.

(** ** The environment of the wrapped command *)

Module ProxyEnv.

Definition render_port (p : Z) : string := pretty p.

Definition env_entry (kv : string * string) : string := kv.1 +:+ "=" +:+ kv.2.

(** Modelled from the spec: [generateProxyEnvVars] (sandbox-utils.ts) is
    not among the sources.  Section 4.8 gives the variables and their
    order; the proxy variables are left out entirely when both ports are
    absent.  A variable that names a port is emitted when that port is
    present, and [NO_PROXY] when either is. *)
Definition generateProxyEnvVars (httpPort socksPort : option Z)
    (customEnv : option (list (string * string))) : list string :=
  let http :=
    match httpPort with
    | Some p => ["HTTP_PROXY=http://localhost:" +:+ render_port p;
                 "HTTPS_PROXY=http://localhost:" +:+ render_port p]
    | None => []
    end in
  let socks :=
    match socksPort with
    | Some s => ["ALL_PROXY=socks5://localhost:" +:+ render_port s]
    | None => []
    end in
  let no_proxy :=
    match httpPort, socksPort with
    | None, None => []
    | _, _ => ["NO_PROXY="]
    end in
  http ++ socks ++ no_proxy ++ ["SANDBOX_RUNTIME=1"; "TMPDIR=/tmp/claude"]
       ++ map env_entry (default [] customEnv).

(** The variables that point the child at the proxies. *)
Definition is_proxy_variable (entry : string) : bool :=
  existsb (λ name, String.prefix name entry)
          ["HTTP_PROXY="; "HTTPS_PROXY="; "ALL_PROXY="; "NO_PROXY="].

End ProxyEnv.

(** ** The Unix-socket supervisor (unix-socket-supervisor.ts) *)

Module Supervisor.

Record UnixSocketSupervisorMapping := mkMapping {
  hostPath : string;
  sandboxPath : string;
}.

(** The handle [spawn] returns: [pid] is undefined when no process could
    be started; [killed] is set by the handle's own [kill] method only. *)
Record ChildProcess := mkChild {
  pid : option positive;
  killed : bool;
}.

Record UnixSocketSupervisorContext := mkContext {
  controlSocketPath : string;
  supervisorProcess : option ChildProcess;
  mappings : list UnixSocketSupervisorMapping;
}.

(** *** The host: file system, processes and the debug log *)

Inductive FileKind := Socket | Directory | RegularFile.

(** A directory entry: what the path is, and whether this process may
    unlink it (it may not when the parent directory is not writable to
    it, or is sticky and the file is another user's). *)
Record FileEntry := mkFile {
  kind : FileKind;
  unlinkable : bool;
}.

Inductive ProcState := Running | Terminated | Exited.

Inductive Level := Info | Warn | Err.

Inductive LogEntry :=
  | LogStarting (attempt : nat)
  | LogStarted (attempt : nat)
  | LogFailed (attempt : nat) (message : string) (level : Level)
  | LogRetrying (delayMs : Z)
  | LogCreating (host sandbox : string)
  | LogAllCreated.

Global Instance FileKind_eq_dec : EqDecision FileKind.
Proof. solve_decision. Defined.
Global Instance FileEntry_eq_dec : EqDecision FileEntry.
Proof. solve_decision. Defined.
Global Instance ProcState_eq_dec : EqDecision ProcState.
Proof. solve_decision. Defined.
Global Instance Level_eq_dec : EqDecision Level.
Proof. solve_decision. Defined.
Global Instance LogEntry_eq_dec : EqDecision LogEntry.
Proof. solve_decision. Defined.

(** [procs] maps the pid of a forwarder to the path it listens on and to
    its state. *)
Record Host := mkHost {
  files : gmap string FileEntry;
  procs : gmap positive (string * ProcState);
  debug : list LogEntry;
}.

Definition set_files (f : gmap string FileEntry) (h : Host) : Host :=
  {| files := f; procs := procs h; debug := debug h |}.

Definition set_procs (ps : gmap positive (string * ProcState)) (h : Host) : Host :=
  {| files := files h; procs := ps; debug := debug h |}.

(** [logForDebugging] *)
Definition logForDebugging (e : LogEntry) (h : Host) : Host :=
  {| files := files h; procs := procs h; debug := debug h ++ [e] |}.

(** [fs.existsSync] *)
Definition existsSync (path : string) (h : Host) : bool :=
  bool_decide (is_Some (files h !! path)).

(** [fs.unlinkSync]: removes a socket or a regular file that the process
    may unlink; throws ([None]) on a directory, on a file it may not
    unlink and on a missing path. *)
Definition can_unlink (e : FileEntry) : bool :=
  unlinkable e && negb (bool_decide (kind e = Directory)).

Definition unlinkSync (path : string) (h : Host) : option Host :=
  match files h !! path with
  | Some e =>
      if can_unlink e then Some (set_files (delete path (files h)) h) else None
  | None => None
  end.

(** The message of the error [fs.unlinkSync] throws. *)
Definition unlink_error (path : string) (h : Host) : string :=
  match files h !! path with
  | Some e =>
      if bool_decide (kind e = Directory)
      then "EISDIR: illegal operation on a directory, unlink '" +:+ path +:+ "'"
      else "EACCES: permission denied, unlink '" +:+ path +:+ "'"
  | None => "ENOENT: no such file or directory, unlink '" +:+ path +:+ "'"
  end.

(** [spawn('socat', ...)] for a listener on [path]: when the process
    starts it gets a pid that no process of the host has. *)
Definition spawn_socat (path : string) (started : bool) (h : Host) : ChildProcess * Host :=
  if started then
    let p := fresh (dom (procs h)) in
    ({| pid := Some p; killed := false |},
     set_procs (<[p := (path, Running)]> (procs h)) h)
  else ({| pid := None; killed := false |}, h).

(** [process.kill(pid, 'SIGTERM')]: throws ([None]) when there is no such
    process any more. *)
Definition process_kill (p : positive) (h : Host) : option Host :=
  match procs h !! p with
  | Some (path, Running) => Some (set_procs (<[p := (path, Terminated)]> (procs h)) h)
  | Some (_, Terminated) => Some h
  | Some (_, Exited) | None => None
  end.

(** What the forwarders do on their own, between two steps of the
    supervisor: a running forwarder binds its socket when the path is
    free, or exits. *)
Inductive EnvAction :=
  | Bind (p : positive)
  | Exit (p : positive).

Definition apply_action (h : Host) (a : EnvAction) : Host :=
  match a with
  | Bind p =>
      match procs h !! p with
      | Some (path, Running) =>
          if existsSync path h then h
          else set_files (<[path := mkFile Socket true]> (files h)) h
      | _ => h
      end
  | Exit p =>
      match procs h !! p with
      | Some (path, Running) => set_procs (<[p := (path, Exited)]> (procs h)) h
      | _ => h
      end
  end.

Definition environment (acts : list EnvAction) (h : Host) : Host :=
  foldl apply_action h acts.

(** What one attempt depends on besides the host: the random socket id,
    whether the k-th [spawn] yields a pid, what the forwarders do until
    the k-th [spawn] has returned, and, for each iteration of the wait
    loop that starts before the 2000 ms have passed, what they do before
    its check. *)
Record AttemptEnv := mkAttemptEnv {
  socketId : string;
  spawn_started : nat → bool;
  after_spawn : nat → list EnvAction;
  polls : list (list EnvAction);
}.

Definition RETRY_DELAYS_MS : list Z := [200; 500; 1000].
Definition MAX_RETRIES : nat := length RETRY_DELAYS_MS.

Section Start.

(** [join] of node:path and [tmpdir()] of node:os. *)
Variable join : string → string → string.
Variable tmpdir : string.

(** The loop over the mappings inside the [try] of
    [attemptStartSupervisor]; [k] counts the iterations and [sp] is
    [supervisorProcesses].  Returns the error thrown, if any. *)
Fixpoint spawn_forwarders (env : AttemptEnv) (ms : list UnixSocketSupervisorMapping)
    (k : nat) (sp : list ChildProcess) (h : Host)
  : option string * list ChildProcess * Host :=
  match ms with
  | [] => (None, sp, h)
  | mapping :: ms' =>
      let h0 := logForDebugging (LogCreating (hostPath mapping) (sandboxPath mapping)) h in
      let cleaned :=
        if existsSync (hostPath mapping) h0 then unlinkSync (hostPath mapping) h0
        else Some h0 in
      match cleaned with
      | None => (Some (unlink_error (hostPath mapping) h0), sp, h0)
      | Some h1 =>
          let '(socatProcess, h2) :=
            spawn_socat (hostPath mapping) (spawn_started env k) h1 in
          match pid socatProcess with
          | None =>
              (Some ("Failed to spawn socat for socket " +:+ hostPath mapping), sp, h2)
          | Some _ =>
              spawn_forwarders env ms' (S k) (sp ++ [socatProcess])
                (environment (after_spawn env k) h2)
          end
      end
  end.

(** The wait loop: [true] when all sockets exist at some check, [false]
    when the time is up. *)
Fixpoint wait_for_sockets (ms : list UnixSocketSupervisorMapping)
    (checks : list (list EnvAction)) (h : Host) : bool * Host :=
  match checks with
  | [] => (false, h)
  | acts :: checks' =>
      let h1 := environment acts h in
      if forallb (λ m, existsSync (hostPath m) h1) ms
      then (true, logForDebugging LogAllCreated h1)
      else wait_for_sockets ms checks' h1
  end.

(** The [catch] of [attemptStartSupervisor], first loop. *)
Definition kill_spawned (sp : list ChildProcess) (h : Host) : Host :=
  foldl (λ h' proc,
           match pid proc with
           | Some p =>
               if negb (killed proc)
               then match process_kill p h' with Some h'' => h'' | None => h' end
               else h'
           | None => h'
           end) h sp.

(** The [catch] of [attemptStartSupervisor], second loop. *)
Definition unlink_sockets (ms : list UnixSocketSupervisorMapping) (h : Host) : Host :=
  foldl (λ h' mapping,
           if existsSync (hostPath mapping) h'
           then match unlinkSync (hostPath mapping) h' with
                | Some h'' => h''
                | None => h'
                end
           else h') h ms.

Definition cleanup (sp : list ChildProcess) (ms : list UnixSocketSupervisorMapping)
    (h : Host) : Host :=
  unlink_sockets ms (kill_spawned sp h).

(** The first mapping whose parent directory does not exist. *)
Definition missing_parent (ms : list UnixSocketSupervisorMapping) (h : Host)
  : option UnixSocketSupervisorMapping :=
  List.find (λ m, negb (existsSync (join (hostPath m) "..") h)) ms.

(** [attemptStartSupervisor(mappings, runId)] *)
Definition attemptStartSupervisor (ms : list UnixSocketSupervisorMapping)
    (runId : string) (env : AttemptEnv) (h : Host)
  : (string + UnixSocketSupervisorContext) * Host :=
  let controlSocketPath :=
    join tmpdir ("srt-unix-supervisor-" +:+ runId +:+ "-" +:+ socketId env +:+ ".sock") in
  match missing_parent ms h with
  | Some m =>
      (inl ("Parent directory for Unix socket does not exist: "
            +:+ join (hostPath m) ".."), h)
  | None =>
      match spawn_forwarders env ms 0 [] h with
      | (Some error, sp, h1) => (inl error, cleanup sp ms h1)
      | (None, sp, h1) =>
          match wait_for_sockets ms (polls env) h1 with
          | (true, h2) =>
              (inr {| controlSocketPath := controlSocketPath;
                      supervisorProcess := head sp;
                      mappings := ms |}, h2)
          | (false, h2) =>
              (inl "Timeout waiting for Unix sockets to be created after 2000ms",
               cleanup sp ms h2)
          end
      end
  end.

(** The [for] loop of [startUnixSocketSupervisor] over the attempts that
    remain; [envs] gives each attempt its environment and [delay] what the
    forwarders do while the supervisor waits before the next attempt. *)
Fixpoint attempts (ms : list UnixSocketSupervisorMapping) (runId : string)
    (envs : nat → AttemptEnv) (delay : nat → list EnvAction)
    (remaining : list nat) (lastError : option string) (h : Host)
  : (string + UnixSocketSupervisorContext) * Host :=
  match remaining with
  | [] =>
      (inl ("Failed to start Unix socket supervisor after "
            +:+ pretty MAX_RETRIES +:+ " attempts: "
            +:+ default "undefined" lastError), h)
  | attempt :: remaining' =>
      let h0 := logForDebugging (LogStarting attempt) h in
      match attemptStartSupervisor ms runId (envs attempt) h0 with
      | (inr context, h1) => (inr context, logForDebugging (LogStarted attempt) h1)
      | (inl error, h1) =>
          let h2 :=
            logForDebugging
              (LogFailed attempt error
                 (if (attempt =? MAX_RETRIES - 1)%nat then Err else Warn)) h1 in
          let h3 :=
            if (attempt <? MAX_RETRIES - 1)%nat then
              environment (delay attempt)
                (logForDebugging
                   (LogRetrying (default 0 (RETRY_DELAYS_MS !! attempt))) h2)
            else h2 in
          attempts ms runId envs delay remaining' (Some error) h3
      end
  end.

(** [startUnixSocketSupervisor(mappings, runId)]; [None] is a missing
    argument. *)
Definition startUnixSocketSupervisor (ms : option (list UnixSocketSupervisorMapping))
    (runId : string) (envs : nat → AttemptEnv) (delay : nat → list EnvAction)
    (h : Host) : (string + UnixSocketSupervisorContext) * Host :=
  match ms with
  | None | Some [] => (inl "Cannot start Unix socket supervisor with no mappings", h)
  | Some ms => attempts ms runId envs delay (seq 0 MAX_RETRIES) None h
  end.

End Start.

(** The processes a run of the supervisor started: those of [h'] that
    [h] does not have. *)
Definition spawned_between (h h' : Host) (p : positive) : Prop :=
  procs h !! p = None ∧ is_Some (procs h' !! p).

Definition is_running (h : Host) (p : positive) : Prop :=
  ∃ path, procs h !! p = Some (path, Running).

(** None of the processes that [h0] does not have runs in [h]. *)
Definition quiet (h0 h : Host) : Prop :=
  ∀ p, procs h0 !! p = None → ¬ is_running h p.

(** A socket (or regular) file exists at the path. *)
Definition socket_file_at (h : Host) (path : string) : Prop :=
  ∃ e, files h !! path = Some e ∧ kind e ≠ Directory.

(** Every file of [h'] is a socket a forwarder created or a file of [h]. *)
Definition created_or_old (h h' : Host) : Prop :=
  ∀ path e, files h' !! path = Some e →
            e = mkFile Socket true ∨ files h !! path = Some e.

(** The running processes that [h0] does not have are in
    [supervisorProcesses]. *)
Definition tracked (h0 : Host) (sp : list ChildProcess) (h : Host) : Prop :=
  ∀ p, procs h0 !! p = None → is_running h p → mkChild (Some p) false ∈ sp.

(** The attempts a run logged. *)
Definition attempts_started (h : Host) : list nat :=
  omap (λ e, match e with LogStarting n => Some n | _ => None end) (debug h).

(** A [join] for absolute POSIX paths without dot segments: [join p ".."]
    is the parent directory of [p]. *)
Fixpoint drop_last_segment (rev_path : list ascii) : list ascii :=
  match rev_path with
  | [] => []
  | c :: rest => if Ascii.eqb c "/" then rest else drop_last_segment rest
  end.

Definition posix_join (a b : string) : string :=
  if String.eqb b ".." then
    match drop_last_segment (reverse (String.list_ascii_of_string a)) with
    | [] => "/"
    | parent => String.string_of_list_ascii (reverse parent)
    end
  else a +:+ "/" +:+ b.

(** Two mappings below [/tmp], and three environments: the forwarders
    bind at once; only the first one ever binds; the second [spawn]
    yields no pid. *)
Definition example_mappings : list UnixSocketSupervisorMapping :=
  [mkMapping "/tmp/a.sock" "/run/a.sock"; mkMapping "/tmp/b.sock" "/run/b.sock"].

Definition example_host : Host :=
  {| files := {["/tmp" := mkFile Directory false]}; procs := ∅; debug := [] |}.

(** A host with the socket of a system service in a directory that is
    not writable to this process, and mappings that name it. *)
Definition service_host : Host :=
  {| files := {["/tmp" := mkFile Directory false;
                "/var/run" := mkFile Directory false;
                "/var/run/docker.sock" := mkFile Socket false]};
     procs := ∅; debug := [] |}.

Definition service_mappings : list UnixSocketSupervisorMapping :=
  [mkMapping "/tmp/a.sock" "/run/a.sock";
   mkMapping "/var/run/docker.sock" "/run/docker.sock"].

Definition env_prompt : AttemptEnv :=
  {| socketId := "00ff"; spawn_started := λ _, true;
     after_spawn := λ k, [Bind (Pos.of_succ_nat k)]; polls := [[]; []] |}.

Definition env_slow : AttemptEnv :=
  {| socketId := "00ff"; spawn_started := λ _, true;
     after_spawn := λ _, []; polls := [[Bind 1%positive]; []; []] |}.

Definition env_no_socat : AttemptEnv :=
  {| socketId := "00ff"; spawn_started := λ k, (k =? 0)%nat;
     after_spawn := λ _, [Bind 1%positive]; polls := [[]] |}.

(** What the examples show of a result. *)
Definition outcome (r : (string + UnixSocketSupervisorContext) * Host) :=
  (r.1, map_to_list (files r.2), map_to_list (procs r.2), attempts_started r.2).

(** *** Stopping the supervisor *)

(** [process.kill(pid, 'SIGKILL')]: the process is gone at once ([Exited]
    also stands for a killed process, which takes no further step);
    throws ([None]) when there is no such process any more. *)
Definition process_kill_SIGKILL (p : positive) (h : Host) : option Host :=
  match procs h !! p with
  | Some (path, Running) | Some (path, Terminated) =>
      Some (set_procs (<[p := (path, Exited)]> (procs h)) h)
  | Some (_, Exited) | None => None
  end.

(** The ['exit'] event of a process that was sent SIGTERM. *)
Definition exit_on_SIGTERM (p : positive) (h : Host) : Host :=
  match procs h !! p with
  | Some (path, Terminated) => set_procs (<[p := (path, Exited)]> (procs h)) h
  | _ => h
  end.

(** The messages of [stopUnixSocketSupervisor], kept apart from those of
    the start; those of the ['exit'] handlers that the start put on the
    forwarders are not among them.  [process.kill] throws nothing but
    ESRCH on a child of this process, so the message of the other errors
    is never logged. *)
Inductive StopLogEntry :=
  | LogStopping
  | LogSentSIGTERM
  | LogSupervisorExited
  | LogForceKilling
  | LogCleanedUp (path : string)
  | LogCleanupError (message : string)
  | LogControlCleanupError (message : string).

(** What is still registered with the event loop when the promise of
    [stopUnixSocketSupervisor] resolves: the timer of the force kill,
    which is never cleared, or the ['exit'] listener when the timer came
    first. *)
Inductive Scheduled :=
  | ForceKillTimer (p : positive)
  | ExitListener.

Global Instance StopLogEntry_eq_dec : EqDecision StopLogEntry.
Proof. solve_decision. Defined.
Global Instance Scheduled_eq_dec : EqDecision Scheduled.
Proof. solve_decision. Defined.

(** What a stop depends on besides the host: whether the process exits
    within the 5000 ms after SIGTERM, and what the other forwarders do
    during that wait. *)
Record StopEnv := mkStopEnv {
  exits_in_time : bool;
  while_waiting : list EnvAction;
}.

Record StopState := mkStopState {
  stop_host : Host;
  stop_log : list StopLogEntry;
  stop_scheduled : list Scheduled;
}.

Definition stop_set_host (h : Host) (s : StopState) : StopState :=
  {| stop_host := h; stop_log := stop_log s; stop_scheduled := stop_scheduled s |}.

Definition stop_logForDebugging (e : StopLogEntry) (s : StopState) : StopState :=
  {| stop_host := stop_host s; stop_log := stop_log s ++ [e];
     stop_scheduled := stop_scheduled s |}.

Definition stop_schedule (e : Scheduled) (s : StopState) : StopState :=
  {| stop_host := stop_host s; stop_log := stop_log s;
     stop_scheduled := stop_scheduled s ++ [e] |}.

(** The body of the force-kill timer.  The [killed] flag of the handle is
    the one read before: [process.kill] does not set it. *)
Definition force_kill (proc : ChildProcess) (s : StopState) : StopState :=
  if negb (killed proc) then
    let s1 := stop_logForDebugging LogForceKilling s in
    match pid proc with
    | Some p =>
        match process_kill_SIGKILL p (stop_host s1) with
        | Some h' => stop_set_host h' s1
        | None => s1
        end
    | None => s1
    end
  else s.

(** The [if] statement of [stopUnixSocketSupervisor] that signals
    [context.supervisorProcess] and waits for it. *)
Definition stop_process (proc : ChildProcess) (env : StopEnv) (s : StopState)
  : StopState :=
  match pid proc with
  | Some p =>
      if negb (killed proc) then
        match process_kill p (stop_host s) with
        | Some h1 =>
            let s1 := stop_logForDebugging LogSentSIGTERM (stop_set_host h1 s) in
            let s2 := stop_set_host (environment (while_waiting env) (stop_host s1)) s1 in
            if exits_in_time env then
              stop_schedule (ForceKillTimer p)
                (stop_logForDebugging LogSupervisorExited
                   (stop_set_host (exit_on_SIGTERM p (stop_host s2)) s2))
            else stop_schedule ExitListener (force_kill proc s2)
        | None => s
        end
      else s
  | None => s
  end.

(** The loop of [stopUnixSocketSupervisor] over [context.mappings]. *)
Definition stop_unlink_sockets (ms : list UnixSocketSupervisorMapping) (s : StopState)
  : StopState :=
  foldl (λ s' mapping,
           if existsSync (hostPath mapping) (stop_host s')
           then match unlinkSync (hostPath mapping) (stop_host s') with
                | Some h' =>
                    stop_logForDebugging (LogCleanedUp (hostPath mapping))
                      (stop_set_host h' s')
                | None =>
                    stop_logForDebugging
                      (LogCleanupError (unlink_error (hostPath mapping) (stop_host s'))) s'
                end
           else s') s ms.

(** The last statement of [stopUnixSocketSupervisor]. *)
Definition stop_unlink_control (path : string) (s : StopState) : StopState :=
  if existsSync path (stop_host s)
  then match unlinkSync path (stop_host s) with
       | Some h' => stop_set_host h' s
       | None =>
           stop_logForDebugging
             (LogControlCleanupError (unlink_error path (stop_host s))) s
       end
  else s.

(** [stopUnixSocketSupervisor(context, runId)]: the error thrown, if any,
    and the state when the promise settles.  A context without a
    supervisor process ([supervisorProcesses[0]] of an empty array) makes
    the read of [pid] throw. *)
Definition stopUnixSocketSupervisor (context : UnixSocketSupervisorContext)
    (runId : string) (env : StopEnv) (h : Host) : option string * StopState :=
  let s0 := {| stop_host := h; stop_log := [LogStopping]; stop_scheduled := [] |} in
  match supervisorProcess context with
  | None => (Some "Cannot read properties of undefined (reading 'pid')", s0)
  | Some proc =>
      (None,
       stop_unlink_control (controlSocketPath context)
         (stop_unlink_sockets (mappings context) (stop_process proc env s0)))
  end.

(** A callback that was left scheduled runs. *)
Definition fire (proc : ChildProcess) (e : Scheduled) (s : StopState) : StopState :=
  match e with
  | ForceKillTimer _ => force_kill proc s
  | ExitListener => stop_logForDebugging LogSupervisorExited s
  end.

(** *** What a start logs and leaves *)

(** The delays a start announced, the failures it reported and the
    attempts it reported as successful. *)
Definition retry_delays (h : Host) : list Z :=
  omap (λ e, match e with LogRetrying d => Some d | _ => None end) (debug h).

Definition failures (h : Host) : list (nat * string * Level) :=
  omap (λ e, match e with LogFailed n m l => Some (n, m, l) | _ => None end) (debug h).

Definition successes (h : Host) : list nat :=
  omap (λ e, match e with LogStarted n => Some n | _ => None end) (debug h).

(** The entries [attemptStartSupervisor] writes. *)
Definition attempt_entry (e : LogEntry) : bool :=
  match e with
  | LogCreating _ _ | LogAllCreated => true
  | _ => false
  end.

(** Every process of [h] is a process of [h'] on the same path, in the
    state it had unless it was running and has exited: none of them was
    signalled. *)
Definition undisturbed (h h' : Host) : Prop :=
  ∀ p path st, procs h !! p = Some (path, st) →
    ∃ st', procs h' !! p = Some (path, st')
           ∧ (st' = st ∨ (st = Running ∧ st' = Exited)).

(** No process was signalled between [h] and [h']. *)
Definition none_signalled (h h' : Host) : Prop :=
  ∀ p path, procs h' !! p = Some (path, Terminated) →
            procs h !! p = Some (path, Terminated).

(** The path is free or holds a socket a forwarder has bound. *)
Definition free_or_bound (h : Host) (path : string) : Prop :=
  files h !! path = None ∨ files h !! path = Some (mkFile Socket true).

(** The handle of a process that [spawn] started. *)
Definition child_of (p : positive) : ChildProcess := mkChild (Some p) false.

(** A stop environment in which the process exits at once. *)
Definition stop_prompt : StopEnv := {| exits_in_time := true; while_waiting := [] |}.

(** The handles in [supervisorProcesses] are of processes that [h0] does
    not have. *)
Definition spawned_after (h0 : Host) (sp : list ChildProcess) : Prop :=
  ∀ c p, c ∈ sp → pid c = Some p → procs h0 !! p = None.

(** [h'] has the log of [h] and then entries of an attempt only. *)
Definition attempt_log (h h' : Host) : Prop :=
  ∃ extra, debug h' = debug h ++ extra ∧ forallb attempt_entry extra = true.

(** A host on which a forwarder of another run listens, and the context
    of a supervisor whose two forwarders run on it. *)
Definition busy_host : Host :=
  {| files := {["/tmp" := mkFile Directory false;
                "/tmp/other.sock" := mkFile Socket true]};
     procs := {[7%positive := ("/tmp/other.sock", Running)]}; debug := [] |}.

Definition started_host : Host :=
  {| files := {["/tmp" := mkFile Directory false;
                "/tmp/a.sock" := mkFile Socket true;
                "/tmp/b.sock" := mkFile Socket true]};
     procs := {[1%positive := ("/tmp/a.sock", Running);
                2%positive := ("/tmp/b.sock", Running)]};
     debug := [] |}.

Definition started_context : UnixSocketSupervisorContext :=
  {| controlSocketPath := "/tmp/srt-unix-supervisor-run-00ff.sock";
     supervisorProcess := Some (child_of 1%positive);
     mappings := example_mappings |}.

End Supervisor.

(** * Properties *)

(** ** Lists, slices and sets *)

Lemma js_slice_neg {A} (n : nat) (xs : list A) :
  (0 < n)%nat → js_slice (- Z.of_nat n) xs = lastn n xs.
Proof.
  intros Hn. unfold js_slice, lastn.
  destruct (Z.ltb_spec (- Z.of_nat n) 0) as [_|?]; [|lia].
  f_equal. lia.
Qed.

Lemma js_slice_zero {A} (xs : list A) : js_slice 0 xs = xs.
Proof. unfold js_slice. simpl. by rewrite Z.min_l by lia. Qed.

Lemma lastn_length {A} (n : nat) (xs : list A) :
  length (lastn n xs) = (length xs `min` n)%nat.
Proof. unfold lastn. rewrite length_drop. lia. Qed.

Lemma lastn_all {A} (n : nat) (xs : list A) :
  (length xs ≤ n)%nat → lastn n xs = xs.
Proof. intros H. unfold lastn. by replace (length xs - n)%nat with 0%nat by lia. Qed.

Lemma lastn_snoc_lastn {A} (n : nat) (xs : list A) (x : A) :
  (0 < n)%nat → lastn n (lastn n xs ++ [x]) = lastn n (xs ++ [x]).
Proof.
  intros Hn. unfold lastn.
  destruct (decide (length xs ≤ n)%nat) as [Hle|Hgt].
  - by replace (length xs - n)%nat with 0%nat by lia.
  - rewrite !length_app, length_drop. simpl.
    rewrite drop_app_le by (rewrite length_drop; lia).
    rewrite drop_drop.
    rewrite (drop_app_le xs) by lia.
    do 2 f_equal. lia.
Qed.

Lemma set_members_app {A} (s1 s2 : list (option A)) :
  set_members (s1 ++ s2) = set_members s1 ++ set_members s2.
Proof. apply omap_app. Qed.

Lemma set_members_elem {A} (x : A) (s : list (option A)) :
  x ∈ set_members s ↔ Some x ∈ s.
Proof.
  unfold set_members. rewrite list_elem_of_omap. split.
  - by intros ([y|] & Hin & [= ->]).
  - intros Hin. by exists (Some x).
Qed.

Lemma set_members_add `{EqDecision A} (x : A) (s : list (option A)) :
  set_members (set_add x s)
  = if decide (x ∈ set_members s) then set_members s else set_members s ++ [x].
Proof.
  unfold set_add.
  destruct (decide (Some x ∈ s)) as [Hin|Hin].
  - by rewrite decide_True by (by apply set_members_elem).
  - rewrite decide_False by (by rewrite set_members_elem).
    by rewrite set_members_app.
Qed.

Lemma set_members_delete `{EqDecision A} (x : A) (s : list (option A)) :
  set_members (set_delete x s) = filter (λ y, y ≠ x) (set_members s).
Proof.
  unfold set_delete, set_members. induction s as [|[y|] s IH]; simpl; [done| |done].
  destruct (decide (Some y = Some x)) as [[= ->]|Hne]; simpl.
  - by rewrite filter_cons_False by (intros H; by apply H).
  - rewrite filter_cons_True by congruence. by f_equal.
Qed.

Lemma set_delete_length `{EqDecision A} (x : A) (s : list (option A)) :
  length (set_delete x s) = length s.
Proof. apply length_fmap. Qed.

Lemma set_add_members_elem `{EqDecision A} (x y : A) (s : list (option A)) :
  y ∈ set_members (set_add x s) ↔ y ∈ set_members s ∨ y = x.
Proof.
  rewrite set_members_add. case_decide.
  - split; [tauto|]. by intros [?| ->].
  - rewrite elem_of_app, list_elem_of_singleton. tauto.
Qed.

Lemma set_add_members_NoDup `{EqDecision A} (x : A) (s : list (option A)) :
  NoDup (set_members s) → NoDup (set_members (set_add x s)).
Proof.
  intros H. rewrite set_members_add. case_decide; [done|].
  apply NoDup_app. split_and!; [done| |apply NoDup_singleton].
  intros y Hy ->%list_elem_of_singleton. done.
Qed.

Lemma set_delete_members_elem `{EqDecision A} (x y : A) (s : list (option A)) :
  y ∈ set_members (set_delete x s) ↔ y ∈ set_members s ∧ y ≠ x.
Proof. rewrite set_members_delete, list_elem_of_filter. tauto. Qed.

Lemma set_delete_members_NoDup `{EqDecision A} (x : A) (s : list (option A)) :
  NoDup (set_members s) → NoDup (set_members (set_delete x s)).
Proof. rewrite set_members_delete. apply NoDup_filter. Qed.

(** What a [forEach] visits next is the first of the members it has not
    passed, and the members it has not passed after that are the rest. *)
Lemma first_member_spec {A} (s : list (option A)) (j0 : nat) :
  match first_member s j0 with
  | Some (j, x) =>
      ∃ n, j = (j0 + n)%nat ∧ s !! n = Some (Some x)
           ∧ set_members s = x :: set_members (drop (S n) s)
  | None => set_members s = []
  end.
Proof.
  revert j0. induction s as [|[y|] s IH]; intros j0; simpl; [done| |].
  - exists 0%nat. split_and!; [lia|done|]. by rewrite drop_0.
  - specialize (IH (S j0)). destruct (first_member s (S j0)) as [[j x]|]; [|done].
    destruct IH as (n & -> & Hn & Hm). exists (S n). split_and!; [lia|done|done].
Qed.

Lemma set_next_spec {A} (s : list (option A)) (i : nat) :
  match set_next s i with
  | Some (j, x) =>
      (i ≤ j)%nat ∧ s !! j = Some (Some x)
      ∧ set_members (drop i s) = x :: set_members (drop (S j) s)
  | None => set_members (drop i s) = []
  end.
Proof.
  unfold set_next. pose proof (first_member_spec (drop i s) i) as H.
  destruct (first_member (drop i s) i) as [[j x]|]; [|done].
  destruct H as (n & -> & Hn & Hm). rewrite lookup_drop in Hn.
  split_and!; [lia|done|]. rewrite Hm, drop_drop. do 3 f_equal. lia.
Qed.

(** ** The violation store *)

Module ViolationStoreSpec.
Import ViolationStore.

(** *** The heap of arrays *)

Lemma array_get_alloc_old (h : Heap) xs (l : loc) :
  (l < length h)%nat → array_get (h ++ [xs]) l = array_get h l.
Proof. intros H. unfold array_get. by rewrite lookup_app_l. Qed.

Lemma array_get_alloc_new (h : Heap) xs : array_get (h ++ [xs]) (length h) = xs.
Proof.
  unfold array_get. rewrite lookup_app_r by lia.
  by replace (length h - length h)%nat with 0%nat by lia.
Qed.

Lemma array_get_push (h : Heap) (l : loc) v :
  (l < length h)%nat → array_get (array_push l v h) l = array_get h l ++ [v].
Proof.
  intros H. unfold array_get, array_push.
  rewrite list_lookup_alter, decide_True by done.
  destruct (lookup_lt_is_Some_2 h l H) as [xs ->]. done.
Qed.

Lemma array_push_length (h : Heap) (l : loc) v :
  length (array_push l v h) = length h.
Proof. apply length_alter. Qed.

Lemma array_get_mutate_ne (h : Heap) (l r : loc) xs :
  l ≠ r → array_get (<[r := xs]> h) l = array_get h l.
Proof. intros H. unfold array_get. by rewrite list_lookup_insert_ne. Qed.

(** *** The methods, unfolded *)

Lemma hand_out_eq xs (w : World) :
  hand_out xs w
  = (length (heap w),
     {| heap := heap w ++ [xs]; sets := sets w; store := store w; calls := calls w;
        handed := handed w ++ [length (heap w)]; stack := stack w |}).
Proof. done. Qed.

Lemma getViolations_eq (limit : option Z) (w : World) :
  getViolations limit w
  = hand_out (match limit with
              | None => stored w
              | Some n => js_slice (- n) (stored w)
              end) w.
Proof. by destruct limit. Qed.

(** The store code that runs on changes neither the arrays nor the fields
    of the store. *)
Lemma resume_same (frames : list Frame) (w : World) :
  heap (resume frames w) = heap w ∧ sets (resume frames w) = sets w
  ∧ store (resume frames w) = store w ∧ handed (resume frames w) = handed w.
Proof.
  revert w. induction frames as [|f frames IH]; intros w; [done|].
  destruct f; simpl; repeat case_match; try done; apply IH.
Qed.

Lemma resume_set_stack (frames fs : list Frame) (w : World) :
  resume frames (set_stack fs w) = resume frames w.
Proof.
  revert w. induction frames as [|f frames IH]; intros w; [done|].
  destruct f; simpl; repeat case_match; try done; apply IH.
Qed.

Lemma record_violation_eq v (w : World) :
  record_violation v w
  = let l := violations (store w) in
    let h1 := array_push l v (heap w) in
    let s1 := set_totalCount (totalCount (store w) + 1)%N (store w) in
    if (maxSize <? length (array_get h1 l))%nat
    then {| heap := h1 ++ [js_slice (- Z.of_nat maxSize) (array_get h1 l)];
            sets := sets w; store := set_violations (length h1) s1;
            calls := calls w; handed := handed w; stack := stack w |}
    else {| heap := h1; sets := sets w; store := s1; calls := calls w;
            handed := handed w; stack := stack w |}.
Proof. done. Qed.

Lemma record_violation_stored v (w : World) :
  wf w → stored (record_violation v w) = lastn maxSize (stored w ++ [v]).
Proof.
  intros [Ha _]. rewrite record_violation_eq. cbv zeta.
  rewrite array_get_push by done. fold (stored w).
  destruct (Nat.ltb_spec maxSize (length (stored w ++ [v]))) as [Hlt|Hge].
  - unfold stored at 1. simpl. rewrite array_get_alloc_new.
    by rewrite js_slice_neg by (unfold maxSize; lia).
  - unfold stored at 1. simpl. rewrite array_get_push by done. fold (stored w).
    by rewrite lastn_all.
Qed.

Lemma record_violation_rest v (w : World) :
  totalCount (store (record_violation v w)) = (totalCount (store w) + 1)%N
  ∧ listeners (store (record_violation v w)) = listeners (store w)
  ∧ executionListeners (store (record_violation v w)) = executionListeners (store w)
  ∧ sets (record_violation v w) = sets w
  ∧ calls (record_violation v w) = calls w
  ∧ handed (record_violation v w) = handed w
  ∧ stack (record_violation v w) = stack w.
Proof. rewrite record_violation_eq. cbv zeta. by destruct (_ <? _)%nat. Qed.

Lemma record_violation_alloc v (w : World) :
  wf w →
  (violations (store (record_violation v w)) < length (heap (record_violation v w)))%nat
  ∧ (length (heap w) ≤ length (heap (record_violation v w)))%nat
  ∧ (violations (store (record_violation v w)) = violations (store w)
     ∨ (length (heap w) ≤ violations (store (record_violation v w)))%nat).
Proof.
  intros [Ha _]. rewrite record_violation_eq. cbv zeta.
  destruct (_ <? _)%nat; simpl; rewrite ?length_app, array_push_length; simpl; lia.
Qed.

(** *** The invariant *)

(** The invariant depends on the calls not at all, and on the stack
    through its last clause only. *)
Lemma wf_transfer (w w' : World) :
  heap w' = heap w → sets w' = sets w → store w' = store w → handed w' = handed w →
  Forall (frame_ok w') (stack w') → wf w → wf w'.
Proof.
  intros Hh Hs Hst Hha Hfr [H1 H2 H3 H4 H5 H6 H7 _].
  split; unfold subscribers in *; rewrite ?Hh, ?Hs, ?Hst, ?Hha; done.
Qed.

Lemma frame_ok_transfer (w w' : World) (f : Frame) :
  sets w' = sets w → store w' = store w → handed w' = handed w →
  frame_ok w f → frame_ok w' f.
Proof. intros Hs Hst Hha. destruct f; simpl; by rewrite ?Hs, ?Hst, ?Hha. Qed.

Lemma new_world_wf : wf new_world.
Proof.
  split; simpl; try done.
  - lia.
  - by intros r ?%not_elem_of_nil.
  - constructor.
Qed.

Lemma wf_tail (f : Frame) (frames : list Frame) (w : World) :
  wf (set_stack (f :: frames) w) → wf (set_stack frames w).
Proof.
  intros Hw. apply (wf_transfer (set_stack (f :: frames) w)); try done.
  pose proof (wf_stack _ Hw) as H. simpl in H. apply Forall_cons in H as [_ H].
  eapply Forall_impl; [exact H|]. intros f'. by apply frame_ok_transfer.
Qed.

Lemma resume_wf (frames : list Frame) (w : World) :
  wf (set_stack frames w) → wf (resume frames w).
Proof.
  revert w. induction frames as [|f frames IH]; intros w Hw; [done|].
  pose proof (wf_tail _ _ _ Hw) as Hw'.
  pose proof (wf_stack _ Hw) as Hfr. simpl in Hfr.
  apply Forall_cons in Hfr as [Hf Hfr].
  assert (Hcall : ∀ c l f', frame_ok (set_stack (f :: frames) w) f' →
            wf (invoke c l (f' :: frames) w)).
  { intros c l f' Hf'. apply (wf_transfer (set_stack (f :: frames) w)); try done.
    simpl. constructor; [done|]. constructor.
    - by apply (frame_ok_transfer (set_stack (f :: frames) w)).
    - eapply Forall_impl; [exact Hfr|]. intros f''. by apply frame_ok_transfer. }
  destruct f as [l|arr i|s id v i|v]; simpl.
  - done.
  - destruct (set_next _ i) as [[j l]|]; [|by apply IH]. by apply Hcall.
  - destruct (set_next _ i) as [[j l]|]; [|by apply IH]. by apply Hcall.
  - destruct (js_truthy (executionId v)) eqn:Ht; [|by apply IH].
    destruct (executionId v) as [id|] eqn:Hid; [|by apply IH].
    destruct (executionListeners (store w) !! id) as [s|] eqn:Hs; [|by apply IH].
    destruct (set_next _ 0) as [[j l]|]; [|by apply IH].
    apply Hcall. simpl. rewrite Hid.
    destruct (wf_execution _ Hw id s Hs) as (entries & He & _). simpl in He.
    split_and!.
    + by eapply lookup_lt_Some.
    + done.
    + intros ->. done.
    + intros k Hk. by apply (wf_keys _ Hw k id s).
Qed.

Lemma set_stack_stack (w : World) : set_stack (stack w) w = w.
Proof. by destruct w. Qed.

Lemma frame_ok_mono (w w' : World) (f : Frame) :
  sets w' = sets w → executionListeners (store w') = executionListeners (store w) →
  handed w ⊆ handed w' → frame_ok w f → frame_ok w' f.
Proof.
  intros Hs Hm Hha. destruct f; simpl; rewrite ?Hs, ?Hm; try done.
  apply Hha.
Qed.

Lemma stack_ok_mono (w w' : World) (fs : list Frame) :
  sets w' = sets w → executionListeners (store w') = executionListeners (store w) →
  handed w ⊆ handed w' → Forall (frame_ok w) fs → Forall (frame_ok w') fs.
Proof.
  intros Hs Hm Hha H. eapply Forall_impl; [exact H|].
  intros f. by apply frame_ok_mono.
Qed.

Lemma hand_out_wf xs (w : World) : wf w → wf (hand_out xs w).2.
Proof.
  intros [H1 H2 H3 H4 H5 H6 H7 H8]. rewrite hand_out_eq. split; simpl; try done.
  - rewrite length_app. lia.
  - intros r [Hr| ->%list_elem_of_singleton]%elem_of_app; rewrite length_app; simpl.
    + destruct (H2 r Hr). split; [lia|done].
    + split; lia.
  - eapply stack_ok_mono; [..|exact H8]; try done. simpl.
    intros r Hr. apply elem_of_app. by left.
Qed.

Lemma record_violation_wf v (w : World) : wf w → wf (record_violation v w).
Proof.
  intros Hw. destruct (record_violation_alloc v w Hw) as (Ha & Hb & Hc).
  destruct (record_violation_rest v w) as (_ & Hl & Hm & Hs & _ & Hh & Hst).
  destruct Hw as [H1 H2 H3 H4 H5 H6 H7 H8].
  split; unfold subscribers; rewrite ?Hl, ?Hm, ?Hs, ?Hh, ?Hst; try done.
  - intros r Hr. destruct (H2 r Hr). split; [lia|]. destruct Hc as [->|Hc]; [done|lia].
  - eapply stack_ok_mono; [..|exact H8]; try done. by rewrite Hh.
Qed.

Lemma notifyListeners_wf (frames : list Frame) (w : World) :
  wf (set_stack frames w) → wf (notifyListeners frames w).
Proof.
  intros Hw. unfold notifyListeners. rewrite getViolations_eq, hand_out_eq.
  apply resume_wf.
  pose proof (hand_out_wf (stored w) _ Hw) as Hw'. rewrite hand_out_eq in Hw'.
  simpl in Hw'. destruct Hw' as [H1 H2 H3 H4 H5 H6 H7 H8].
  split; try done. simpl in *. constructor; [|done].
  simpl. apply elem_of_app. right. by left.
Qed.

Lemma addViolation_wf v (w : World) : wf w → wf (addViolation v w).
Proof.
  intros Hw%(record_violation_wf v). unfold addViolation. apply notifyListeners_wf.
  destruct Hw as [H1 H2 H3 H4 H5 H6 H7 H8]. split; try done.
  simpl. by constructor.
Qed.

Lemma clear_wf (w : World) : wf w → wf (clear w).
Proof.
  intros [H1 H2 H3 H4 H5 H6 H7 H8]. unfold clear. simpl.
  apply notifyListeners_wf. split; simpl; try done.
  - rewrite length_app. simpl. lia.
  - intros r Hr. destruct (H2 r Hr). rewrite length_app. simpl. lia.
Qed.

Lemma unsubscribe_wf l (w : World) : wf w → wf (unsubscribe l w).
Proof.
  intros [H1 H2 H3 H4 H5 H6 H7 H8]. split; try done.
  unfold subscribers. simpl. by apply set_delete_members_NoDup.
Qed.

Lemma subscribe_wf l (w : World) : wf w → wf (subscribe l w).2.
Proof.
  intros Hw. unfold subscribe. rewrite getViolations_eq, hand_out_eq. simpl.
  assert (Hw1 : wf (set_store (set_listeners (set_add l (listeners (store w)))
                                 (store w)) w)).
  { destruct Hw as [H1 H2 H3 H4 H5 H6 H7 H8]. split; try done.
    unfold subscribers. simpl. by apply set_add_members_NoDup. }
  apply (hand_out_wf (stored w)) in Hw1. rewrite hand_out_eq in Hw1. simpl in Hw1.
  destruct Hw1 as [H1 H2 H3 H4 H5 H6 H7 H8]. split; try done.
  simpl in *. by constructor.
Qed.

Lemma listener_returns_wf (w : World) : wf w → wf (listener_returns w).
Proof.
  intros Hw. unfold listener_returns.
  destruct (stack w) as [|[l|arr i|s id v i|v] rest] eqn:Hst; try done.
  apply resume_wf, (wf_tail (Running l)). by rewrite <- Hst, set_stack_stack.
Qed.

Lemma unwind_sublist (frames : list Frame) : unwind frames `suffix_of` frames.
Proof.
  induction frames as [|[] frames IH]; simpl; try done; by apply suffix_cons_r.
Qed.

Lemma listener_throws_wf (w : World) : wf w → wf (listener_throws w).
Proof.
  intros Hw. unfold listener_throws.
  destruct (stack w) as [|[l|arr i|s id v i|v] rest] eqn:Hst; try done.
  apply (wf_transfer w); try done. simpl.
  pose proof (wf_stack _ Hw) as H. rewrite Hst in H.
  apply Forall_cons in H as [_ H].
  destruct (unwind_sublist rest) as [k Hk]. rewrite Hk in H.
  by apply Forall_app in H as [_ H].
Qed.

Lemma write_wf r xs (w : World) : wf w → wf (write r xs w).
Proof.
  intros Hw. unfold write. case_decide; [|done].
  destruct Hw as [H1 H2 H3 H4 H5 H6 H7 H8]. split; try done; simpl.
  - by rewrite length_insert.
  - intros r' Hr'. rewrite length_insert. by apply H2.
Qed.

Lemma subscribeToExecution_eq id l (w : World) :
  (subscribeToExecution id l w).2
  = match executionListeners (store w) !! id with
    | Some s => set_sets (alter (set_add l) s (sets w)) w
    | None =>
        {| heap := heap w; sets := sets w ++ [[Some l]];
           store := set_executionListeners
                      (<[id := length (sets w)]> (executionListeners (store w)))
                      (store w);
           calls := calls w; handed := handed w; stack := stack w |}
    end.
Proof.
  unfold subscribeToExecution. simpl.
  destruct (executionListeners (store w) !! id) as [s|] eqn:E.
  - rewrite decide_True by eauto. by rewrite E.
  - rewrite decide_False by (by intros [? ?]). simpl.
    rewrite lookup_insert_eq. unfold set_sets. simpl. f_equal.
    replace (length (sets w)) with (length (sets w) + 0)%nat at 1 by lia.
    by rewrite alter_app_r.
Qed.

Lemma subscribeToExecution_wf id l (w : World) :
  wf w → wf (subscribeToExecution id l w).2.
Proof.
  intros Hw. rewrite subscribeToExecution_eq.
  destruct (executionListeners (store w) !! id) as [s|] eqn:E.
  - destruct Hw as [H1 H2 H3 H4 H5 H6 H7 H8]. split; simpl; try done.
    + intros s' entries. rewrite list_lookup_alter.
      destruct (decide (s = s')) as [<-|Hne]; [|by apply H4].
      destruct (sets w !! s) as [old|] eqn:Hs; [|done].
      intros [= <-]. apply set_add_members_NoDup. by apply (H4 s).
    + intros k s' Hk. destruct (H5 k s' Hk) as (entries & He & Hne).
      rewrite list_lookup_alter. destruct (decide (s = s')) as [<-|Hne'].
      * rewrite He. eexists. split; [done|].
        intros Hnil. apply Hne. apply elem_of_nil_inv. intros x Hx.
        assert (x ∈ set_members (set_add l entries)) as Hx'
          by (apply set_add_members_elem; by left).
        rewrite Hnil in Hx'. by apply not_elem_of_nil in Hx'.
      * eauto.
    + intros s' entries l'. rewrite list_lookup_alter.
      destruct (decide (s = s')) as [<-|Hne]; [|by apply H7].
      intros _ _. by exists id.
    + eapply Forall_impl; [exact H8|]. intros [l'|arr i|s' id' v i|v]; simpl; try done.
      by rewrite length_alter.
  - destruct Hw as [H1 H2 H3 H4 H5 H6 H7 H8]. split; simpl; try done.
    + intros s' entries Hs'. apply lookup_app_Some in Hs' as [Hs'|[Hge Hs']].
      * by apply (H4 s').
      * apply list_lookup_singleton_Some in Hs' as [_ <-]. simpl.
        apply NoDup_singleton.
    + intros k s' Hk. destruct (decide (k = id)) as [->|Hne].
      * rewrite lookup_insert_eq in Hk. injection Hk as <-.
        exists [Some l]. split; [|done].
        rewrite lookup_app_r by lia.
        by replace (length (sets w) - length (sets w))%nat with 0%nat by lia.
      * rewrite lookup_insert_ne in Hk by done.
        destruct (H5 k s' Hk) as (entries & He & Hnil). exists entries.
        split; [|done]. by rewrite lookup_app_l by (by eapply lookup_lt_Some).
    + intros k1 k2 s' Hk1 Hk2.
      destruct (decide (k1 = id)) as [->|Hne1], (decide (k2 = id)) as [->|Hne2];
        try done.
      * rewrite lookup_insert_eq in Hk1. injection Hk1 as <-.
        rewrite lookup_insert_ne in Hk2 by done.
        destruct (H5 k2 _ Hk2) as (entries & He%lookup_lt_Some & _). lia.
      * rewrite lookup_insert_eq in Hk2. injection Hk2 as <-.
        rewrite lookup_insert_ne in Hk1 by done.
        destruct (H5 k1 _ Hk1) as (entries & He%lookup_lt_Some & _). lia.
      * rewrite lookup_insert_ne in Hk1, Hk2 by done. by apply (H6 k1 k2 s').
    + intros s' entries l' Hs' Hl'. apply lookup_app_Some in Hs' as [Hs'|[Hge Hs']].
      * destruct (H7 s' entries l' Hs' Hl') as [k Hk]. exists k.
        rewrite lookup_insert_ne; [done|]. intros <-. by rewrite E in Hk.
      * apply list_lookup_singleton_Some in Hs' as [Hz _].
        exists id. rewrite lookup_insert_eq. f_equal. lia.
    + eapply Forall_impl; [exact H8|]. intros [l'|arr i|s' id' v i|v]; simpl; try done.
      intros (Hlt & Hv & Hid & Hk). rewrite length_app. split_and!; try done; [lia|].
      intros k Hk'. destruct (decide (k = id)) as [->|Hne].
      * rewrite lookup_insert_eq in Hk'. injection Hk' as <-. lia.
      * rewrite lookup_insert_ne in Hk' by done. by apply Hk.
Qed.

Lemma unsubscribeExecution_eq id l (w : World) :
  unsubscribeExecution id l w
  = match executionListeners (store w) !! id with
    | Some s =>
        let ss := alter (set_delete l) s (sets w) in
        if (set_size (default [] (ss !! s)) =? 0)%nat
        then {| heap := heap w; sets := ss;
                store := set_executionListeners (delete id (executionListeners (store w)))
                           (store w);
                calls := calls w; handed := handed w; stack := stack w |}
        else set_sets ss w
    | None => w
    end.
Proof.
  unfold unsubscribeExecution.
  destruct (executionListeners (store w) !! id) as [s|]; [|done]. done.
Qed.

Lemma unsubscribeExecution_wf id l (w : World) :
  wf w → wf (unsubscribeExecution id l w).
Proof.
  intros Hw. rewrite unsubscribeExecution_eq.
  destruct (executionListeners (store w) !! id) as [s|] eqn:E; [|done].
  cbv zeta. destruct (wf_execution _ Hw id s E) as (old & Hold & _).
  rewrite list_lookup_alter_eq, Hold. simpl.
  assert (Hsets : ∀ s' entries, alter (set_delete l) s (sets w) !! s' = Some entries →
            NoDup (set_members entries)).
  { intros s' entries. rewrite list_lookup_alter.
    destruct (decide (s = s')) as [<-|Hne]; [|by apply (wf_sets _ Hw)].
    rewrite Hold. intros [= <-]. apply set_delete_members_NoDup.
    by apply (wf_sets _ Hw s). }
  assert (Hfr : ∀ m : gmap string nat, (∀ k s', m !! k = Some s' → executionListeners (store w) !! k = Some s') →
            Forall (λ f, match f with
                         | Running _ | AfterNotifyListeners _ => True
                         | NotifyListeners arr _ => arr ∈ handed w
                         | NotifyExecution s' id' v _ =>
                             (s' < length (alter (set_delete l) s (sets w)))%nat
                             ∧ executionId v = Some id' ∧ id' ≠ EmptyString
                             ∧ ∀ k, m !! k = Some s' → k = id'
                         end) (stack w)).
  { intros m Hm. eapply Forall_impl; [exact (wf_stack _ Hw)|].
    intros [l'|arr i|s' id' v i|v]; simpl; try done.
    intros (Hlt & Hv & Hid & Hk). rewrite length_alter. split_and!; try done.
    intros k Hk'. by apply Hk, Hm. }
  destruct (Nat.eqb_spec (set_size (set_delete l old)) 0) as [Hz|Hnz].
  - destruct Hw as [H1 H2 H3 H4 H5 H6 H7 H8]. split; simpl; try done.
    + intros k s' Hk. apply lookup_delete_Some in Hk as [Hne Hk].
      destruct (H5 k s' Hk) as (entries & He & Hnil). exists entries.
      split; [|done]. rewrite list_lookup_alter_ne; [done|].
      intros <-. apply Hne. by apply (H6 id k s).
    + intros k1 k2 s' [_ Hk1]%lookup_delete_Some [_ Hk2]%lookup_delete_Some.
      by apply (H6 k1 k2 s').
    + intros s' entries l'. rewrite list_lookup_alter.
      destruct (decide (s = s')) as [<-|Hne].
      * rewrite Hold. intros [= <-] Hl'. unfold set_size in Hz.
        apply nil_length_inv in Hz. rewrite Hz in Hl'.
        by apply not_elem_of_nil in Hl'.
      * intros Hs' Hl'. destruct (H7 s' entries l' Hs' Hl') as [k Hk]. exists k.
        apply lookup_delete_Some. split; [|done].
        intros <-. rewrite E in Hk. by injection Hk.
    + apply (Hfr (delete id (executionListeners (store w)))).
      by intros k s' [_ ?]%lookup_delete_Some.
  - destruct Hw as [H1 H2 H3 H4 H5 H6 H7 H8]. split; simpl; try done.
    + intros k s' Hk. rewrite list_lookup_alter.
      destruct (decide (s = s')) as [<-|Hne].
      * rewrite Hold. eexists. split; [done|].
        intros Hnil. apply Hnz. unfold set_size. by rewrite Hnil.
      * by apply H5 with k.
    + intros s' entries l'. rewrite list_lookup_alter.
      destruct (decide (s = s')) as [<-|Hne]; [|by apply H7].
      intros _ _. by exists id.
    + by apply (Hfr (executionListeners (store w))).
Qed.

Lemma query_wf (limit : option Z) (w : World) : wf w → wf (getViolations limit w).2.
Proof. intros Hw. rewrite getViolations_eq. by apply hand_out_wf. Qed.

Lemma step_wf (w : World) (o : Op) : wf w → wf (step w o).
Proof.
  intros Hw. destruct o; cbn [step].
  - by apply addViolation_wf.
  - by apply clear_wf.
  - by apply subscribe_wf.
  - by apply unsubscribe_wf.
  - by apply subscribeToExecution_wf.
  - by apply unsubscribeExecution_wf.
  - by apply query_wf.
  - by apply hand_out_wf.
  - by apply listener_returns_wf.
  - by apply listener_throws_wf.
  - by apply write_wf.
Qed.

Lemma run_wf (ops : list Op) (w : World) : wf w → wf (run ops w).
Proof.
  revert w. induction ops as [|o ops IH]; intros w Hw; [done|].
  simpl. by apply IH, step_wf.
Qed.

Lemma run_app (ops1 ops2 : list Op) (w : World) :
  run (ops1 ++ ops2) w = run ops2 (run ops1 w).
Proof. apply foldl_app. Qed.

Lemma run_snoc (ops : list Op) (o : Op) (w : World) :
  run (ops ++ [o]) w = step (run ops w) o.
Proof. by rewrite run_app. Qed.

(** *** The ring (C2) *)

Lemma notifyListeners_same (frames : list Frame) (w : World) :
  heap (notifyListeners frames w) = heap w ++ [stored w]
  ∧ sets (notifyListeners frames w) = sets w
  ∧ store (notifyListeners frames w) = store w
  ∧ handed (notifyListeners frames w) = handed w ++ [length (heap w)].
Proof.
  unfold notifyListeners. rewrite getViolations_eq, hand_out_eq.
  destruct (resume_same (NotifyListeners (length (heap w)) 0 :: frames)
              {| heap := heap w ++ [stored w]; sets := sets w; store := store w;
                 calls := calls w; handed := handed w ++ [length (heap w)];
                 stack := stack w |}) as (-> & -> & -> & ->).
  done.
Qed.

Lemma notifyListeners_stored (frames : list Frame) (w : World) :
  wf w → stored (notifyListeners frames w) = stored w.
Proof.
  intros Hw. destruct (notifyListeners_same frames w) as (Hh & _ & Hs & _).
  unfold stored at 1. rewrite Hh, Hs. apply array_get_alloc_old, Hw.
Qed.

Lemma addViolation_stored v (w : World) :
  wf w → stored (addViolation v w) = lastn maxSize (stored w ++ [v]).
Proof.
  intros Hw. unfold addViolation.
  rewrite notifyListeners_stored by (by apply record_violation_wf).
  by apply record_violation_stored.
Qed.

Lemma addViolation_totalCount v (w : World) :
  getTotalCount (addViolation v w) = (getTotalCount w + 1)%N.
Proof.
  unfold addViolation, getTotalCount.
  destruct (notifyListeners_same (AfterNotifyListeners v :: stack (record_violation v w))
              (record_violation v w)) as (_ & _ & -> & _).
  by destruct (record_violation_rest v w) as (-> & _).
Qed.

Lemma clear_same (w : World) :
  heap (clear w) = (heap w ++ [[]]) ++ [[]]
  ∧ sets (clear w) = sets w
  ∧ store (clear w) = set_violations (length (heap w)) (store w)
  ∧ handed (clear w) = handed w ++ [S (length (heap w))].
Proof.
  unfold clear. simpl.
  match goal with |- context [notifyListeners ?fs ?w'] =>
    destruct (notifyListeners_same fs w') as (-> & -> & -> & ->) end.
  simpl. unfold stored. simpl. rewrite array_get_alloc_new, length_app. simpl.
  split_and!; try done. do 3 f_equal. lia.
Qed.

Lemma clear_stored (w : World) : stored (clear w) = [].
Proof.
  destruct (clear_same w) as (Hh & _ & Hs & _). unfold stored. rewrite Hh, Hs. simpl.
  rewrite array_get_alloc_old by (rewrite length_app; simpl; lia).
  apply array_get_alloc_new.
Qed.

Lemma clear_totalCount (w : World) : getTotalCount (clear w) = getTotalCount w.
Proof.
  unfold getTotalCount. by destruct (clear_same w) as (_ & _ & -> & _).
Qed.

Lemma subscribe_same l (w : World) :
  heap (subscribe l w).2 = heap w ++ [stored w]
  ∧ sets (subscribe l w).2 = sets w
  ∧ store (subscribe l w).2
    = set_listeners (set_add l (listeners (store w))) (store w)
  ∧ handed (subscribe l w).2 = handed w ++ [length (heap w)]
  ∧ calls (subscribe l w).2 = calls w ++ [BroadcastCall l (length (heap w))]
  ∧ stack (subscribe l w).2 = Running l :: stack w.
Proof. done. Qed.

Lemma step_stored (w : World) (o : Op) :
  wf w →
  stored (step w o)
  = match o with
    | OpAddViolation v => lastn maxSize (stored w ++ [v])
    | OpClear => []
    | _ => stored w
    end.
Proof.
  intros Hw. destruct o as [v| |l|l|id l|id l|limit|id| | |r xs]; cbn [step].
  - by apply addViolation_stored.
  - apply clear_stored.
  - unfold stored. simpl. apply array_get_alloc_old, Hw.
  - done.
  - rewrite subscribeToExecution_eq. by destruct (_ !! id).
  - rewrite unsubscribeExecution_eq. destruct (_ !! id); [|done].
    cbv zeta. by destruct (_ =? _)%nat.
  - rewrite getViolations_eq. unfold stored. simpl. apply array_get_alloc_old, Hw.
  - unfold stored. simpl. apply array_get_alloc_old, Hw.
  - unfold listener_returns. destruct (stack w) as [|[] rest]; try done.
    unfold stored. by destruct (resume_same rest w) as (-> & _ & -> & _).
  - unfold listener_throws. by destruct (stack w) as [|[] rest].
  - unfold write. case_decide as Hr; [|done].
    unfold stored. simpl. apply array_get_mutate_ne.
    destruct (wf_handed _ Hw r Hr). congruence.
Qed.

Lemma step_totalCount (w : World) (o : Op) :
  getTotalCount (step w o)
  = match o with
    | OpAddViolation _ => (getTotalCount w + 1)%N
    | _ => getTotalCount w
    end.
Proof.
  destruct o as [v| |l|l|id l|id l|limit|id| | |r xs]; cbn [step].
  - apply addViolation_totalCount.
  - apply clear_totalCount.
  - done.
  - done.
  - rewrite subscribeToExecution_eq. by destruct (_ !! id).
  - rewrite unsubscribeExecution_eq. destruct (_ !! id); [|done].
    cbv zeta. by destruct (_ =? _)%nat.
  - by destruct limit.
  - done.
  - unfold listener_returns, getTotalCount. destruct (stack w) as [|[] rest]; try done.
    by destruct (resume_same rest w) as (_ & _ & -> & _).
  - unfold listener_throws. by destruct (stack w) as [|[] rest].
  - unfold write. by case_decide.
Qed.

Lemma run_stored (ops : list Op) (w : World) acc :
  wf w → stored w = lastn maxSize acc →
  stored (run ops w) = lastn maxSize (added_since_clear acc ops).
Proof.
  revert w acc. induction ops as [|o ops IH]; intros w acc Hw Hs; [done|].
  simpl. pose proof (step_stored w o Hw) as Hstep.
  destruct o; (apply IH; [by apply step_wf|]); rewrite Hstep; try done.
  rewrite Hs. apply lastn_snoc_lastn. unfold maxSize. lia.
Qed.

Lemma run_totalCount (ops : list Op) (w : World) :
  getTotalCount (run ops w) = (getTotalCount w + N.of_nat (length (added ops)))%N.
Proof.
  revert w. induction ops as [|o ops IH]; intros w; simpl; [lia|].
  rewrite IH, step_totalCount. destruct o; simpl; lia.
Qed.

(** C2.  From a new store, after every history (calls of the methods
    from outside or from inside a listener, listeners that return or
    throw, writes to arrays that were handed out): the count is at most
    500, the stored violations are the last 500 of those added since the
    last [clear], in the order of their insertion, and the total count is
    the number of [addViolation] calls; [addViolation] appends, evicts
    the oldest entry on overflow and adds one to the total count;
    [clear] empties the ring and leaves the total count; no history
    decreases the total count. *)
Theorem violation_ring_invariants (ops : list Op) :
  let w := run ops new_world in
  maxSize = 500%nat
  ∧ (getCount w ≤ maxSize)%nat
  ∧ stored w = lastn maxSize (added_since_clear [] ops)
  ∧ getTotalCount w = N.of_nat (length (added ops))
  ∧ (∀ v, stored (addViolation v w) = lastn maxSize (stored w ++ [v])
          ∧ (getCount (addViolation v w) ≤ maxSize)%nat
          ∧ getTotalCount (addViolation v w) = (getTotalCount w + 1)%N)
  ∧ (getCount (clear w) = 0%nat ∧ getTotalCount (clear w) = getTotalCount w)
  ∧ (∀ ops', (getTotalCount w ≤ getTotalCount (run ops' w))%N).
Proof.
  intros w.
  assert (Hw : wf w) by apply run_wf, new_world_wf.
  assert (Hs : stored w = lastn maxSize (added_since_clear [] ops)).
  { by apply run_stored; [apply new_world_wf|]. }
  split_and!.
  - done.
  - unfold getCount. rewrite Hs, lastn_length. lia.
  - done.
  - unfold w. rewrite run_totalCount.
    change (getTotalCount new_world) with 0%N. lia.
  - intros v. split_and!.
    + by apply addViolation_stored.
    + unfold getCount. rewrite addViolation_stored by done.
      rewrite lastn_length. lia.
    + apply addViolation_totalCount.
  - unfold getCount. by rewrite clear_stored.
  - apply clear_totalCount.
  - intros ops'. rewrite run_totalCount. lia.
Qed.

(** *** Lookup by command (C8) *)

Section ForCommand.
Variable encodeSandboxedCommand : string → string.

(** C8.  On a store with any history, [getViolationsForCommand cmd]
    returns a new array holding exactly the stored violations whose
    [encodedCommand] is the encoding of [cmd], in the order in which they
    are stored, and leaves the store as it is.  The encoding is a function
    of the command string alone, so equal commands have equal encodings
    and the lookup gives the same violations whenever the stored
    violations are the same. *)
Theorem violations_for_command (ops : list Op) (cmd : string) :
  let w := run ops new_world in
  let res := getViolationsForCommand encodeSandboxedCommand cmd w in
  let found := array_get (heap res.2) res.1 in
  found = filter (λ v, encodedCommand v = Some (encodeSandboxedCommand cmd)) (stored w)
  ∧ (∀ v, v ∈ found ↔
          v ∈ stored w ∧ encodedCommand v = Some (encodeSandboxedCommand cmd))
  ∧ found `sublist_of` stored w
  ∧ stored res.2 = stored w ∧ store res.2 = store w ∧ calls res.2 = calls w
  ∧ (∀ cmd', cmd' = cmd → encodeSandboxedCommand cmd' = encodeSandboxedCommand cmd)
  ∧ (∀ ops' cmd',
       cmd' = cmd → stored (run ops' new_world) = stored w →
       let res' := getViolationsForCommand encodeSandboxedCommand cmd'
                     (run ops' new_world) in
       array_get (heap res'.2) res'.1 = found).
Proof.
  intros w res found.
  assert (Hw : wf w) by apply run_wf, new_world_wf.
  assert (Hf : found = filter (λ v, encodedCommand v
                                    = Some (encodeSandboxedCommand cmd)) (stored w)).
  { unfold found, res, getViolationsForCommand. simpl. apply array_get_alloc_new. }
  split_and!.
  - done.
  - intros v. rewrite Hf, list_elem_of_filter. tauto.
  - rewrite Hf. apply sublist_filter.
  - unfold res, getViolationsForCommand, stored. simpl.
    apply array_get_alloc_old, Hw.
  - done.
  - done.
  - by intros cmd' ->.
  - intros ops' cmd' -> Hs. unfold getViolationsForCommand. simpl.
    by rewrite array_get_alloc_new, Hs, Hf.
Qed.

End ForCommand.

(** *** The calls a step makes *)

Lemma new_calls_app (w w' : World) cs :
  calls w' = calls w ++ cs → new_calls w w' = cs.
Proof. intros H. unfold new_calls. by rewrite H, drop_app_length. Qed.

Lemma call_ok_cons (w : World) (f : Frame) (frames : list Frame) (c : Call) :
  call_ok w frames c → call_ok w (f :: frames) c.
Proof.
  destruct c as [l r|k l v]; simpl; [done|].
  intros (? & ? & ? & Hin). split_and!; try done.
  destruct f; simpl; try done; by right.
Qed.

Lemma js_truthy_Some (id : string) : js_truthy (Some id) = true ↔ id ≠ EmptyString.
Proof.
  simpl. rewrite negb_true_iff. split.
  - intros H ->. done.
  - intros H. by apply String.eqb_neq.
Qed.

Lemma resume_calls (frames : list Frame) (w : World) :
  wf (set_stack frames w) →
  ∃ cs, calls (resume frames w) = calls w ++ cs
        ∧ (length cs ≤ 1)%nat
        ∧ Forall (call_ok w frames) cs.
Proof.
  revert w. induction frames as [|f frames IH]; intros w Hw.
  { exists []. simpl. rewrite app_nil_r. split_and!; [done|lia|constructor]. }
  pose proof (wf_tail _ _ _ Hw) as Hw'.
  assert (Hrest : ∃ cs, calls (resume frames w) = calls w ++ cs
                        ∧ (length cs ≤ 1)%nat
                        ∧ Forall (call_ok w (f :: frames)) cs).
  { destruct (IH w Hw') as (cs & Hc & Hl & Hall). exists cs. split_and!; try done.
    eapply Forall_impl; [exact Hall|]. intros c. apply call_ok_cons. }
  pose proof (wf_stack _ Hw) as Hfr. simpl in Hfr.
  apply Forall_cons in Hfr as [Hf _].
  assert (Hmember : ∀ (s : nat) k j l,
            (∀ k', executionListeners (store w) !! k' = Some s → k' = k) →
            default [] (sets w !! s) !! j = Some (Some l) →
            l ∈ listeners_of w k).
  { intros s k j l Hk Hl.
    destruct (sets w !! s) as [entries|] eqn:Hs; [|done]. simpl in Hl.
    assert (Hin : l ∈ set_members entries).
    { apply set_members_elem. by eapply list_elem_of_lookup_2. }
    destruct (wf_dropped _ Hw s entries l Hs Hin) as [k' Hk']. simpl in Hk'.
    rewrite (Hk k' Hk') in Hk'. unfold listeners_of. by rewrite Hk', Hs. }
  destruct f as [l|arr i|s id v i|v]; simpl.
  - exists []. simpl. rewrite app_nil_r. split_and!; [done|lia|constructor].
  - pose proof (set_next_spec (listeners (store w)) i) as Hn.
    destruct (set_next _ i) as [[j l]|]; [|done].
    destruct Hn as (_ & Hj & _). eexists [_]. simpl. split_and!; [done|lia|].
    constructor; [|done]. simpl. split; [done|].
    apply set_members_elem. by eapply list_elem_of_lookup_2.
  - pose proof (set_next_spec (default [] (sets w !! s)) i) as Hn.
    destruct (set_next _ i) as [[j l]|]; [|done].
    destruct Hn as (_ & Hj & _). eexists [_]. simpl. split_and!; [done|lia|].
    constructor; [|done]. simpl. simpl in Hf. destruct Hf as (_ & Hv & Hid & Hk).
    split_and!; try done; [by eapply Hmember|by left].
  - destruct (js_truthy (executionId v)) eqn:Ht; [|done].
    destruct (executionId v) as [id|] eqn:Hid; [|done].
    destruct (executionListeners (store w) !! id) as [s|] eqn:Hs; [|done].
    pose proof (set_next_spec (default [] (sets w !! s)) 0) as Hn.
    destruct (set_next _ 0) as [[j l]|]; [|done].
    destruct Hn as (_ & Hj & _). eexists [_]. simpl. split_and!; [done|lia|].
    constructor; [|done]. simpl. rewrite Hid.
    split_and!; [done|by apply js_truthy_Some| |by left].
    eapply (Hmember s); [|done]. intros k' Hk'. by apply (wf_keys _ Hw k' id s).
Qed.

Lemma call_ok_transfer (w w' : World) (frames frames' : list Frame) (c : Call) :
  sets w' = sets w → store w' = store w → handed w' = handed w →
  in_delivery frames' = in_delivery frames →
  call_ok w frames c → call_ok w' frames' c.
Proof.
  intros Hs Hst Hh Hd. destruct c as [l r|k l v]; unfold call_ok, subscribers, listeners_of.
  - by rewrite Hst, Hh.
  - by rewrite Hs, Hst, Hd.
Qed.

Lemma step_calls_spec (w : World) (o : Op) :
  wf w →
  ∃ cs, calls (step w o) = calls w ++ cs
        ∧ (length cs ≤ 1)%nat
        ∧ Forall (call_ok (step w o) (frames_of w o)) cs.
Proof.
  intros Hw.
  assert (Hnone : ∀ w', calls w' = calls w →
            ∃ cs, calls w' = calls w ++ cs ∧ (length cs ≤ 1)%nat
                  ∧ Forall (call_ok w' (frames_of w o)) cs).
  { intros w' ->. exists []. rewrite app_nil_r. split_and!; [done|simpl; lia|constructor]. }
  assert (Hnotify : ∀ frames w1,
            wf (set_stack frames w1) →
            ∃ cs, calls (notifyListeners frames w1) = calls w1 ++ cs
                  ∧ (length cs ≤ 1)%nat
                  ∧ Forall (call_ok (notifyListeners frames w1) frames) cs).
  { intros frames w1 Hw1. unfold notifyListeners.
    rewrite getViolations_eq, hand_out_eq.
    match goal with |- context [resume ?fs ?w'] =>
      destruct (resume_calls fs w') as (cs & Hc & Hl & Hall);
      [|destruct (resume_same fs w') as (Hh & Hs & Hst & Hha)] end.
    - pose proof (notifyListeners_wf frames w1 Hw1) as Hw2.
      pose proof (hand_out_wf (stored w1) _ Hw1) as Hw3.
      rewrite hand_out_eq in Hw3. simpl in Hw3.
      destruct Hw3 as [H1 H2 H3 H4 H5 H6 H7 H8]. split; try done.
      simpl in *. constructor; [|done]. simpl. apply elem_of_app. right. by left.
    - exists cs. split_and!; try done.
      eapply Forall_impl; [exact Hall|]. intros c.
      by apply call_ok_transfer. }
  destruct o as [v| |l|l|id l|id l|limit|id| | |r xs]; cbn [step frames_of].
  - unfold addViolation.
    destruct (record_violation_rest v w) as (_ & _ & _ & _ & Hc & _ & Hst).
    rewrite Hst, <- Hc. apply Hnotify.
    pose proof (record_violation_wf v w Hw) as [H1 H2 H3 H4 H5 H6 H7 H8].
    split; try done. simpl. rewrite <- Hst. by constructor.
  - unfold clear. simpl.
    match goal with |- context [notifyListeners ?fs ?w'] =>
      destruct (Hnotify fs w') as (cs & Hc & Hl & Hall) end.
    + pose proof (clear_wf w Hw) as _.
      destruct Hw as [H1 H2 H3 H4 H5 H6 H7 H8]. split; simpl; try done.
      * rewrite length_app. simpl. lia.
      * intros r Hr. destruct (H2 r Hr). rewrite length_app. simpl. lia.
    + exists cs. done.
  - exists [BroadcastCall l (length (heap w))]. split_and!; [done|simpl; lia|].
    constructor; [|done]. unfold call_ok, subscribers. simpl. split.
    + apply elem_of_app. right. by left.
    + apply set_add_members_elem. by right.
  - by apply Hnone.
  - apply Hnone. rewrite subscribeToExecution_eq. by destruct (_ !! id).
  - apply Hnone. rewrite unsubscribeExecution_eq. destruct (_ !! id); [|done].
    cbv zeta. by destruct (_ =? _)%nat.
  - apply Hnone. by destruct limit.
  - by apply Hnone.
  - unfold listener_returns.
    destruct (stack w) as [|[l|arr i|s id v i|v] rest] eqn:Hst;
      try (rewrite <- Hst; by apply Hnone).
    destruct (resume_calls rest w) as (cs & Hc & Hl & Hall).
    { apply (wf_tail (Running l)). by rewrite <- Hst, set_stack_stack. }
    destruct (resume_same rest w) as (Hh & Hs & Hsto & Hha).
    exists cs. split_and!; try done.
    eapply Forall_impl; [exact Hall|]. intros c Hc'.
    by apply (call_ok_transfer w _ rest).
  - unfold listener_throws.
    destruct (stack w) as [|[l|arr i|s id v i|v] rest] eqn:Hst;
      rewrite <- Hst; by apply Hnone.
  - apply Hnone. unfold write. by case_decide.
Qed.

Lemma step_calls (w : World) (o : Op) :
  wf w → calls (step w o) = calls w ++ new_calls w (step w o).
Proof.
  intros Hw. destruct (step_calls_spec w o Hw) as (cs & Hc & _).
  by rewrite (new_calls_app _ _ _ Hc).
Qed.

Lemma run_calls (ops : list Op) (w : World) :
  wf w → calls (run ops w) = calls w ++ new_calls w (run ops w).
Proof.
  revert w. induction ops as [|o ops IH]; intros w Hw.
  - unfold new_calls. simpl. by rewrite drop_all, app_nil_r.
  - simpl. pose proof (IH (step w o) (step_wf w o Hw)) as H. rewrite H.
    rewrite (step_calls w o Hw) at 1. rewrite <- app_assoc.
    f_equal. symmetry. apply new_calls_app.
    rewrite H at 1. rewrite (step_calls w o Hw) at 1. by rewrite <- app_assoc.
Qed.


Lemma new_calls_run_app (ops1 ops2 : list Op) (w : World) :
  wf w →
  new_calls w (run (ops1 ++ ops2) w)
  = new_calls w (run ops1 w) ++ new_calls (run ops1 w) (run ops2 (run ops1 w)).
Proof.
  intros Hw. apply new_calls_app. rewrite run_app.
  rewrite (run_calls ops2) by (by apply run_wf).
  rewrite (run_calls ops1 w Hw) at 1. by rewrite <- app_assoc.
Qed.

Lemma step_new_calls (w : World) (o : Op) :
  wf w → Forall (call_ok (step w o) (frames_of w o)) (new_calls w (step w o)).
Proof.
  intros Hw. destruct (step_calls_spec w o Hw) as (cs & Hc & _ & Hall).
  by rewrite (new_calls_app _ _ _ Hc).
Qed.

(** *** Copies and limits (C9) *)

(** The array [getViolations] returns is a new one: it was not allocated
    before the call, it is not the array of the store, and whatever its
    holder writes to it, the store holds what it held. *)
Lemma getViolations_fresh_copy (limit : option Z) (w : World) :
  wf w →
  let res := getViolations limit w in
  res.1 = length (heap w)
  ∧ res.1 ≠ violations (store res.2)
  ∧ stored res.2 = stored w
  ∧ (limit = None → array_get (heap res.2) res.1 = stored w)
  ∧ (∀ xs, stored (mutate res.1 xs res.2) = stored w).
Proof.
  intros Hw res. unfold res. rewrite getViolations_eq, hand_out_eq. simpl.
  pose proof (wf_alloc _ Hw) as Ha.
  split_and!.
  - done.
  - lia.
  - unfold stored. simpl. by apply array_get_alloc_old.
  - intros ->. apply array_get_alloc_new.
  - intros xs. unfold stored, mutate. simpl.
    rewrite array_get_mutate_ne by lia. by apply array_get_alloc_old.
Qed.

(** The array a broadcast listener is called with is not the array of the
    store either. *)
Lemma broadcast_snapshot_separate (w : World) (o : Op) l r :
  wf w → BroadcastCall l r ∈ new_calls w (step w o) →
  r ≠ violations (store (step w o))
  ∧ ∀ xs, stored (mutate r xs (step w o)) = stored (step w o).
Proof.
  intros Hw Hin. pose proof (step_new_calls w o Hw) as Hall.
  rewrite Forall_forall in Hall. destruct (Hall _ Hin) as [Hr _].
  destruct (wf_handed _ (step_wf w o Hw) r Hr) as [_ Hne].
  split; [done|]. intros xs. unfold stored, mutate. simpl.
  apply array_get_mutate_ne. congruence.
Qed.

(** For a limit of at least one, [getViolations] returns the most recent
    [min limit count] violations, in the order of their insertion. *)
Lemma getViolations_positive_limit (n : Z) (w : World) :
  0 < n →
  let res := getViolations (Some n) w in
  array_get (heap res.2) res.1 = lastn (Z.to_nat n) (stored w)
  ∧ length (array_get (heap res.2) res.1) = (Z.to_nat n `min` getCount w)%nat.
Proof.
  intros Hn res. unfold res. rewrite getViolations_eq, hand_out_eq. simpl.
  rewrite array_get_alloc_new.
  replace (- n) with (- Z.of_nat (Z.to_nat n)) by lia.
  rewrite js_slice_neg by lia. split; [done|].
  rewrite lastn_length. unfold getCount. lia.
Qed.

(** For the limit 0 it returns all stored violations. *)
Lemma getViolations_zero_limit (w : World) :
  let res := getViolations (Some 0) w in
  array_get (heap res.2) res.1 = stored w.
Proof.
  intros res. unfold res. rewrite getViolations_eq, hand_out_eq. simpl.
  by rewrite array_get_alloc_new, js_slice_zero.
Qed.

(** C9, at the limit 0.  [slice(-0)] is [slice(0)]: on a store holding
    two violations, [getViolations(0)] returns both of them, where the
    most recent [min 0 2 = 0] violations would be none. *)
Theorem getViolations_zero_returns_all :
  let v1 := mkEvent "deny file-read" None None None 1 in
  let v2 := mkEvent "deny network" None None None 2 in
  let w := run [OpAddViolation v1; OpAddViolation v2] new_world in
  let res := getViolations (Some 0) w in
  getCount w = 2%nat
  ∧ array_get (heap res.2) res.1 = [v1; v2]
  ∧ array_get (heap res.2) res.1 ≠ lastn (Z.to_nat 0 `min` getCount w) (stored w).
Proof. vm_compute. split_and!; [done|done|discriminate]. Qed.

(** *** Who has control *)

Lemma unwind_idemp (frames : list Frame) : unwind (unwind frames) = unwind frames.
Proof. induction frames as [|[] frames IH]; done. Qed.

Lemma resume_controlled (frames : list Frame) (w : World) :
  controlled (resume frames w).
Proof.
  revert w. induction frames as [|f frames IH]; intros w; [done|].
  destruct f; simpl; repeat case_match; try done; apply IH.
Qed.

Lemma resume_of_controlled (frames : list Frame) (w : World) :
  unwind frames = frames → resume frames w = set_stack frames w.
Proof.
  intros H. destruct frames as [|[] frames]; try done; exfalso;
    pose proof (unwind_sublist frames) as Hs; apply suffix_length in Hs;
    simpl in H; rewrite H in Hs; simpl in Hs; lia.
Qed.

Lemma step_controlled (w : World) (o : Op) : controlled w → controlled (step w o).
Proof.
  intros Hc. destruct o as [v| |l|l|id l|id l|limit|id| | |r xs]; cbn [step].
  - apply resume_controlled.
  - apply resume_controlled.
  - done.
  - done.
  - rewrite subscribeToExecution_eq. by destruct (_ !! id).
  - rewrite unsubscribeExecution_eq. destruct (_ !! id); [|done].
    cbv zeta. by destruct (_ =? _)%nat.
  - by destruct limit.
  - done.
  - unfold listener_returns. destruct (stack w) as [|[] rest] eqn:E; try done.
    apply resume_controlled.
  - unfold listener_throws. destruct (stack w) as [|[] rest] eqn:E; try done.
    apply unwind_idemp.
  - unfold write. by case_decide.
Qed.

Lemma run_controlled (ops : list Op) (w : World) : controlled w → controlled (run ops w).
Proof.
  revert w. induction ops as [|o ops IH]; intros w Hc; [done|].
  simpl. by apply IH, step_controlled.
Qed.

(** *** Who is registered *)

Lemma step_subscribers (w : World) (o : Op) :
  subscribers (step w o)
  = match o with
    | OpSubscribe l =>
        if decide (l ∈ subscribers w) then subscribers w else subscribers w ++ [l]
    | OpUnsubscribe l => filter (λ l', l' ≠ l) (subscribers w)
    | _ => subscribers w
    end.
Proof.
  unfold subscribers.
  destruct o as [v| |l|l|id l|id l|limit|id| | |r xs]; cbn [step].
  - unfold addViolation.
    destruct (notifyListeners_same
                (AfterNotifyListeners v :: stack (record_violation v w))
                (record_violation v w)) as (_ & _ & -> & _).
    by destruct (record_violation_rest v w) as (_ & -> & _).
  - by destruct (clear_same w) as (_ & _ & -> & _).
  - simpl. apply set_members_add.
  - simpl. apply set_members_delete.
  - rewrite subscribeToExecution_eq. by destruct (_ !! id).
  - rewrite unsubscribeExecution_eq. destruct (_ !! id); [|done].
    cbv zeta. by destruct (_ =? _)%nat.
  - by destruct limit.
  - done.
  - unfold listener_returns. destruct (stack w) as [|[] rest]; try done.
    by destruct (resume_same rest w) as (_ & _ & -> & _).
  - unfold listener_throws. by destruct (stack w) as [|[] rest].
  - unfold write. by case_decide.
Qed.

Lemma run_subscribers_keep cb (ops : list Op) (w : World) :
  OpUnsubscribe cb ∉ ops → cb ∈ subscribers w → cb ∈ subscribers (run ops w).
Proof.
  revert w. induction ops as [|o ops IH]; intros w Hno Hin; [done|].
  apply not_elem_of_cons in Hno as [Ho Hno].
  simpl. apply IH; [done|]. rewrite step_subscribers.
  destruct o as [v| |l|l|id l|id l|limit|id| | |r xs]; try done.
  - case_decide; [done|]. apply elem_of_app. by left.
  - apply list_elem_of_filter. split; [|done]. congruence.
Qed.

(** *** A notification under way *)

Lemma add_calls_nil (w : World) : add_calls [] w = w.
Proof. unfold add_calls. rewrite app_nil_r. by destruct w. Qed.

Lemma run_returns_S (n : nat) (w : World) :
  run (replicate (S n) ListenerReturns) w
  = run (replicate n ListenerReturns) (listener_returns w).
Proof. done. Qed.

(** The [forEach] of [notifyListeners]: when the members it has not
    passed are [pending] and the first [k] of them return as they are
    called, the member [k] is called next, all with the one array. *)
Lemma notify_progress (arr : loc) (rest : list Frame) (k : nat) :
  ∀ (i : nat) (w : World) (l : listener),
    set_members (drop i (listeners (store w))) !! k = Some l →
    let pending := set_members (drop i (listeners (store w))) in
    let w' := run (replicate k ListenerReturns)
                (resume (NotifyListeners arr i :: rest) w) in
    ∃ j, stack w' = Running l :: NotifyListeners arr (S j) :: rest
         ∧ set_members (drop (S j) (listeners (store w))) = drop (S k) pending
         ∧ calls w' = calls w ++ map (λ l, BroadcastCall l arr) (take (S k) pending)
         ∧ heap w' = heap w ∧ sets w' = sets w ∧ store w' = store w
         ∧ handed w' = handed w.
Proof.
  induction k as [|k IH]; intros i w l Hk pending w'; unfold w', pending in *;
    clear w' pending; cbn [resume];
    pose proof (set_next_spec (listeners (store w)) i) as Hn;
    destruct (set_next (listeners (store w)) i) as [[j x]|];
    try (rewrite Hn in Hk; done); destruct Hn as (_ & _ & Hm);
    rewrite Hm in Hk |- *.
  - injection Hk as ->. exists j. simpl. by rewrite ?take_0, ?drop_0.
  - simpl in Hk. rewrite run_returns_S. unfold listener_returns. cbn [stack invoke].
    set (w1 := invoke (BroadcastCall x arr) x (NotifyListeners arr (S j) :: rest) w).
    destruct (IH (S j) w1 l Hk) as (j' & H1 & H2 & H3 & H4 & H5 & H6 & H7).
    exists j'. split_and!; try done.
    rewrite H3. simpl. by rewrite <- app_assoc.
Qed.

(** When all of them return, [notifyListeners] is over, each of them
    called once. *)
Lemma notify_complete (arr : loc) (rest : list Frame) (n : nat) :
  ∀ (i : nat) (w : World),
    length (set_members (drop i (listeners (store w)))) = n →
    run (replicate n ListenerReturns) (resume (NotifyListeners arr i :: rest) w)
    = resume rest (add_calls (map (λ l, BroadcastCall l arr)
                                  (set_members (drop i (listeners (store w))))) w).
Proof.
  induction n as [|n IH]; intros i w Hlen; cbn [resume];
    pose proof (set_next_spec (listeners (store w)) i) as Hn;
    destruct (set_next (listeners (store w)) i) as [[j x]|].
  - destruct Hn as (_ & _ & Hm). by rewrite Hm in Hlen.
  - rewrite Hn. simpl. by rewrite add_calls_nil.
  - destruct Hn as (_ & _ & Hm). rewrite Hm in Hlen |- *. simpl in Hlen.
    rewrite run_returns_S. unfold listener_returns. cbn [stack invoke].
    set (w1 := invoke (BroadcastCall x arr) x (NotifyListeners arr (S j) :: rest) w).
    rewrite (IH (S j) w1) by (simpl; lia).
    rewrite <- (resume_set_stack rest (stack w)). f_equal.
    unfold add_calls, set_stack. simpl. by rewrite <- app_assoc.
  - by rewrite Hn in Hlen.
Qed.





Lemma snapshots_to_app cb (cs1 cs2 : list Call) :
  snapshots_to cb (cs1 ++ cs2) = snapshots_to cb cs1 ++ snapshots_to cb cs2.
Proof. apply omap_app. Qed.

Lemma snapshots_to_broadcast cb r (ls : list listener) :
  NoDup ls → cb ∈ ls →
  snapshots_to cb (map (λ l, BroadcastCall l r) ls) = [r].
Proof.
  induction 1 as [|l ls Hl Hnd IH]; intros Hin; [by apply not_elem_of_nil in Hin|].
  simpl. destruct (decide (l = cb)) as [->|Hne].
  - f_equal. clear IH Hin Hnd. induction ls as [|l' ls IH]; [done|].
    simpl. apply not_elem_of_cons in Hl as [? ?].
    rewrite decide_False by done. by apply IH.
  - apply IH. apply elem_of_cons in Hin as [->|]; done.
Qed.

Lemma snapshots_to_broadcast_absent cb r (ls : list listener) :
  cb ∉ ls → snapshots_to cb (map (λ l, BroadcastCall l r) ls) = [].
Proof.
  induction ls as [|l ls IH]; [done|].
  intros [? ?]%not_elem_of_cons. simpl.
  rewrite decide_False by done. by apply IH.
Qed.

Lemma snapshots_to_execution cb id v (ls : list listener) :
  snapshots_to cb (map (λ l, ExecutionCall id l v) ls) = [].
Proof. by induction ls. Qed.

Lemma take_S_lookup_elem {A} (ls : list A) (k : nat) (x : A) :
  ls !! k = Some x → x ∈ take (S k) ls.
Proof.
  intros H. apply list_elem_of_lookup. exists k.
  rewrite lookup_take_lt by lia. done.
Qed.

Lemma take_lookup_absent {A} (ls : list A) (j k : nat) (x : A) :
  NoDup ls → ls !! k = Some x → (j ≤ k)%nat → x ∉ take j ls.
Proof.
  intros Hnd Hk Hj [i Hi]%list_elem_of_lookup.
  assert (i < j)%nat as Hlt.
  { apply lookup_lt_Some in Hi. rewrite length_take in Hi. lia. }
  rewrite lookup_take_lt in Hi by done.
  pose proof (NoDup_lookup _ _ _ _ Hnd Hi Hk). lia.
Qed.

Lemma notifyListeners_eq (frames : list Frame) (w : World) :
  notifyListeners frames w
  = resume (NotifyListeners (length (heap w)) 0 :: frames) (hand_out (stored w) w).2.
Proof. done. Qed.

Lemma new_calls_refl (w w' : World) : calls w' = calls w → new_calls w w' = [].
Proof. intros H. apply new_calls_app. by rewrite app_nil_r. Qed.

(** A notification up to the call of one of the subscribers: the
    subscribers before it have returned as they were called. *)
Lemma notifyListeners_progress (rest : list Frame) (w : World) (k : nat) cb :
  wf w → subscribers w !! k = Some cb →
  let w' := run (replicate k ListenerReturns) (notifyListeners rest w) in
  let r := length (heap w) in
  new_calls w w' = map (λ l, BroadcastCall l r) (take (S k) (subscribers w))
  ∧ snapshots_to cb (new_calls w w') = [r]
  ∧ heap w' = heap w ++ [stored w] ∧ store w' = store w ∧ sets w' = sets w
  ∧ ∃ j, stack w' = Running cb :: NotifyListeners r (S j) :: rest.
Proof.
  intros Hw Hk w' r. unfold w'. rewrite notifyListeners_eq.
  set (wh := (hand_out (stored w) w).2).
  assert (Hk' : set_members (drop 0 (listeners (store wh))) !! k = Some cb) by done.
  destruct (notify_progress r rest k 0 wh cb Hk')
    as (j & H1 & _ & H3 & H4 & H5 & H6 & _).
  rewrite drop_0 in H3.
  set (w1 := run (replicate k ListenerReturns)
                (resume (NotifyListeners r 0 :: rest) wh)) in *.
  assert (Hc : new_calls w w1
               = map (λ l, BroadcastCall l r) (take (S k) (subscribers w))).
  { by apply new_calls_app. }
  split_and!; try done.
  - change (snapshots_to cb (new_calls w w1) = [r]).
    rewrite Hc. apply snapshots_to_broadcast.
    + eapply sublist_NoDup; [apply Hw|apply sublist_take].
    + by apply take_S_lookup_elem.
  - exists j. exact H1.
Qed.

(** A subscriber throws: the notification is over, and the exception
    leaves the method. *)
Lemma notifyListeners_throw (rest : list Frame) (w : World) (j k : nat) cb :
  wf w → subscribers w !! k = Some cb → (j < k)%nat →
  let w' := run (replicate j ListenerReturns ++ [ListenerThrows])
              (notifyListeners rest w) in
  snapshots_to cb (new_calls w w') = []
  ∧ stack w' = unwind rest
  ∧ heap w' = heap w ++ [stored w] ∧ store w' = store w ∧ sets w' = sets w.
Proof.
  intros Hw Hk Hj w'. unfold w'. rewrite run_snoc.
  destruct (lookup_lt_is_Some_2 (subscribers w) j) as [l Hl].
  { apply lookup_lt_Some in Hk. lia. }
  destruct (notifyListeners_progress rest w j l Hw Hl)
    as (Hc & _ & Hh & Hst & Hse & j' & Hstack).
  set (w1 := run (replicate j ListenerReturns) (notifyListeners rest w)) in *.
  cbn [step]. unfold listener_throws. rewrite Hstack. simpl.
  split_and!; try done.
  change (new_calls w (set_stack (unwind rest) w1)) with (new_calls w w1).
  rewrite Hc. apply snapshots_to_broadcast_absent.
  by apply (take_lookup_absent _ _ k); [apply Hw| |lia].
Qed.

(** All subscribers return: each has been called once. *)
Lemma notifyListeners_complete (rest : list Frame) (w : World) :
  run (replicate (length (subscribers w)) ListenerReturns) (notifyListeners rest w)
  = resume rest (add_calls (map (λ l, BroadcastCall l (length (heap w)))
                                (subscribers w))
                   (hand_out (stored w) w).2).
Proof.
  rewrite notifyListeners_eq.
  set (wh := (hand_out (stored w) w).2).
  rewrite (notify_complete (length (heap w)) rest (length (subscribers w)) 0 wh)
    by done.
  by rewrite drop_0.
Qed.

Lemma resume_after_snapshots (v : SandboxViolationEvent) (rest : list Frame)
    (w : World) cb :
  unwind rest = rest →
  snapshots_to cb (new_calls w (resume (AfterNotifyListeners v :: rest) w)) = [].
Proof.
  intros Hrest. cbn [resume]. rewrite (resume_of_controlled rest w Hrest).
  repeat case_match; try (by rewrite new_calls_refl).
  match goal with
  | |- context [invoke ?c _ _ _] => by rewrite (new_calls_app w _ [c])
  end.
Qed.

Lemma addViolation_notify v (w : World) :
  addViolation v w
  = notifyListeners (AfterNotifyListeners v :: stack w) (record_violation v w).
Proof.
  unfold addViolation. by destruct (record_violation_rest v w) as (_ & _ & _ & _ & _ & _ & ->).
Qed.

Lemma clear_notify (w : World) :
  clear w
  = notifyListeners (stack w)
      {| heap := heap w ++ [[]]; sets := sets w;
         store := set_violations (length (heap w)) (store w);
         calls := calls w; handed := handed w; stack := stack w |}.
Proof. done. Qed.

Lemma clear_world_wf (w : World) :
  wf w →
  wf {| heap := heap w ++ [[]]; sets := sets w;
        store := set_violations (length (heap w)) (store w);
        calls := calls w; handed := handed w; stack := stack w |}.
Proof.
  intros [H1 H2 H3 H4 H5 H6 H7 H8]. split; simpl; try done.
  - rewrite length_app. simpl. lia.
  - intros r Hr. destruct (H2 r Hr). rewrite length_app. simpl. lia.
Qed.

Lemma unsubscribe_spec cb (w : World) :
  let w' := unsubscribe cb w in
  subscribers w' = filter (λ l, l ≠ cb) (subscribers w)
  ∧ (∀ l, l ∈ subscribers w' ↔ l ∈ subscribers w ∧ l ≠ cb)
  ∧ executionListeners (store w') = executionListeners (store w)
  ∧ sets w' = sets w
  ∧ violations (store w') = violations (store w)
  ∧ totalCount (store w') = totalCount (store w)
  ∧ heap w' = heap w ∧ calls w' = calls w ∧ stack w' = stack w.
Proof.
  intros w'. unfold w', subscribers. simpl. split_and!; try done.
  - apply set_members_delete.
  - intros l. apply set_delete_members_elem.
Qed.

(** *** Broadcast subscribers (C6) *)

(** A notification of the store [w], up to the call of the subscriber
    [cb]: the snapshot is one new array that holds all stored violations,
    and [cb] is called with it once. *)
Lemma notification_snapshot (rest : list Frame) (w : World) (k : nat) cb :
  wf w → subscribers w !! k = Some cb →
  let w' := run (replicate k ListenerReturns) (notifyListeners rest w) in
  ∃ r, new_calls w w' = map (λ l, BroadcastCall l r) (take (S k) (subscribers w))
       ∧ snapshots_to cb (new_calls w w') = [r]
       ∧ heap w' !! r = Some (stored w')
       ∧ r ≠ violations (store w')
       ∧ stored w' = stored w
       ∧ head (stack w') = Some (Running cb).
Proof.
  intros Hw Hk w'.
  destruct (notifyListeners_progress rest w k cb Hw Hk)
    as (Hc & Hs & Hh & Hst & _ & j & Hstack).
  fold w' in Hc, Hs, Hh, Hst, Hstack.
  assert (Hsame : stored w' = stored w).
  { unfold stored. rewrite Hh, Hst. apply array_get_alloc_old, Hw. }
  exists (length (heap w)). split_and!; try done.
  - rewrite Hsame, Hh. rewrite lookup_app_r by lia.
    by replace (length (heap w) - length (heap w))%nat with 0%nat by lia.
  - rewrite Hst. pose proof (wf_alloc _ Hw). lia.
  - by rewrite Hstack.
Qed.

Lemma new_calls_same (w1 w2 w' : World) :
  calls w1 = calls w2 → new_calls w1 w' = new_calls w2 w'.
Proof. unfold new_calls. by intros ->. Qed.

(** C6 (amended).  [subscribe(cb)] adds [cb] to the subscribers and calls
    it once, with a new array (not the array of the store) that holds all
    stored violations; [cb] stays a subscriber until its unsubscribe
    function is called.  Every [addViolation] and every [clear] after that
    calls the subscribers in the order of their registration with one new
    array that holds all violations stored after the change: when the
    subscribers registered before [cb] return, [cb] is called once with
    it; when one of them throws, the notification ends there, [cb] is not
    called and the exception leaves the method.  When all subscribers
    return, each has been called once.  The unsubscribe function removes
    [cb] from the subscribers and changes nothing else. *)
Theorem broadcast_subscriber_snapshots (ops0 ops : list Op) (cb : listener) :
  OpUnsubscribe cb ∉ ops →
  let w0 := run ops0 new_world in
  let w1 := (subscribe cb w0).2 in
  let w2 := run ops w1 in
  let returns n := replicate n ListenerReturns in
  let throws n := replicate n ListenerReturns ++ [ListenerThrows] in
  (∃ r, new_calls w0 w1 = [BroadcastCall cb r]
        ∧ heap w1 !! r = Some (stored w0)
        ∧ r ≠ violations (store w1)
        ∧ stored w1 = stored w0
        ∧ stack w1 = Running cb :: stack w0)
  ∧ cb ∈ subscribers w2
  ∧ (∀ k, subscribers w2 !! k = Some cb →
       (∀ v, let w3 := run (returns k) (addViolation v w2) in
             ∃ r, new_calls w2 w3
                  = map (λ l, BroadcastCall l r) (take (S k) (subscribers w2))
                  ∧ snapshots_to cb (new_calls w2 w3) = [r]
                  ∧ heap w3 !! r = Some (stored w3)
                  ∧ r ≠ violations (store w3)
                  ∧ stored w3 = lastn maxSize (stored w2 ++ [v])
                  ∧ head (stack w3) = Some (Running cb))
       ∧ (let w3 := run (returns k) (clear w2) in
          ∃ r, new_calls w2 w3
               = map (λ l, BroadcastCall l r) (take (S k) (subscribers w2))
               ∧ snapshots_to cb (new_calls w2 w3) = [r]
               ∧ heap w3 !! r = Some (stored w3)
               ∧ r ≠ violations (store w3)
               ∧ stored w3 = []
               ∧ head (stack w3) = Some (Running cb))
       ∧ (∀ j, (j < k)%nat →
            (∀ v, let w3 := run (throws j) (addViolation v w2) in
                  snapshots_to cb (new_calls w2 w3) = []
                  ∧ stack w3 = stack w2)
            ∧ (let w3 := run (throws j) (clear w2) in
               snapshots_to cb (new_calls w2 w3) = []
               ∧ stack w3 = stack w2)))
  ∧ (let w3 := run (returns (length (subscribers w2))) (clear w2) in
     ∃ r, new_calls w2 w3 = map (λ l, BroadcastCall l r) (subscribers w2)
          ∧ snapshots_to cb (new_calls w2 w3) = [r]
          ∧ stack w3 = stack w2)
  ∧ (∀ v, let w3 := run (returns (length (subscribers w2))) (addViolation v w2) in
          ∃ r, snapshots_to cb (new_calls w2 w3) = [r])
  ∧ (∀ w, let w' := unsubscribe cb w in
          subscribers w' = filter (λ l, l ≠ cb) (subscribers w)
          ∧ (∀ l, l ∈ subscribers w' ↔ l ∈ subscribers w ∧ l ≠ cb)
          ∧ executionListeners (store w') = executionListeners (store w)
          ∧ sets w' = sets w
          ∧ violations (store w') = violations (store w)
          ∧ totalCount (store w') = totalCount (store w)
          ∧ heap w' = heap w ∧ calls w' = calls w ∧ stack w' = stack w).
Proof.
  intros Hno w0 w1 w2 returns throws.
  assert (Hw0 : wf w0) by apply run_wf, new_world_wf.
  assert (Hw1 : wf w1) by by apply subscribe_wf.
  assert (Hw2 : wf w2) by by apply run_wf.
  assert (Hc2 : controlled w2).
  { apply run_controlled. unfold controlled, w1. by destruct (subscribe_same cb w0) as (_ & _ & _ & _ & _ & ->). }
  destruct (subscribe_same cb w0) as (Hh & _ & Hst & _ & Hc & Hstack).
  fold w1 in Hh, Hst, Hc, Hstack.
  assert (Hin : cb ∈ subscribers w2).
  { apply run_subscribers_keep; [done|]. unfold subscribers. rewrite Hst. simpl.
    apply set_add_members_elem. by right. }
  assert (Hadd : ∀ v, wf (record_violation v w2)
                      ∧ subscribers (record_violation v w2) = subscribers w2
                      ∧ calls (record_violation v w2) = calls w2
                      ∧ stack (record_violation v w2) = stack w2
                      ∧ stored (record_violation v w2) = lastn maxSize (stored w2 ++ [v])).
  { intros v. destruct (record_violation_rest v w2) as (_ & Hl & _ & _ & Hca & _ & Hsta).
    split_and!; try done.
    - by apply record_violation_wf.
    - unfold subscribers. by rewrite Hl.
    - by apply record_violation_stored. }
  set (wc := {| heap := heap w2 ++ [[]]; sets := sets w2;
                store := set_violations (length (heap w2)) (store w2);
                calls := calls w2; handed := handed w2; stack := stack w2 |}).
  assert (Hwc : wf wc) by by apply clear_world_wf.
  assert (Hsc : stored wc = []).
  { unfold stored, wc. simpl. apply array_get_alloc_new. }
  split_and!.
  - exists (length (heap w0)). split_and!.
    + by apply new_calls_app.
    + rewrite Hh. rewrite lookup_app_r by lia.
      by replace (length (heap w0) - length (heap w0))%nat with 0%nat by lia.
    + rewrite Hst. simpl. pose proof (wf_alloc _ Hw0). lia.
    + unfold stored. rewrite Hh, Hst. simpl. apply array_get_alloc_old, Hw0.
    + done.
  - done.
  - intros k Hk. split_and!.
    + intros v w3. destruct (Hadd v) as (Hwr & Hsr & Hcr & Hstr & Hstor).
      unfold w3. rewrite addViolation_notify.
      rewrite <- Hsr in Hk.
      destruct (notification_snapshot (AfterNotifyListeners v :: stack w2)
                  (record_violation v w2) k cb Hwr Hk)
        as (r & H1 & H2 & H3 & Hne & H4 & H5).
      exists r. rewrite <- (new_calls_same _ _ _ Hcr), <- Hsr, <- Hstor.
      by rewrite <- H4.
    + intros w3. unfold w3. rewrite clear_notify. fold wc.
      destruct (notification_snapshot (stack w2) wc k cb Hwc Hk)
        as (r & H1 & H2 & H3 & Hne & H4 & H5).
      exists r. rewrite <- Hsc, <- H4. done.
    + intros j Hj. split.
      * intros v w3. destruct (Hadd v) as (Hwr & Hsr & Hcr & Hstr & Hstor).
        unfold w3. rewrite addViolation_notify. rewrite <- Hsr in Hk.
        destruct (notifyListeners_throw (AfterNotifyListeners v :: stack w2)
                    (record_violation v w2) j k cb Hwr Hk Hj) as (H1 & H2 & _).
        rewrite <- (new_calls_same _ _ _ Hcr). split; [done|].
        unfold throws. by rewrite H2.
      * intros w3. unfold w3. rewrite clear_notify. fold wc.
        destruct (notifyListeners_throw (stack w2) wc j k cb Hwc Hk Hj)
          as (H1 & H2 & _).
        split; [done|]. unfold throws. by rewrite H2.
  - intros w3. unfold w3. rewrite clear_notify. fold wc.
    change (subscribers w2) with (subscribers wc).
    unfold returns. rewrite notifyListeners_complete.
    rewrite (resume_of_controlled (stack w2)) by done.
    exists (length (heap wc)). split_and!.
    + by apply new_calls_app; simpl.
    + rewrite (new_calls_app w2 _ (map (λ l, BroadcastCall l (length (heap wc)))
                                       (subscribers wc))) by done.
      apply snapshots_to_broadcast; [apply Hwc|done].
    + done.
  - intros v w3. destruct (Hadd v) as (Hwr & Hsr & Hcr & Hstr & Hstor).
    unfold w3, returns. rewrite addViolation_notify, <- Hsr.
    rewrite notifyListeners_complete.
    set (r := length (heap (record_violation v w2))).
    set (wa := add_calls _ _).
    exists r.
    assert (Hca : calls wa = calls w2 ++ map (λ l, BroadcastCall l r)
                                          (subscribers (record_violation v w2))).
    { unfold wa. simpl. by rewrite Hcr. }
    assert (Hwa : wf (set_stack (AfterNotifyListeners v :: stack w2) wa)).
    { pose proof (hand_out_wf (stored (record_violation v w2)) _ Hwr) as Hh'.
      apply (wf_transfer (hand_out (stored (record_violation v w2))
                            (record_violation v w2)).2); try done.
      simpl. constructor; [done|]. rewrite <- Hstr.
      eapply Forall_impl; [exact (wf_stack _ Hh')|].
      intros f. by apply frame_ok_transfer. }
    destruct (resume_calls _ _ Hwa) as (cs & Hcs & _).
    pose proof (resume_after_snapshots v (stack w2) wa cb Hc2) as Hsn.
    rewrite (new_calls_app wa _ cs Hcs) in Hsn.
    rewrite (new_calls_app w2 _ (map (λ l, BroadcastCall l r)
                                     (subscribers (record_violation v w2)) ++ cs)).
    + rewrite snapshots_to_app, Hsn, app_nil_r.
      apply snapshots_to_broadcast; [apply Hwr|by rewrite Hsr].
    + by rewrite Hcs, Hca, <- app_assoc.
  - intros w. apply unsubscribe_spec.
Qed.

(** C6 as stated fails where a subscriber throws.  Two subscribers are
    registered; the first throws when [addViolation] notifies it: the
    method ends there with the violation stored, and the second, still
    subscribed, has not been called. *)
Lemma broadcast_subscriber_throw_counterexample :
  let v := example_event 1 None in
  let w := run [OpSubscribe 1%nat; ListenerReturns;
                OpSubscribe 2%nat; ListenerReturns] new_world in
  let w' := run [OpAddViolation v; ListenerThrows] w in
  subscribers w = [1%nat; 2%nat] ∧ stack w = []
  ∧ stored w' = [v] ∧ stack w' = [] ∧ subscribers w' = [1%nat; 2%nat]
  ∧ (∃ r, new_calls w w' = [BroadcastCall 1%nat r])
  ∧ snapshots_to 2%nat (new_calls w w') = [].
Proof. vm_compute. split_and!; try done. by eexists. Qed.

(** The second of two subscribers is called by [addViolation] when the
    first has returned. *)
Lemma broadcast_subscriber_snapshots_witness :
  let v := example_event 1 None in
  let ops := [ListenerReturns; OpAddViolation v; ListenerReturns] in
  let w1 := (subscribe 2%nat (run [OpSubscribe 1%nat; ListenerReturns] new_world)).2 in
  let w2 := run ops w1 in
  2%nat ∈ subscribers w2.
Proof.
  intros v ops w1 w2.
  assert (Hno : OpUnsubscribe 2%nat ∉ ops).
  { unfold ops. rewrite !not_elem_of_cons. split_and!; try discriminate.
    apply not_elem_of_nil. }
  exact (proj1 (proj2
           (broadcast_subscriber_snapshots [OpSubscribe 1%nat; ListenerReturns] ops
              2%nat Hno))).
Defined.

(** *** Who is registered under an execution id *)

Lemma subscribeToExecution_listeners_of id l (w : World) (k : string) :
  wf w →
  listeners_of (subscribeToExecution id l w).2 k
  = if decide (k = id)
    then (if decide (l ∈ listeners_of w id) then listeners_of w id
          else listeners_of w id ++ [l])
    else listeners_of w k.
Proof.
  intros Hw. rewrite subscribeToExecution_eq. unfold listeners_of.
  destruct (executionListeners (store w) !! id) as [s|] eqn:E.
  - simpl. destruct (wf_execution _ Hw id s E) as (entries & Hs & _).
    destruct (decide (k = id)) as [->|Hne].
    + rewrite E, list_lookup_alter_eq, Hs. simpl. apply set_members_add.
    + destruct (executionListeners (store w) !! k) as [s'|] eqn:E'; [|done].
      rewrite list_lookup_alter_ne; [done|].
      intros Heq. apply Hne. apply (wf_keys _ Hw k id s'); [done|by rewrite <- Heq].
  - simpl. destruct (decide (k = id)) as [->|Hne].
    + rewrite lookup_insert_eq. rewrite lookup_app_r by lia.
      replace (length (sets w) - length (sets w))%nat with 0%nat by lia.
      done.
    + rewrite lookup_insert_ne by done.
      destruct (executionListeners (store w) !! k) as [s'|] eqn:E'; [|done].
      destruct (wf_execution _ Hw k s' E') as (entries & Hs & _).
      rewrite lookup_app_l; [done|]. by eapply lookup_lt_Some.
Qed.

Lemma unsubscribeExecution_listeners_of id l (w : World) :
  wf w →
  let w' := unsubscribeExecution id l w in
  listeners_of w' id = filter (λ y, y ≠ l) (listeners_of w id)
  ∧ (executionListeners (store w') !! id = None
     ↔ filter (λ y, y ≠ l) (listeners_of w id) = [])
  ∧ (∀ k, k ≠ id → listeners_of w' k = listeners_of w k
                   ∧ executionListeners (store w') !! k
                     = executionListeners (store w) !! k).
Proof.
  intros Hw w'. unfold w'. rewrite unsubscribeExecution_eq. unfold listeners_of.
  destruct (executionListeners (store w) !! id) as [s|] eqn:E.
  - destruct (wf_execution _ Hw id s E) as (entries & Hs & _).
    cbv zeta. rewrite list_lookup_alter_eq, Hs. simpl.
    unfold set_size. rewrite set_members_delete.
    assert (Hother : ∀ k s', k ≠ id → executionListeners (store w) !! k = Some s' →
              alter (set_delete l) s (sets w) !! s' = sets w !! s').
    { intros k s' Hne E'. apply list_lookup_alter_ne.
      intros Heq. apply Hne. apply (wf_keys _ Hw k id s'); [done|by rewrite <- Heq]. }
    destruct (Nat.eqb_spec (length (filter (λ y, y ≠ l) (set_members entries))) 0)
      as [H0|H0]; simpl.
    + apply nil_length_inv in H0. rewrite lookup_delete_eq, H0. split_and!; try done.
      intros k Hne. rewrite lookup_delete_ne by done. split; [|done].
      destruct (executionListeners (store w) !! k) as [s'|] eqn:E'; [|done].
      by rewrite (Hother k s').
    + rewrite E, list_lookup_alter_eq, Hs. simpl. rewrite set_members_delete.
      split_and!; try done.
      * split; [done|]. intros Hnil. rewrite Hnil in H0. done.
      * intros k Hne. split; [|done].
        destruct (executionListeners (store w) !! k) as [s'|] eqn:E'; [|done].
        by rewrite (Hother k s').
  - rewrite E. split_and!; try done.
Qed.

(** The other steps leave the registrations under execution ids as they
    are. *)
Lemma step_execution_same (w : World) (o : Op) :
  match o with
  | OpSubscribeToExecution _ _ | OpUnsubscribeExecution _ _ => True
  | _ => sets (step w o) = sets w
         ∧ executionListeners (store (step w o)) = executionListeners (store w)
  end.
Proof.
  destruct o as [v| |l|l|id l|id l|limit|id| | |r xs]; cbn [step]; try done.
  - unfold addViolation.
    destruct (notifyListeners_same
                (AfterNotifyListeners v :: stack (record_violation v w))
                (record_violation v w)) as (_ & -> & -> & _).
    by destruct (record_violation_rest v w) as (_ & _ & -> & -> & _).
  - by destruct (clear_same w) as (_ & -> & -> & _).
  - by destruct limit.
  - unfold listener_returns. destruct (stack w) as [|[] rest]; try done.
    by destruct (resume_same rest w) as (_ & -> & -> & _).
  - unfold listener_throws. by destruct (stack w) as [|[] rest].
  - unfold write. by case_decide.
Qed.

Lemma step_listeners_of (w : World) (o : Op) (k : string) :
  wf w →
  listeners_of (step w o) k
  = match o with
    | OpSubscribeToExecution id l =>
        if decide (k = id)
        then (if decide (l ∈ listeners_of w id) then listeners_of w id
              else listeners_of w id ++ [l])
        else listeners_of w k
    | OpUnsubscribeExecution id l =>
        if decide (k = id) then filter (λ y, y ≠ l) (listeners_of w id)
        else listeners_of w k
    | _ => listeners_of w k
    end.
Proof.
  intros Hw. pose proof (step_execution_same w o) as H.
  destruct o as [v| |l|l|id l|id l|limit|id| | |r xs].
  1-4, 7-11: destruct H as [Hs Hm]; unfold listeners_of; by rewrite Hs, Hm.
  - by apply subscribeToExecution_listeners_of.
  - cbn [step]. destruct (unsubscribeExecution_listeners_of id l w Hw) as (H1 & _ & H3).
    destruct (decide (k = id)) as [->|Hne]; [done|]. by apply H3.
Qed.


(** A listener found under an execution id has been registered under it. *)
Lemma run_listeners_of_origin k l (ops : list Op) (w : World) :
  wf w → l ∈ listeners_of (run ops w) k →
  l ∈ listeners_of w k ∨ OpSubscribeToExecution k l ∈ ops.
Proof.
  revert w. induction ops as [|o ops IH]; intros w Hw Hin; [by left|].
  simpl in Hin. destruct (IH _ (step_wf w o Hw) Hin) as [H|H].
  - rewrite step_listeners_of in H by done.
    destruct o as [v| |l'|l'|id' l'|id' l'|limit|id'| | |r xs]; try (by left).
    + destruct (decide (k = id')) as [->|]; [|by left].
      case_decide; [by left|].
      apply elem_of_app in H as [H|H]; [by left|].
      apply list_elem_of_singleton in H as ->. right. by left.
    + destruct (decide (k = id')) as [->|]; [|by left].
      apply list_elem_of_filter in H as [_ H]. by left.
  - right. by right.
Qed.

(** *** Deliveries to execution listeners (C7) *)





Lemma deliveries_to_elem id cb v (cs : list Call) :
  v ∈ deliveries_to id cb cs ↔ ExecutionCall id cb v ∈ cs.
Proof.
  unfold deliveries_to. rewrite list_elem_of_omap. split.
  - intros ([l r|k l v'] & Hin & Hc); [done|].
    case_decide as Hd; [|done]. destruct Hd as [-> ->]. by injection Hc as ->.
  - intros Hin. exists (ExecutionCall id cb v). split; [done|].
    by rewrite decide_True.
Qed.









Lemma listeners_of_NoDup (w : World) id : wf w → NoDup (listeners_of w id).
Proof.
  intros Hw. unfold listeners_of.
  destruct (executionListeners (store w) !! id) as [s|] eqn:E; [|constructor].
  destruct (wf_execution _ Hw id s E) as (entries & Hs & _). rewrite Hs. simpl.
  by apply (wf_sets _ Hw s).
Qed.








(** The guard [if (violation.executionId)] of [addViolation] takes an
    empty execution id for an absent one: a listener registered under the
    empty string is not called for a violation whose execution id is the
    empty string, which [getViolationsForExecution] finds under it. *)
Lemma empty_execution_id_not_delivered :
  let v := example_event 0 (Some EmptyString) in
  let w1 := (subscribeToExecution EmptyString 1%nat new_world).2 in
  let w2 := addViolation v w1 in
  listeners_of w2 EmptyString = [1%nat]
  ∧ calls w2 = [] ∧ stack w2 = []
  ∧ array_get (heap (getViolationsForExecution EmptyString w2).2)
      (getViolationsForExecution EmptyString w2).1 = [v].
Proof. vm_compute. done. Qed.

(** *** The store on concrete histories *)

Example ring_overflow :
  let w := run (map (λ n, OpAddViolation (example_event (Z.of_nat n) None)) (seq 0 503))
               new_world in
  getCount w = 500%nat ∧ getTotalCount w = 503%N
  ∧ timestamp <$> head (stored w) = Some 3
  ∧ timestamp <$> last (stored w) = Some 502
  ∧ getCount (clear w) = 0%nat ∧ getTotalCount (clear w) = 503%N.
Proof. vm_compute. done. Qed.

Example subscriptions :
  let v1 := example_event 1 (Some "run-1") in
  let v2 := example_event 2 (Some "run-2") in
  let v3 := example_event 3 None in
  let w := run [OpSubscribe 7%nat; ListenerReturns;
                OpSubscribeToExecution "run-1" 3%nat;
                OpAddViolation v1; ListenerReturns; ListenerReturns;
                OpAddViolation v2; ListenerReturns;
                OpUnsubscribe 7%nat;
                OpAddViolation v3; OpUnsubscribeExecution "run-1" 3%nat;
                OpAddViolation v1] new_world in
  calls w = [BroadcastCall 7%nat 1%nat;
             BroadcastCall 7%nat 2%nat; ExecutionCall "run-1" 3%nat v1;
             BroadcastCall 7%nat 3%nat]
  ∧ array_get (heap w) 1%nat = []
  ∧ array_get (heap w) 2%nat = [v1]
  ∧ array_get (heap w) 3%nat = [v1; v2]
  ∧ stored w = [v1; v2; v3; v1]
  ∧ stack w = []
  ∧ executionListeners (store w) = ∅.
Proof. vm_compute. done. Qed.

(** A subscriber that is notified removes the next one, which is then not
    called: [forEach] visits the members the set has when it gets to
    them. *)
Example unsubscribe_while_notified :
  let w := run [OpSubscribe 1%nat; ListenerReturns; OpSubscribe 2%nat; ListenerReturns;
                OpAddViolation (example_event 3 None);
                OpUnsubscribe 2%nat; ListenerReturns] new_world in
  calls w = [BroadcastCall 1%nat 1%nat; BroadcastCall 2%nat 2%nat;
             BroadcastCall 1%nat 3%nat]
  ∧ subscribers w = [1%nat] ∧ stack w = [].
Proof. vm_compute. done. Qed.

(** A subscriber that is notified of a first violation adds a second: the
    notification of the second runs inside that of the first, and the
    other subscriber sees the snapshot with both before the snapshot with
    the first alone. *)
Example addViolation_while_notified :
  let v1 := example_event 1 None in
  let v2 := example_event 2 None in
  let w := run [OpSubscribe 1%nat; ListenerReturns; OpSubscribe 2%nat; ListenerReturns;
                OpAddViolation v1; OpAddViolation v2;
                ListenerReturns; ListenerReturns; ListenerReturns; ListenerReturns]
             new_world in
  new_calls (run [OpSubscribe 1%nat; ListenerReturns; OpSubscribe 2%nat; ListenerReturns]
               new_world) w
  = [BroadcastCall 1%nat 3%nat; BroadcastCall 1%nat 4%nat;
     BroadcastCall 2%nat 4%nat; BroadcastCall 2%nat 3%nat]
  ∧ array_get (heap w) 3%nat = [v1]
  ∧ array_get (heap w) 4%nat = [v1; v2]
  ∧ stored w = [v1; v2] ∧ stack w = [].
Proof. vm_compute. done. Qed.

(** The subscribers of one notification are passed the same array: what
    the first writes to it, the second finds; the store keeps what it
    holds. *)
Example snapshot_shared_between_subscribers :
  let v1 := example_event 1 None in
  let w := run [OpSubscribe 1%nat; ListenerReturns; OpSubscribe 2%nat; ListenerReturns;
                OpAddViolation v1; ArrayWrite 3%nat []; ListenerReturns] new_world in
  snapshots_to 2%nat (calls w) = [2%nat; 3%nat]
  ∧ array_get (heap w) 3%nat = []
  ∧ stored w = [v1].
Proof. vm_compute. done. Qed.

Example limits :
  let w := run (map (λ n, OpAddViolation (example_event n None)) [1; 2; 3]) new_world in
  let result limit := array_get (heap (getViolations limit w).2) (getViolations limit w).1 in
  timestamp <$> result None = [1; 2; 3]
  ∧ timestamp <$> result (Some 2) = [2; 3]
  ∧ timestamp <$> result (Some 5) = [1; 2; 3]
  ∧ timestamp <$> result (Some 0) = [1; 2; 3].
Proof. vm_compute. done. Qed.

End ViolationStoreSpec.

(** ** The host matcher *)

Module HostMatcherSpec.
Import HostMatcher.

Lemma existsb_elem_of {A} (f : A → bool) (l : list A) :
  existsb f l = true ↔ ∃ x, x ∈ l ∧ f x = true.
Proof.
  rewrite existsb_exists. split; intros (x & H1 & H2); exists x;
    (split; [by apply list_elem_of_In|done]).
Qed.

(** C1.  Whatever the pattern language: a destination that matches a
    pattern of the denied list is denied, also when it matches a pattern
    of the allowed list; a destination that matches no pattern at all is
    denied; so with an empty (or missing) allowed list, or no
    configuration, every destination is denied.  [Allow] is returned
    exactly when an allowed pattern matches and no denied pattern does. *)
Theorem deny_first_default_deny
    (pattern_matches : string → NetworkHostPattern → bool)
    (cfg : NetworkRestrictionConfig) (dest : NetworkHostPattern) :
  let denied := default [] (deniedHosts cfg) in
  let allowed := default [] (allowedHosts cfg) in
  let verdict := host_matcher pattern_matches (Some cfg) dest in
  ((∃ p, p ∈ denied ∧ pattern_matches p dest = true) → verdict = Deny)
  ∧ ((∀ p, p ∈ denied ++ allowed → pattern_matches p dest = false) → verdict = Deny)
  ∧ (allowed = [] → verdict = Deny)
  ∧ (verdict = Allow ↔
       (∃ p, p ∈ allowed ∧ pattern_matches p dest = true)
       ∧ ¬ (∃ p, p ∈ denied ∧ pattern_matches p dest = true))
  ∧ host_matcher pattern_matches None dest = Deny.
Proof.
  intros denied allowed verdict.
  assert (Hiff : verdict = Allow ↔
                 (∃ p, p ∈ allowed ∧ pattern_matches p dest = true)
                 ∧ ¬ (∃ p, p ∈ denied ∧ pattern_matches p dest = true)).
  { unfold verdict, host_matcher. fold denied allowed.
    rewrite <- !existsb_elem_of.
    destruct (existsb _ denied), (existsb _ allowed); split; try done;
      intros [Ha Hd]; try done; by destruct Hd. }
  assert (Hdeny : ∀ P : Prop, (P → verdict ≠ Allow) → P → verdict = Deny).
  { intros P HP H. specialize (HP H). by destruct verdict. }
  split_and!.
  - apply Hdeny. intros Hd [_ Hn]%Hiff. by apply Hn.
  - apply Hdeny. intros Hno [(p & Hp & Hm) _]%Hiff.
    rewrite Hno in Hm; [done|]. apply elem_of_app. by right.
  - apply Hdeny. intros He [(p & Hp & _) _]%Hiff.
    rewrite He in Hp. by apply not_elem_of_nil in Hp.
  - done.
  - done.
Qed.

(** Scenario 6 of the specification: a name on both lists is denied. *)
Example deny_precedence_example :
  host_matcher name_pattern_matches
    (Some (mkNetworkRestrictionConfig (Some ["example.com"]) (Some ["Example.COM"])))
    (mkDestination "example.com" (Some 443)) = Deny
  ∧ host_matcher name_pattern_matches
      (Some (mkNetworkRestrictionConfig (Some ["*.example.com"; "github.com"]) (Some [])))
      (mkDestination "api.example.com" (Some 443)) = Allow
  ∧ host_matcher name_pattern_matches
      (Some (mkNetworkRestrictionConfig (Some ["*.example.com"]) None))
      (mkDestination "example.com" None) = Deny.
Proof. vm_compute. done. Qed.

End HostMatcherSpec.

(** ** The orchestrator *)

Module OrchestratorSpec.
Import Orchestrator.

Section Initialize.
Variable os_pick : gset Z → option Z.
Variable loader_minimum : list string.

Local Abbreviation initialize := (Orchestrator.initialize os_pick loader_minimum).

(** A successful [initialize] leaves the cell initialized with the
    configuration it was given. *)
Lemma initialize_ok_config (c : Config) (st st1 : State) :
  initialize c st = (inr (), st1) →
  ∃ i, cell st1 = Some i ∧ config i = c.
Proof.
  unfold Orchestrator.initialize. intros H.
  destruct (cell st) as [i|] eqn:E.
  - case_decide; simplify_eq. eauto.
  - repeat case_match; simplify_eq. simpl. eauto.
Qed.

(** An error of [initialize] leaves the state as it was. *)
Lemma initialize_error_state (c : Config) (st st1 : State) e :
  initialize c st = (inl e, st1) → st1 = st.
Proof.
  unfold Orchestrator.initialize. intros H.
  repeat case_match; by simplify_eq.
Qed.

(** C3.  After a successful [initialize c], a second [initialize] with a
    structurally equal configuration succeeds and leaves the whole state,
    and so both proxy ports, as the first call left it; a second
    [initialize] with any other configuration fails with
    [AlreadyInitialized] and leaves the whole state as it was. *)
Theorem initialize_again (c : Config) (st st1 : State) :
  initialize c st = (inr (), st1) →
  (∀ c', c' = c →
     initialize c' st1 = (inr (), st1)
     ∧ getProxyPort (snd (initialize c' st1)) = getProxyPort st1
     ∧ getSocksProxyPort (snd (initialize c' st1)) = getSocksProxyPort st1)
  ∧ (∀ c2, c2 ≠ c → initialize c2 st1 = (inl AlreadyInitialized, st1)).
Proof.
  intros H. destruct (initialize_ok_config c st st1 H) as (i & Hi & Hc).
  split.
  - intros c' ->.
    assert (Heq : initialize c st1 = (inr (), st1)).
    { unfold Orchestrator.initialize. rewrite Hi. by rewrite decide_True. }
    by rewrite Heq.
  - intros c2 Hne. unfold Orchestrator.initialize. rewrite Hi.
    rewrite decide_False; [done|]. congruence.
Qed.

Lemma start_proxy_external which p in_use :
  start_proxy os_pick which (Some p) in_use = inr (External p, in_use).
Proof. done. Qed.

Lemma start_proxy_local which in_use h in_use' :
  start_proxy os_pick which None in_use = inr (h, in_use') →
  ∃ p, os_pick in_use = Some p ∧ h = Local p ∧ in_use' = {[p]} ∪ in_use.
Proof.
  unfold start_proxy. destruct (os_pick in_use) as [p|]; [|done].
  intros [= <- <-]. eauto.
Qed.

(** What a successful [initialize] of an uninitialized orchestrator
    builds. *)
Lemma initialize_fresh (c : Config) (st st1 : State) :
  cell st = None →
  initialize c st = (inr (), st1) →
  ∃ http socks in_use1,
    validate loader_minimum c = None
    ∧ start_proxy os_pick "http" (http_proxy_port (network c)) (ports_in_use st)
      = inr (http, in_use1)
    ∧ start_proxy os_pick "socks" (socks_proxy_port (network c)) in_use1
      = inr (socks, ports_in_use st1)
    ∧ cell st1 = Some {| config := c; http_proxy := http; socks_proxy := socks;
                         violation_store := ViolationStore.new_world;
                         execution_counter := 0%N;
                         teardown_registered := true |}.
Proof.
  intros Hc. unfold Orchestrator.initialize. rewrite Hc.
  destruct (validate loader_minimum c); [done|].
  destruct (start_proxy os_pick "http" _ _) as [|[http in_use1]]; [done|].
  destruct (start_proxy os_pick "socks" _ _) as [|[socks in_use2]] eqn:E; [done|].
  intros [= <-]. simpl. eauto 10.
Qed.

(** The ports [initialize] binds are those of its local listeners. *)
Lemma initialize_binds_local_listeners (c : Config) (st st1 : State) :
  cell st = None →
  initialize c st = (inr (), st1) →
  ports_in_use st1 = list_to_set (local_listeners st1) ∪ ports_in_use st.
Proof.
  intros Hc Hinit.
  destruct (initialize_fresh c st st1 Hc Hinit)
    as (http & socks & in_use1 & _ & Hh & Hs & Hi).
  unfold local_listeners. rewrite Hi. simpl.
  assert (Hu1 : in_use1 = list_to_set (local_port http) ∪ ports_in_use st).
  { destruct (http_proxy_port (network c)).
    - simpl in Hh. injection Hh as <- <-. simpl. by rewrite (left_id_L ∅ (∪)).
    - apply start_proxy_local in Hh as (p & _ & -> & ->). simpl.
      by rewrite (right_id_L ∅ (∪) {[p]}). }
  assert (Hu2 : ports_in_use st1 = list_to_set (local_port socks) ∪ in_use1).
  { destruct (socks_proxy_port (network c)).
    - simpl in Hs. injection Hs as <- <-. simpl. by rewrite (left_id_L ∅ (∪)).
    - apply start_proxy_local in Hs as (p & _ & -> & ->). simpl.
      by rewrite (right_id_L ∅ (∪) {[p]}). }
  rewrite Hu2, Hu1, list_to_set_app_L.
  rewrite (assoc_L (∪)). f_equal. apply (comm_L (∪)).
Qed.

(** C4.  On a host whose operating system hands out free ports between 1
    and 65535: after a successful [initialize] of an uninitialized
    orchestrator, a supplied HTTP port [p] is what [getProxyPort] returns
    and the HTTP proxy has no local listener (the only listener this
    process may hold is the SOCKS one, and the ports it has bound are
    those of its local listeners), and symmetrically for a supplied SOCKS
    port; a proxy whose port is not supplied is local, on the port the
    operating system chose; and when both proxies are local their ports
    differ and both lie between 1 and 65535. *)
Theorem proxy_port_assignment (c : Config) (st st1 : State) :
  (∀ in_use p, os_pick in_use = Some p → 1 ≤ p ≤ 65535 ∧ p ∉ in_use) →
  cell st = None →
  initialize c st = (inr (), st1) →
  ∃ i, cell st1 = Some i
    ∧ ports_in_use st1 = list_to_set (local_listeners st1) ∪ ports_in_use st
    ∧ (∀ p, http_proxy_port (network c) = Some p →
            getProxyPort st1 = Some p ∧ http_proxy i = External p
            ∧ local_listeners st1 = local_port (socks_proxy i))
    ∧ (∀ s, socks_proxy_port (network c) = Some s →
            getSocksProxyPort st1 = Some s ∧ socks_proxy i = External s
            ∧ local_listeners st1 = local_port (http_proxy i))
    ∧ (http_proxy_port (network c) = None →
       ∃ p, http_proxy i = Local p ∧ getProxyPort st1 = Some p
            ∧ os_pick (ports_in_use st) = Some p
            ∧ (p ∉ ports_in_use st) ∧ p ∈ ports_in_use st1)
    ∧ (socks_proxy_port (network c) = None →
       ∃ s, socks_proxy i = Local s ∧ getSocksProxyPort st1 = Some s
            ∧ (s ∉ ports_in_use st) ∧ s ∈ ports_in_use st1)
    ∧ (http_proxy_port (network c) = None → socks_proxy_port (network c) = None →
       ∃ p s, getProxyPort st1 = Some p ∧ getSocksProxyPort st1 = Some s
              ∧ local_listeners st1 = [p; s]
              ∧ p ≠ s ∧ 1 ≤ p ≤ 65535 ∧ 1 ≤ s ≤ 65535).
Proof.
  intros Hos Hc Hinit.
  pose proof (initialize_binds_local_listeners c st st1 Hc Hinit) as Hbound.
  destruct (initialize_fresh c st st1 Hc Hinit)
    as (http & socks & in_use1 & Hv & Hh & Hs & Hi).
  eexists. split; [exact Hi|]. split; [exact Hbound|]. clear Hbound.
  unfold getProxyPort, getSocksProxyPort, local_listeners. rewrite Hi. simpl.
  split_and!.
  - intros p Hp. rewrite Hp in Hh. simpl in Hh. by simplify_eq.
  - intros s Hp. rewrite Hp in Hs. simpl in Hs. simplify_eq.
    by rewrite app_nil_r.
  - intros Hp. rewrite Hp in Hh.
    apply start_proxy_local in Hh as (p & Hpick & -> & ->).
    exists p. destruct (Hos _ _ Hpick) as [_ Hfree].
    split_and!; try done.
    destruct (socks_proxy_port (network c)) as [s|].
    + simpl in Hs. injection Hs as _ <-.
      rewrite elem_of_union, elem_of_singleton. tauto.
    + apply start_proxy_local in Hs as (s & _ & _ & Hs). rewrite Hs.
      rewrite !elem_of_union, !elem_of_singleton. tauto.
  - intros Hp. rewrite Hp in Hs.
    apply start_proxy_local in Hs as (s & Hpick & -> & Hs).
    exists s. destruct (Hos _ _ Hpick) as [_ Hfree]. rewrite Hs.
    split_and!; try done;
      [|rewrite elem_of_union, elem_of_singleton; tauto].
    destruct (http_proxy_port (network c)) as [p|].
    + simpl in Hh. by injection Hh as _ <-.
    + apply start_proxy_local in Hh as (p & _ & _ & ->).
      intros Hin. apply Hfree. rewrite elem_of_union. tauto.
  - intros Hp1 Hp2. rewrite Hp1 in Hh. rewrite Hp2 in Hs.
    apply start_proxy_local in Hh as (p & Hpick1 & -> & ->).
    apply start_proxy_local in Hs as (s & Hpick2 & -> & Hs).
    destruct (Hos _ _ Hpick1) as [Hr1 _].
    destruct (Hos _ _ Hpick2) as [Hr2 Hfree].
    exists p, s. split_and!; try done; try lia.
    intros ->. apply Hfree. rewrite elem_of_union, elem_of_singleton. tauto.
Qed.

End Initialize.

(** [first_free_port] is such a host. *)
Lemma first_free_from_ok (count : nat) (p : Z) (in_use : gset Z) (q : Z) :
  first_free_from count p in_use = Some q →
  p ≤ q < p + Z.of_nat count ∧ q ∉ in_use.
Proof.
  revert p. induction count as [|count IH]; intros p; simpl; [done|].
  case_bool_decide as Hin.
  - intros H%IH. split; [lia|tauto].
  - intros [= <-]. split; [lia|done].
Qed.

Lemma first_free_port_ok (in_use : gset Z) (p : Z) :
  first_free_port in_use = Some p → 1 ≤ p ≤ 65535 ∧ p ∉ in_use.
Proof.
  unfold first_free_port. intros [Hr Hfree]%first_free_from_ok.
  split; [|done]. rewrite Z2Nat.id in Hr by lia. lia.
Qed.

(** The idempotence test of configurable-proxy-ports.test.ts. *)
Lemma initialize_again_witness :
  let c := example_config (Some 5555) (Some 5556) in
  let st1 := (initialize first_free_port [] c uninitialized).2 in
  initialize first_free_port [] c st1 = (inr (), st1)
  ∧ getProxyPort st1 = Some 5555 ∧ getSocksProxyPort st1 = Some 5556
  ∧ initialize first_free_port [] (example_config (Some 5555) None) st1
    = (inl AlreadyInitialized, st1).
Proof.
  intros c st1.
  assert (H : initialize first_free_port [] c uninitialized = (inr (), st1))
    by reflexivity.
  destruct (initialize_again first_free_port [] c uninitialized st1 H) as [H1 H2].
  split_and!.
  - exact (proj1 (H1 c eq_refl)).
  - reflexivity.
  - reflexivity.
  - apply H2. discriminate.
Defined.

(** The baseline test of configurable-proxy-ports.test.ts: both proxies
    local. *)
Lemma proxy_port_assignment_witness :
  let c := example_config None None in
  let st1 := (initialize first_free_port [] c uninitialized).2 in
  ∃ p s, getProxyPort st1 = Some p ∧ getSocksProxyPort st1 = Some s
         ∧ local_listeners st1 = [p; s]
         ∧ p ≠ s ∧ 1 ≤ p ≤ 65535 ∧ 1 ≤ s ≤ 65535.
Proof.
  intros c st1.
  assert (H : initialize first_free_port [] c uninitialized = (inr (), st1))
    by (vm_compute; reflexivity).
  destruct (proxy_port_assignment first_free_port [] c uninitialized st1
              first_free_port_ok eq_refl H) as (i & _ & _ & _ & _ & _ & _ & Hboth).
  exact (Hboth eq_refl eq_refl).
Defined.

Example external_http_local_socks :
  let st1 := (initialize first_free_port []
                (example_config (Some 8888) None) uninitialized).2 in
  getProxyPort st1 = Some 8888 ∧ getSocksProxyPort st1 = Some 49152
  ∧ local_listeners st1 = [49152].
Proof. vm_compute. done. Qed.

(** The initialize/reset cycles of configurable-proxy-ports.test.ts. *)
Example initialize_reset_cycles :
  let init c st := (initialize first_free_port [] c st).2 in
  let st1 := init (example_config None None) uninitialized in
  let st2 := init (example_config (Some 7777) (Some 7778)) (reset st1) in
  let st3 := init (example_config (Some 6666) None) (reset st2) in
  (getProxyPort st1, getSocksProxyPort st1) = (Some 49152, Some 49153)
  ∧ (getProxyPort st2, getSocksProxyPort st2) = (Some 7777, Some 7778)
  ∧ (getProxyPort st3, getSocksProxyPort st3) = (Some 6666, Some 49152)
  ∧ ports_in_use (reset st3) = ∅.
Proof. vm_compute. done. Qed.

Example port_validation :
  (initialize first_free_port [] (example_config (Some 1) (Some 65535)) uninitialized).1
  = inr ()
  ∧ (initialize first_free_port [] (example_config (Some 0) None) uninitialized).1
    = inl (InvalidConfig "network.http_proxy_port" "port out of range")
  ∧ (initialize first_free_port [] (example_config None (Some 65536)) uninitialized).1
    = inl (InvalidConfig "network.socks_proxy_port" "port out of range").
Proof. vm_compute. done. Qed.

End OrchestratorSpec.

(** ** The environment of the wrapped command *)

Module ProxyEnvSpec.
Import ProxyEnv.

(** C5.  With both ports present the variables are, in this order,
    [HTTP_PROXY], [HTTPS_PROXY] (both [http://localhost:<p>]),
    [ALL_PROXY] ([socks5://localhost:<s>]), an empty [NO_PROXY],
    [SANDBOX_RUNTIME=1] and [TMPDIR=/tmp/claude], followed by the entries
    of the configured environment in their order; with both ports absent
    no proxy variable is emitted, and [SANDBOX_RUNTIME=1] and
    [TMPDIR=/tmp/claude] still are, followed by the configured entries. *)
Theorem proxy_env_vars (p s : Z) (customEnv : option (list (string * string))) :
  generateProxyEnvVars (Some p) (Some s) customEnv
  = ["HTTP_PROXY=http://localhost:" +:+ pretty p;
     "HTTPS_PROXY=http://localhost:" +:+ pretty p;
     "ALL_PROXY=socks5://localhost:" +:+ pretty s;
     "NO_PROXY=";
     "SANDBOX_RUNTIME=1";
     "TMPDIR=/tmp/claude"]
    ++ map (λ kv, kv.1 +:+ "=" +:+ kv.2) (default [] customEnv)
  ∧ generateProxyEnvVars None None customEnv
    = ["SANDBOX_RUNTIME=1"; "TMPDIR=/tmp/claude"]
      ++ map (λ kv, kv.1 +:+ "=" +:+ kv.2) (default [] customEnv)
  ∧ filter (λ v, is_proxy_variable v = true) (generateProxyEnvVars None None None) = []
  ∧ (∀ i kv, default [] customEnv !! i = Some kv →
       generateProxyEnvVars (Some p) (Some s) customEnv !! (6 + i)%nat
       = Some (kv.1 +:+ "=" +:+ kv.2)
       ∧ generateProxyEnvVars None None customEnv !! (2 + i)%nat
         = Some (kv.1 +:+ "=" +:+ kv.2)).
Proof.
  split_and!; try done.
  intros i kv Hi. unfold generateProxyEnvVars. simpl.
  by rewrite list_lookup_fmap, Hi.
Qed.

(** The tests of configurable-proxy-ports.test.ts. *)
Example proxy_env_with_custom :
  generateProxyEnvVars (Some 3128) (Some 1080)
    (Some [("SSL_CERT_FILE", "/tmp/ca-bundle.crt"); ("MY_CUSTOM_VAR", "my-value")])
  = ["HTTP_PROXY=http://localhost:3128"; "HTTPS_PROXY=http://localhost:3128";
     "ALL_PROXY=socks5://localhost:1080"; "NO_PROXY="; "SANDBOX_RUNTIME=1";
     "TMPDIR=/tmp/claude"; "SSL_CERT_FILE=/tmp/ca-bundle.crt";
     "MY_CUSTOM_VAR=my-value"].
Proof. vm_compute. reflexivity. Qed.

Example proxy_env_without_ports :
  generateProxyEnvVars None None (Some [("SSL_CERT_FILE", "/tmp/ca-bundle.crt")])
  = ["SANDBOX_RUNTIME=1"; "TMPDIR=/tmp/claude"; "SSL_CERT_FILE=/tmp/ca-bundle.crt"].
Proof. reflexivity. Qed.

Example proxy_env_override :
  filter (λ v, String.prefix "TMPDIR=" v = true)
    (generateProxyEnvVars (Some 3128) (Some 1080) (Some [("TMPDIR", "/my/custom/tmp")]))
  = ["TMPDIR=/tmp/claude"; "TMPDIR=/my/custom/tmp"].
Proof. vm_compute. reflexivity. Qed.

End ProxyEnvSpec.

(** ** The Unix-socket supervisor *)

Module SupervisorSpec.
Import Supervisor.

(** *** Processes: what is not running stays so *)

Lemma process_kill_running (p q : positive) (h h' : Host) :
  process_kill p h = Some h' →
  files h' = files h ∧ debug h' = debug h
  ∧ ¬ is_running h' p
  ∧ (is_running h' q → is_running h q).
Proof.
  unfold process_kill, is_running.
  destruct (procs h !! p) as [[path st]|] eqn:E; [|done].
  destruct st; intros [= <-]; simpl; split_and!; try done.
  - rewrite lookup_insert_eq. by intros (? & [= _]).
  - intros (path' & Hq). destruct (decide (p = q)) as [->|Hne].
    + rewrite lookup_insert_eq in Hq. done.
    + rewrite lookup_insert_ne in Hq by done. eauto.
  - rewrite E. by intros (? & [= _]).
Qed.

Lemma process_kill_none (p : positive) (h : Host) :
  process_kill p h = None → ¬ is_running h p.
Proof.
  unfold process_kill, is_running. intros H (path & Hp). rewrite Hp in H. done.
Qed.

Lemma apply_action_running (a : EnvAction) (h : Host) (q : positive) :
  is_running (apply_action h a) q → is_running h q.
Proof.
  unfold is_running. destruct a as [p|p]; simpl.
  - destruct (procs h !! p) as [[path []]|]; try done.
    by destruct (existsSync path h).
  - destruct (procs h !! p) as [[path st]|] eqn:E; try done.
    destruct st; try done. simpl.
    intros (path' & Hq). destruct (decide (p = q)) as [->|Hne].
    + rewrite lookup_insert_eq in Hq. done.
    + rewrite lookup_insert_ne in Hq by done. eauto.
Qed.

Lemma apply_action_debug (a : EnvAction) (h : Host) :
  debug (apply_action h a) = debug h.
Proof.
  destruct a as [p|p]; simpl;
    destruct (procs h !! p) as [[path []]|]; try done.
  by destruct (existsSync path h).
Qed.

Lemma environment_running (acts : list EnvAction) (h : Host) (q : positive) :
  is_running (environment acts h) q → is_running h q.
Proof.
  revert h. induction acts as [|a acts IH]; intros h; [done|].
  simpl. intros H%IH. by apply apply_action_running in H.
Qed.

Lemma environment_debug (acts : list EnvAction) (h : Host) :
  debug (environment acts h) = debug h.
Proof.
  revert h. induction acts as [|a acts IH]; intros h; [done|].
  simpl. by rewrite IH, apply_action_debug.
Qed.

Lemma unlinkSync_Some (path : string) (h h' : Host) :
  unlinkSync path h = Some h' →
  h' = set_files (delete path (files h)) h.
Proof.
  unfold unlinkSync. destruct (files h !! path) as [e|]; [|done].
  destruct (can_unlink e); by intros [= <-].
Qed.

Lemma unlinkSync_None (path : string) (h : Host) e :
  unlinkSync path h = None → files h !! path = Some e → can_unlink e = false.
Proof.
  unfold unlinkSync. intros H He. rewrite He in H.
  by destruct (can_unlink e).
Qed.

Lemma existsSync_false (path : string) (h : Host) :
  existsSync path h = false → files h !! path = None.
Proof.
  unfold existsSync. intros H%bool_decide_eq_false.
  destruct (files h !! path) eqn:E; [|done]. exfalso. apply H. eauto.
Qed.

Lemma spawn_socat_running (path : string) (started : bool) (h h' : Host) child q :
  spawn_socat path started h = (child, h') →
  files h' = files h ∧ debug h' = debug h
  ∧ killed child = false
  ∧ (is_running h' q → is_running h q ∨ pid child = Some q).
Proof.
  unfold spawn_socat, is_running. destruct started; intros [= <- <-]; simpl.
  - split_and!; try done. intros (path' & Hq).
    destruct (decide (fresh (dom (procs h)) = q)) as [->|Hne]; [by right|].
    rewrite lookup_insert_ne in Hq by done. eauto.
  - split_and!; try done. eauto.
Qed.

(** *** The loops of one attempt *)

Section Attempt.
Variable join : string → string → string.
Variable tmpdir : string.

Lemma quiet_tracked (h0 h : Host) : quiet h0 h → tracked h0 [] h.
Proof. intros Hq p Hp Hr. exfalso. by apply (Hq p). Qed.

Lemma tracked_environment (h0 : Host) sp acts (h : Host) :
  tracked h0 sp h → tracked h0 sp (environment acts h).
Proof. intros Ht p Hp Hr. apply Ht; [done|]. by apply environment_running in Hr. Qed.

Lemma tracked_same_procs (h0 : Host) sp (h h' : Host) :
  procs h' = procs h → tracked h0 sp h → tracked h0 sp h'.
Proof. intros He Ht p Hp Hr. apply Ht; [done|]. unfold is_running in *. by rewrite <- He. Qed.

Lemma spawn_forwarders_tracked (env : AttemptEnv) ms k sp (h0 h : Host) e sp' h' :
  spawn_forwarders env ms k sp h = (e, sp', h') →
  tracked h0 sp h → tracked h0 sp' h'.
Proof.
  revert k sp h. induction ms as [|m ms IH]; intros k sp h; simpl.
  - by intros [= <- <- <-].
  - intros Hs Ht.
    set (h1 := logForDebugging (LogCreating (hostPath m) (sandboxPath m)) h) in *.
    assert (Ht1 : tracked h0 sp h1) by (by apply (tracked_same_procs h0 sp h)).
    destruct (if existsSync (hostPath m) h1 then unlinkSync (hostPath m) h1 else Some h1)
      as [h2|] eqn:Hc; [|by simplify_eq].
    assert (Ht2 : tracked h0 sp h2).
    { destruct (existsSync (hostPath m) h1); [|by simplify_eq].
      apply unlinkSync_Some in Hc as ->. by apply (tracked_same_procs h0 sp h1). }
    destruct (spawn_socat (hostPath m) (spawn_started env k) h2) as [child h3] eqn:Hsp.
    assert (Hchild : ∀ q, is_running h3 q → is_running h2 q ∨ pid child = Some q)
      by (intros q; by apply (spawn_socat_running _ _ _ _ _ q Hsp)).
    assert (Hk : killed child = false) by (by apply (spawn_socat_running _ _ _ _ _ 1%positive Hsp)).
    destruct (pid child) as [p|] eqn:Hp.
    + apply IH in Hs; [done|]. apply tracked_environment.
      intros q Hq Hr. apply elem_of_app.
      destruct (Hchild q Hr) as [Hr2|[= ->]].
      * left. by apply Ht2.
      * right. apply list_elem_of_singleton. destruct child. simpl in *. by subst.
    + simplify_eq. intros q Hq Hr.
      destruct (Hchild q Hr) as [Hr2|?]; [by apply Ht2|done].
Qed.

Lemma spawn_forwarders_debug (env : AttemptEnv) ms k sp (h : Host) e sp' h' :
  spawn_forwarders env ms k sp h = (e, sp', h') →
  attempts_started h' = attempts_started h.
Proof.
  revert k sp h. induction ms as [|m ms IH]; intros k sp h; simpl.
  - by intros [= <- <- <-].
  - intros Hs.
    set (h1 := logForDebugging (LogCreating (hostPath m) (sandboxPath m)) h) in *.
    assert (H1 : attempts_started h1 = attempts_started h).
    { unfold attempts_started, h1. simpl. by rewrite omap_app, app_nil_r. }
    destruct (if existsSync (hostPath m) h1 then unlinkSync (hostPath m) h1 else Some h1)
      as [h2|] eqn:Hc; [|by simplify_eq].
    assert (H2 : attempts_started h2 = attempts_started h).
    { destruct (existsSync (hostPath m) h1); [|by simplify_eq].
      by apply unlinkSync_Some in Hc as ->. }
    destruct (spawn_socat (hostPath m) (spawn_started env k) h2) as [child h3] eqn:Hsp.
    assert (H3 : debug h3 = debug h2) by (by apply (spawn_socat_running _ _ _ _ _ 1%positive Hsp)).
    destruct (pid child) as [p|].
    + apply IH in Hs. rewrite Hs. unfold attempts_started.
      by rewrite environment_debug, H3.
    + simplify_eq. unfold attempts_started in *. by rewrite H3.
Qed.

Lemma wait_for_sockets_tracked ms checks (h0 h : Host) sp ok h' :
  wait_for_sockets ms checks h = (ok, h') →
  tracked h0 sp h → tracked h0 sp h'.
Proof.
  revert h. induction checks as [|acts checks IH]; intros h; simpl.
  - by intros [= <- <-].
  - intros Hw Ht. case_match.
    + simplify_eq. apply (tracked_same_procs h0 sp (environment acts h)); [done|].
      by apply tracked_environment.
    + apply IH in Hw; [done|]. by apply tracked_environment.
Qed.

Lemma wait_for_sockets_debug ms checks (h : Host) ok h' :
  wait_for_sockets ms checks h = (ok, h') →
  attempts_started h' = attempts_started h.
Proof.
  revert h. induction checks as [|acts checks IH]; intros h; simpl.
  - by intros [= <- <-].
  - intros Hw. case_match.
    + simplify_eq. unfold attempts_started. simpl.
      by rewrite omap_app, app_nil_r, environment_debug.
    + apply IH in Hw. rewrite Hw. unfold attempts_started.
      by rewrite environment_debug.
Qed.

(** The first loop of the [catch]: every process of
    [supervisorProcesses] has been signalled or was gone already, and no
    other process has been started. *)
Lemma kill_spawned_spec sp (h : Host) :
  files (kill_spawned sp h) = files h
  ∧ debug (kill_spawned sp h) = debug h
  ∧ (∀ q, is_running (kill_spawned sp h) q → is_running h q)
  ∧ (∀ p, mkChild (Some p) false ∈ sp → ¬ is_running (kill_spawned sp h) p).
Proof.
  revert h. induction sp as [|proc sp IH]; intros h.
  - simpl. split_and!; try done. intros p Hp. by apply not_elem_of_nil in Hp.
  - simpl.
    set (h1 := match pid proc with
               | Some p => if negb (killed proc)
                           then match process_kill p h with Some h'' => h'' | None => h end
                           else h
               | None => h
               end).
    assert (H1 : files h1 = files h ∧ debug h1 = debug h
                 ∧ (∀ q, is_running h1 q → is_running h q)
                 ∧ (∀ p, proc = mkChild (Some p) false → ¬ is_running h1 p)).
    { unfold h1. destruct proc as [[p|] k]; simpl; [|by split_and!].
      destruct k; simpl; [by split_and!|].
      destruct (process_kill p h) as [h2|] eqn:Hk.
      - split_and!; try (by apply (process_kill_running p p h h2)).
        + intros q. by apply (process_kill_running p q h h2).
        + intros p' [= <-]. by apply (process_kill_running p p h h2).
      - split_and!; try done. intros p' [= <-]. by apply process_kill_none. }
    destruct H1 as (Hf & Hd & Hr & Hp). destruct (IH h1) as (IHf & IHd & IHr & IHp).
    split_and!.
    + by rewrite IHf.
    + by rewrite IHd.
    + intros q Hq. by apply Hr, IHr.
    + intros p [Heq|Hin]%elem_of_cons.
      * intros Hrun%IHr. by apply (Hp p).
      * by apply IHp.
Qed.

(** The second loop of the [catch]: files are only removed, and what is
    left at a host path is something [unlinkSync] refuses to remove. *)
Lemma unlink_sockets_spec ms (h : Host) :
  procs (unlink_sockets ms h) = procs h
  ∧ debug (unlink_sockets ms h) = debug h
  ∧ (∀ path e, files (unlink_sockets ms h) !! path = Some e → files h !! path = Some e)
  ∧ (∀ m e, m ∈ ms → files (unlink_sockets ms h) !! hostPath m = Some e →
            can_unlink e = false).
Proof.
  revert h. induction ms as [|m ms IH]; intros h.
  - simpl. split_and!; try done. intros m e Hm. by apply not_elem_of_nil in Hm.
  - simpl.
    set (h1 := if existsSync (hostPath m) h
               then match unlinkSync (hostPath m) h with Some h'' => h'' | None => h end
               else h).
    assert (H1 : procs h1 = procs h ∧ debug h1 = debug h
                 ∧ (∀ path e, files h1 !! path = Some e → files h !! path = Some e)
                 ∧ (∀ e, files h1 !! hostPath m = Some e → can_unlink e = false)).
    { unfold h1. destruct (existsSync (hostPath m) h) eqn:Hex.
      - destruct (unlinkSync (hostPath m) h) as [h2|] eqn:Hu.
        + apply unlinkSync_Some in Hu as ->. simpl. split_and!; try done.
          * intros path e He. by apply lookup_delete_Some in He as [_ ?].
          * intros e He. by rewrite lookup_delete_eq in He.
        + split_and!; try done. intros e. by apply unlinkSync_None.
      - split_and!; try done. apply existsSync_false in Hex.
        intros e He. by rewrite Hex in He. }
    destruct H1 as (Hp & Hd & Hk & Hm). destruct (IH h1) as (IHp & IHd & IHk & IHm).
    split_and!.
    + by rewrite IHp.
    + by rewrite IHd.
    + intros path e He. by apply Hk, IHk.
    + intros m' e [->|Hin]%elem_of_cons He; [by apply Hm, IHk|by apply (IHm m')].
Qed.

Lemma cleanup_spec (h0 : Host) sp ms (h : Host) :
  tracked h0 sp h →
  quiet h0 (cleanup sp ms h)
  ∧ (∀ m e, m ∈ ms → files (cleanup sp ms h) !! hostPath m = Some e →
            can_unlink e = false)
  ∧ attempts_started (cleanup sp ms h) = attempts_started h.
Proof.
  intros Ht. unfold cleanup.
  destruct (kill_spawned_spec sp h) as (_ & Hkd & Hkr & Hkp).
  destruct (unlink_sockets_spec ms (kill_spawned sp h)) as (Hup & Hud & _ & Hum).
  split_and!.
  - intros p Hp Hr. fold (is_running (unlink_sockets ms (kill_spawned sp h)) p) in Hr.
    unfold is_running in Hr. rewrite Hup in Hr.
    apply (Hkp p); [|done]. apply Ht; [done|]. by apply Hkr.
  - done.
  - unfold attempts_started. by rewrite Hud, Hkd.
Qed.

(** *** Files: what an attempt leaves was there before or is a new socket *)

Lemma created_or_old_refl (h : Host) : created_or_old h h.
Proof. intros path e He. by right. Qed.

Lemma created_or_old_trans (h1 h2 h3 : Host) :
  created_or_old h1 h2 → created_or_old h2 h3 → created_or_old h1 h3.
Proof.
  intros H12 H23 path e He.
  destruct (H23 path e He) as [?|He2]; [by left|]. by apply H12.
Qed.

Lemma created_or_old_same (h h' : Host) : files h' = files h → created_or_old h h'.
Proof. intros Hf path e He. right. by rewrite <- Hf. Qed.

Lemma created_or_old_action (a : EnvAction) (h : Host) :
  created_or_old h (apply_action h a).
Proof.
  destruct a as [p|p]; simpl.
  - destruct (procs h !! p) as [[path []]|]; try apply created_or_old_refl.
    destruct (existsSync path h); [apply created_or_old_refl|].
    intros path' e. simpl. destruct (decide (path = path')) as [->|Hne].
    + rewrite lookup_insert_eq. intros [= <-]. by left.
    + rewrite lookup_insert_ne by done. by right.
  - destruct (procs h !! p) as [[path []]|];
      try apply created_or_old_refl. by apply created_or_old_same.
Qed.

Lemma created_or_old_environment acts (h : Host) :
  created_or_old h (environment acts h).
Proof.
  revert h. induction acts as [|a acts IH]; intros h; [apply created_or_old_refl|].
  simpl. eapply created_or_old_trans; [apply created_or_old_action|apply IH].
Qed.

Lemma created_or_old_spawn_forwarders (env : AttemptEnv) ms k sp (h : Host) e sp' h' :
  spawn_forwarders env ms k sp h = (e, sp', h') → created_or_old h h'.
Proof.
  revert k sp h. induction ms as [|m ms IH]; intros k sp h; simpl.
  - intros [= <- <- <-]. apply created_or_old_refl.
  - intros Hs.
    set (h1 := logForDebugging (LogCreating (hostPath m) (sandboxPath m)) h) in *.
    destruct (if existsSync (hostPath m) h1 then unlinkSync (hostPath m) h1 else Some h1)
      as [h2|] eqn:Hc; [|simplify_eq; by apply created_or_old_same].
    assert (H2 : created_or_old h h2).
    { destruct (existsSync (hostPath m) h1); [|simplify_eq; by apply created_or_old_same].
      apply unlinkSync_Some in Hc as ->. intros path e' He. right.
      simpl in He. by apply lookup_delete_Some in He as [_ ?]. }
    destruct (spawn_socat (hostPath m) (spawn_started env k) h2) as [child h3] eqn:Hsp.
    assert (H3 : files h3 = files h2) by (by apply (spawn_socat_running _ _ _ _ _ 1%positive Hsp)).
    destruct (pid child) as [p|].
    + apply IH in Hs. eapply created_or_old_trans; [exact H2|].
      eapply created_or_old_trans; [by apply created_or_old_same|].
      eapply created_or_old_trans; [apply created_or_old_environment|exact Hs].
    + simplify_eq. eapply created_or_old_trans; [exact H2|].
      by apply created_or_old_same.
Qed.

Lemma created_or_old_wait ms checks (h : Host) ok h' :
  wait_for_sockets ms checks h = (ok, h') → created_or_old h h'.
Proof.
  revert h. induction checks as [|acts checks IH]; intros h; simpl.
  - intros [= <- <-]. apply created_or_old_refl.
  - intros Hw. case_match.
    + simplify_eq. eapply created_or_old_trans; [apply created_or_old_environment|].
      by apply created_or_old_same.
    + eapply created_or_old_trans; [apply created_or_old_environment|by apply IH].
Qed.

Lemma created_or_old_cleanup sp ms (h : Host) : created_or_old h (cleanup sp ms h).
Proof.
  unfold cleanup.
  destruct (kill_spawned_spec sp h) as (Hkf & _).
  destruct (unlink_sockets_spec ms (kill_spawned sp h)) as (_ & _ & Hu & _).
  intros path e He. right. rewrite <- Hkf. by apply Hu.
Qed.

(** *** One attempt, and the retry loop *)

Lemma quiet_refl (h : Host) : quiet h h.
Proof. intros p Hp (path & Hr). by rewrite Hp in Hr. Qed.

Lemma quiet_environment (h0 : Host) acts (h : Host) :
  quiet h0 h → quiet h0 (environment acts h).
Proof.
  intros Hq p Hp Hr. apply (Hq p Hp).
  by apply (environment_running acts h p).
Qed.

Lemma attempt_started_only_logs ms runId env (h : Host) res h' :
  attemptStartSupervisor join tmpdir ms runId env h = (res, h') →
  attempts_started h' = attempts_started h.
Proof.
  unfold attemptStartSupervisor. destruct (missing_parent join ms h); [by intros [= <- <-]|].
  destruct (spawn_forwarders env ms 0 [] h) as [[e sp] h1] eqn:Hs.
  pose proof (spawn_forwarders_debug _ _ _ _ _ _ _ _ Hs) as H1.
  destruct e as [error|].
  - intros [= <- <-].
    destruct (kill_spawned_spec sp h1) as (_ & Hkd & _).
    destruct (unlink_sockets_spec ms (kill_spawned sp h1)) as (_ & Hud & _).
    unfold attempts_started, cleanup in *. by rewrite Hud, Hkd.
  - destruct (wait_for_sockets ms (polls env) h1) as [ok h2] eqn:Hw.
    pose proof (wait_for_sockets_debug _ _ _ _ _ Hw) as H2.
    destruct ok; intros [= <- <-]; [congruence|].
    destruct (kill_spawned_spec sp h2) as (_ & Hkd & _).
    destruct (unlink_sockets_spec ms (kill_spawned sp h2)) as (_ & Hud & _).
    unfold attempts_started, cleanup in *. rewrite Hud, Hkd. congruence.
Qed.

Lemma attempt_created_or_old ms runId env (h : Host) res h' :
  attemptStartSupervisor join tmpdir ms runId env h = (res, h') →
  created_or_old h h'.
Proof.
  unfold attemptStartSupervisor.
  destruct (missing_parent join ms h);
    [intros [= <- <-]; apply created_or_old_refl|].
  destruct (spawn_forwarders env ms 0 [] h) as [[e sp] h1] eqn:Hs.
  pose proof (created_or_old_spawn_forwarders _ _ _ _ _ _ _ _ Hs) as H1.
  destruct e as [error|].
  - intros [= <- <-]. eapply created_or_old_trans; [exact H1|].
    apply created_or_old_cleanup.
  - destruct (wait_for_sockets ms (polls env) h1) as [ok h2] eqn:Hw.
    pose proof (created_or_old_wait _ _ _ _ _ Hw) as H2.
    destruct ok; intros [= <- <-].
    + by eapply created_or_old_trans.
    + eapply created_or_old_trans; [exact H1|].
      eapply created_or_old_trans; [exact H2|]. apply created_or_old_cleanup.
Qed.

(** A failed attempt: either a parent directory was missing and the host
    is as it was, or everything the attempt started has been signalled
    and what is left at a host path is a file that was there before the
    attempt and that [unlinkSync] refuses to remove. *)
Lemma attempt_failure (h0 : Host) ms runId env (h : Host) error h' :
  quiet h0 h →
  attemptStartSupervisor join tmpdir ms runId env h = (inl error, h') →
  quiet h0 h'
  ∧ match missing_parent join ms h with
    | Some _ => h' = h
    | None => ∀ m e, m ∈ ms → files h' !! hostPath m = Some e →
                     can_unlink e = false ∧ files h !! hostPath m = Some e
    end.
Proof.
  intros Hq Ha. pose proof (attempt_created_or_old _ _ _ _ _ _ Ha) as Hold.
  revert Ha. unfold attemptStartSupervisor.
  destruct (missing_parent join ms h); [by intros [= _ <-]|].
  assert (Hleft : (∀ m e, m ∈ ms → files h' !! hostPath m = Some e → can_unlink e = false)
                  → ∀ m e, m ∈ ms → files h' !! hostPath m = Some e →
                           can_unlink e = false ∧ files h !! hostPath m = Some e).
  { intros Hno m e Hm He. pose proof (Hno m e Hm He) as Hc. split; [done|].
    destruct (Hold _ _ He) as [->|?]; done. }
  destruct (spawn_forwarders env ms 0 [] h) as [[e sp] h1] eqn:Hs.
  assert (Ht1 : tracked h0 sp h1).
  { apply (spawn_forwarders_tracked _ _ _ _ _ _ _ _ _ Hs). by apply quiet_tracked. }
  destruct e as [e|].
  - intros [= _ <-]. destruct (cleanup_spec h0 sp ms h1 Ht1) as (? & ? & _).
    split; [done|]. by apply Hleft.
  - destruct (wait_for_sockets ms (polls env) h1) as [ok h2] eqn:Hw.
    assert (Ht2 : tracked h0 sp h2)
      by (by apply (wait_for_sockets_tracked _ _ _ _ _ _ _ Hw)).
    destruct ok; [done|]. intros [= _ <-].
    destruct (cleanup_spec h0 sp ms h2 Ht2) as (? & ? & _).
    split; [done|]. by apply Hleft.
Qed.

Lemma attempts_spec (h0 : Host) ms runId envs delay remaining lastError (h : Host) res h' :
  quiet h0 h →
  attempts join tmpdir ms runId envs delay remaining lastError h = (res, h') →
  ∃ n, (n ≤ length remaining)%nat
       ∧ attempts_started h' = attempts_started h ++ take n remaining
       ∧ (∀ error, res = inl error → n = length remaining ∧ quiet h0 h').
Proof.
  revert lastError h. induction remaining as [|attempt remaining IH];
    intros lastError h Hq; simpl.
  - intros [= <- <-]. exists 0%nat. rewrite app_nil_r. by split_and!.
  - set (hs := logForDebugging (LogStarting attempt) h).
    assert (Hqs : quiet h0 hs) by done.
    assert (Has : attempts_started hs = attempts_started h ++ [attempt]).
    { unfold attempts_started, hs. simpl. by rewrite omap_app. }
    destruct (attemptStartSupervisor join tmpdir ms runId (envs attempt) hs)
      as [[error|context] h1] eqn:Ha.
    + pose proof (attempt_started_only_logs _ _ _ _ _ _ Ha) as Hl.
      destruct (attempt_failure h0 _ _ _ _ _ _ Hqs Ha) as [Hq1 _].
      match goal with |- attempts _ _ _ _ _ _ _ _ ?x = _ → _ => set (h3 := x) end.
      assert (H3 : attempts_started h3 = attempts_started h ++ [attempt]).
      { rewrite <- Has, <- Hl. unfold h3, attempts_started.
        case_match; simpl; rewrite ?environment_debug; simpl;
          by rewrite !omap_app, !app_nil_r. }
      assert (Hq3 : quiet h0 h3).
      { unfold h3. case_match; [apply quiet_environment|]; done. }
      intros Hrest. apply IH in Hrest as (n & Hn & Hlog & Hfail); [|done].
      exists (S n). split_and!; [lia| |].
      * rewrite Hlog, H3. simpl. by rewrite <- app_assoc.
      * intros e He. destruct (Hfail e He) as [-> ?]. done.
    + intros [= <- <-]. exists 1%nat. split_and!; [lia| |done].
      simpl. rewrite take_0. rewrite <- Has.
      rewrite <- (attempt_started_only_logs _ _ _ _ _ _ Ha).
      unfold attempts_started. simpl. by rewrite omap_app, app_nil_r.
Qed.

(** C10 (amended).  [startUnixSocketSupervisor] with a missing or empty
    list of mappings throws at once and leaves the host untouched: no
    process is spawned and no attempt is made.  A failed attempt either
    found a parent directory missing, before it spawned or created
    anything, and leaves the host as it was, or it ends with every
    process it spawned signalled (none of them still runs) and with the
    files at the host paths removed as far as [unlinkSync] removes them:
    what is left at a host path was there before the attempt and is a
    directory or a file the process may not unlink; in particular every
    socket the attempt created is removed, and nothing is left when all
    files at the host paths can be unlinked.  Only then does the error
    propagate.  A start makes at most 3 attempts, numbered 0, 1, 2 in
    order, and when it fails none of the processes it spawned is still
    running. *)
Theorem supervisor_failure_cleanup :
  (∀ runId envs delay (h : Host),
     startUnixSocketSupervisor join tmpdir None runId envs delay h
     = (inl "Cannot start Unix socket supervisor with no mappings", h)
     ∧ startUnixSocketSupervisor join tmpdir (Some []) runId envs delay h
       = (inl "Cannot start Unix socket supervisor with no mappings", h))
  ∧ (∀ ms runId env (h : Host) error h',
       attemptStartSupervisor join tmpdir ms runId env h = (inl error, h') →
       (is_Some (missing_parent join ms h) ∧ h' = h)
       ∨ (missing_parent join ms h = None
          ∧ (∀ p, spawned_between h h' p → ¬ is_running h' p)
          ∧ (∀ m e, m ∈ ms → files h' !! hostPath m = Some e →
                    can_unlink e = false ∧ files h !! hostPath m = Some e)
          ∧ ((∀ m e, m ∈ ms → files h !! hostPath m = Some e → can_unlink e = true) →
             ∀ m, m ∈ ms → files h' !! hostPath m = None)))
  ∧ (∀ ms runId envs delay (h : Host) res h',
       startUnixSocketSupervisor join tmpdir ms runId envs delay h = (res, h') →
       MAX_RETRIES = 3%nat
       ∧ ∃ n, (n ≤ 3)%nat
            ∧ attempts_started h' = attempts_started h ++ take n [0; 1; 2]%nat
            ∧ (∀ error, res = inl error →
                 ∀ p, spawned_between h h' p → ¬ is_running h' p)).
Proof.
  split_and!.
  - done.
  - intros ms runId env h error h' Ha.
    destruct (attempt_failure h _ _ _ _ _ _ (quiet_refl h) Ha) as [Hq Hm].
    destruct (missing_parent join ms h) as [m|].
    + left. eauto.
    + right. split_and!; [done| |done|].
      * intros p [Hp _]. by apply Hq.
      * intros Hall m Hin. destruct (files h' !! hostPath m) as [e|] eqn:He; [|done].
        destruct (Hm m e Hin He) as [Hc Hold].
        rewrite (Hall m e Hin Hold) in Hc. done.
  - intros ms runId envs delay h res h' Hs. split; [done|].
    unfold startUnixSocketSupervisor in Hs.
    assert (Hnone : (res, h') = (inl "Cannot start Unix socket supervisor with no mappings", h)
                    → ∃ n, (n ≤ 3)%nat
                      ∧ attempts_started h' = attempts_started h ++ take n [0; 1; 2]%nat
                      ∧ (∀ error, res = inl error →
                           ∀ p, spawned_between h h' p → ¬ is_running h' p)).
    { intros [= -> ->]. exists 0%nat. rewrite app_nil_r. split_and!; [lia|done|].
      intros _ _ p [Hp _] (path & Hr). by rewrite Hp in Hr. }
    destruct ms as [[|m ms]|]; [by apply Hnone| |by apply Hnone].
    apply (attempts_spec h) in Hs as (n & Hn & Hlog & Hfail); [|apply quiet_refl].
    exists n. split_and!; [done|done|].
    intros error He p [Hp _]. destruct (Hfail error He) as [_ Hq]. by apply Hq.
Qed.

End Attempt.

(** *** The supervisor on a concrete host *)

Example attempt_succeeds :
  outcome (attemptStartSupervisor posix_join "/tmp" example_mappings "run" env_prompt
             example_host)
  = (inr {| controlSocketPath := "/tmp/srt-unix-supervisor-run-00ff.sock";
            supervisorProcess := Some (mkChild (Some 1%positive) false);
            mappings := example_mappings |},
     [("/tmp/a.sock", mkFile Socket true); ("/tmp/b.sock", mkFile Socket true);
      ("/tmp", mkFile Directory false)],
     [(2%positive, ("/tmp/b.sock", Running)); (1%positive, ("/tmp/a.sock", Running))],
     []).
Proof. vm_compute. reflexivity. Qed.

Example attempt_times_out :
  outcome (attemptStartSupervisor posix_join "/tmp" example_mappings "run" env_slow
             example_host)
  = (inl "Timeout waiting for Unix sockets to be created after 2000ms",
     [("/tmp", mkFile Directory false)],
     [(2%positive, ("/tmp/b.sock", Terminated));
      (1%positive, ("/tmp/a.sock", Terminated))],
     []).
Proof. vm_compute. reflexivity. Qed.

Example attempt_without_socat :
  outcome (attemptStartSupervisor posix_join "/tmp" example_mappings "run" env_no_socat
             example_host)
  = (inl "Failed to spawn socat for socket /tmp/b.sock",
     [("/tmp", mkFile Directory false)],
     [(1%positive, ("/tmp/a.sock", Terminated))],
     []).
Proof. vm_compute. reflexivity. Qed.

Example start_gives_up_after_three_attempts :
  let r := startUnixSocketSupervisor posix_join "/tmp" (Some example_mappings) "run"
             (λ _, env_slow) (λ _, []) example_host in
  r.1 = inl ("Failed to start Unix socket supervisor after 3 attempts: "
             +:+ "Timeout waiting for Unix sockets to be created after 2000ms")
  ∧ attempts_started r.2 = [0; 1; 2]%nat
  ∧ map_to_list (files r.2) = [("/tmp", mkFile Directory false)]
  ∧ Forall (λ e, e.2.2 = Terminated) (map_to_list (procs r.2))
  ∧ length (map_to_list (procs r.2)) = 6%nat.
Proof. vm_compute. split_and!; try reflexivity. repeat constructor. Qed.

Example start_succeeds_on_second_attempt :
  let r := startUnixSocketSupervisor posix_join "/tmp" (Some example_mappings) "run"
             (λ n, if (n =? 0)%nat then env_no_socat
                   else {| socketId := "00ff"; spawn_started := λ _, true;
                           after_spawn := λ _, [];
                           polls := [[Bind 2%positive]; [Bind 3%positive]] |})
             (λ _, []) example_host in
  is_Some (match r.1 with inr c => Some c | inl _ => None end)
  ∧ attempts_started r.2 = [0; 1]%nat
  ∧ map_to_list (procs r.2)
    = [(3%positive, ("/tmp/b.sock", Running)); (2%positive, ("/tmp/a.sock", Running));
       (1%positive, ("/tmp/a.sock", Terminated))].
Proof. vm_compute. split_and!; try reflexivity. eauto. Qed.

(** The statement of C10 fails where [unlinkSync] throws: the first
    forwarder is spawned and binds its socket, the socket of the system
    service at the second host path cannot be unlinked, the attempt
    fails, and its clean-up, which ignores the errors of [unlinkSync],
    leaves that socket file where it was. *)
Lemma cleanup_leaves_protected_socket_counterexample :
  let r := attemptStartSupervisor posix_join "/tmp" service_mappings "run" env_prompt
             service_host in
  r.1 = inl "EACCES: permission denied, unlink '/var/run/docker.sock'"
  ∧ missing_parent posix_join service_mappings service_host = None
  ∧ spawned_between service_host r.2 1%positive
  ∧ mkMapping "/var/run/docker.sock" "/run/docker.sock" ∈ service_mappings
  ∧ socket_file_at r.2 "/var/run/docker.sock"
  ∧ ¬ (∀ m, m ∈ service_mappings → ¬ socket_file_at r.2 (hostPath m)).
Proof.
  assert (Hin : mkMapping "/var/run/docker.sock" "/run/docker.sock" ∈ service_mappings).
  { unfold service_mappings. apply elem_of_cons. right. apply elem_of_cons. by left. }
  assert (Hs : socket_file_at
                 (attemptStartSupervisor posix_join "/tmp" service_mappings "run"
                    env_prompt service_host).2 "/var/run/docker.sock").
  { exists (mkFile Socket false). split; [by vm_compute|done]. }
  simpl. split_and!; try done.
  intros H. by apply (H _ Hin).
Qed.

End SupervisorSpec.

(** ** More on the violation store *)

Module ViolationStoreLaws.
Import ViolationStore ViolationStoreSpec.

Lemma run_subscribers_origin l (ops : list Op) (w : World) :
  l ∈ subscribers (run ops w) → l ∈ subscribers w ∨ OpSubscribe l ∈ ops.
Proof.
  revert w. induction ops as [|o ops IH]; intros w Hin; [by left|].
  simpl in Hin. destruct (IH _ Hin) as [H|H]; [|right; by right].
  rewrite step_subscribers in H.
  destruct o as [v| |l'|l'|id' l'|id' l'|limit|id'| | |r xs]; try (by left).
  - case_decide; [by left|].
    apply elem_of_app in H as [H|H]; [by left|].
    apply list_elem_of_singleton in H as ->. right. by left.
  - apply list_elem_of_filter in H as [_ H]. by left.
Qed.

(** X6.  After every history of a new store (method calls from outside
    or from a running listener, listeners that return or throw, writes
    to handed-out arrays) the registrations are sets: no listener is
    registered twice as a broadcast subscriber or twice under one
    execution id; the map [executionListeners] has an entry for an id
    exactly when some listener is registered under it, so it never keeps
    an empty set; and whoever is registered has been registered by a call
    of [subscribe], or of [subscribeToExecution] with that id. *)
Theorem registrations_are_sets (ops : list Op) (id : string) :
  let w := run ops new_world in
  NoDup (subscribers w)
  ∧ NoDup (listeners_of w id)
  ∧ (executionListeners (store w) !! id = None ↔ listeners_of w id = [])
  ∧ (∀ l, l ∈ subscribers w → OpSubscribe l ∈ ops)
  ∧ (∀ l, l ∈ listeners_of w id → OpSubscribeToExecution id l ∈ ops).
Proof.
  intros w. assert (Hw : wf w) by apply run_wf, new_world_wf.
  split_and!.
  - apply Hw.
  - by apply listeners_of_NoDup.
  - unfold listeners_of.
    destruct (executionListeners (store w) !! id) as [s|] eqn:E; [|done].
    destruct (wf_execution _ Hw id s E) as (entries & Hs & Hne). rewrite Hs. simpl.
    split; [done|]. intros H. by destruct Hne.
  - intros l Hl. destruct (run_subscribers_origin l ops new_world Hl) as [H|H]; [|done].
    by apply not_elem_of_nil in H.
  - intros l Hl.
    destruct (run_listeners_of_origin id l ops new_world new_world_wf Hl) as [H|H];
      [|done].
    by apply not_elem_of_nil in H.
Qed.

Lemma step_handed (w : World) (o : Op) r : r ∈ handed w → r ∈ handed (step w o).
Proof.
  intros Hr.
  destruct o as [v| |l|l|id l|id l|limit|id| | |r' xs]; cbn [step]; try done.
  - unfold addViolation.
    destruct (notifyListeners_same
                (AfterNotifyListeners v :: stack (record_violation v w))
                (record_violation v w)) as (_ & _ & _ & ->).
    destruct (record_violation_rest v w) as (_ & _ & _ & _ & _ & -> & _).
    apply elem_of_app. by left.
  - destruct (clear_same w) as (_ & _ & _ & Hh). rewrite Hh.
    apply elem_of_app. by left.
  - destruct (subscribe_same l w) as (_ & _ & _ & -> & _). apply elem_of_app. by left.
  - rewrite subscribeToExecution_eq. by destruct (_ !! id).
  - rewrite unsubscribeExecution_eq. destruct (_ !! id); [|done].
    cbv zeta. by destruct (_ =? _)%nat.
  - rewrite getViolations_eq, hand_out_eq. simpl. apply elem_of_app. by left.
  - unfold getViolationsForExecution. rewrite hand_out_eq. simpl.
    apply elem_of_app. by left.
  - unfold listener_returns. destruct (stack w) as [|[] rest]; try done.
    by destruct (resume_same rest w) as (_ & _ & _ & ->).
  - unfold listener_throws. by destruct (stack w) as [|[] rest].
  - unfold write. by case_decide.
Qed.

Lemma run_calls_handed (ops : list Op) (w : World) :
  wf w →
  (∀ l r, BroadcastCall l r ∈ calls w → r ∈ handed w) →
  ∀ l r, BroadcastCall l r ∈ calls (run ops w) → r ∈ handed (run ops w).
Proof.
  revert w. induction ops as [|o ops IH]; intros w Hw Hold; [done|].
  simpl. apply IH; [by apply step_wf|].
  intros l r Hin. rewrite (step_calls w o Hw) in Hin.
  apply elem_of_app in Hin as [Hin|Hin].
  - eapply step_handed, Hold, Hin.
  - pose proof (step_new_calls w o Hw) as Hall. rewrite Forall_forall in Hall.
    by destruct (Hall _ Hin) as [Hr _].
Qed.

(** X7.  No reference to [this.violations] leaves the store.  After
    every history of a new store, the array of each call of a broadcast
    subscriber and the arrays [getViolations] and
    [getViolationsForExecution] return are arrays that were handed out;
    a handed-out array is never the array of the store, not even after
    later calls; so whatever a holder writes to such an array, the store
    holds what it held, and [getCount] and [getTotalCount] are as they
    were. *)
Theorem internal_array_never_handed_out (ops : list Op) :
  let w := run ops new_world in
  (∀ l r, BroadcastCall l r ∈ calls w → r ∈ handed w)
  ∧ (∀ limit, (getViolations limit w).1 ∈ handed (getViolations limit w).2)
  ∧ (∀ id, (getViolationsForExecution id w).1
           ∈ handed (getViolationsForExecution id w).2)
  ∧ (∀ r, r ∈ handed w →
       r ≠ violations (store w)
       ∧ ∀ xs, stored (write r xs w) = stored w
               ∧ getCount (write r xs w) = getCount w
               ∧ getTotalCount (write r xs w) = getTotalCount w
               ∧ store (write r xs w) = store w).
Proof.
  intros w. assert (Hw : wf w) by apply run_wf, new_world_wf.
  split_and!.
  - apply run_calls_handed; [apply new_world_wf|].
    intros l r H. by apply not_elem_of_nil in H.
  - intros limit. rewrite getViolations_eq, hand_out_eq. simpl.
    apply elem_of_app. right. by left.
  - intros id. unfold getViolationsForExecution. rewrite hand_out_eq. simpl.
    apply elem_of_app. right. by left.
  - intros r Hr. destruct (wf_handed _ Hw r Hr) as [_ Hne]. split; [done|].
    intros xs. unfold write. rewrite decide_True by done.
    assert (Hs : stored (mutate r xs w) = stored w).
    { unfold stored, mutate. simpl. apply array_get_mutate_ne. congruence. }
    unfold getCount, getTotalCount. by rewrite Hs.
Qed.

End ViolationStoreLaws.

(** ** More on the Unix-socket supervisor *)

Module SupervisorLaws.
Import Supervisor SupervisorSpec.

(** *** Processes that are not signalled *)

Lemma undisturbed_refl (h : Host) : undisturbed h h.
Proof. intros p path st H. exists st. eauto. Qed.

Lemma undisturbed_trans (h1 h2 h3 : Host) :
  undisturbed h1 h2 → undisturbed h2 h3 → undisturbed h1 h3.
Proof.
  intros H12 H23 p path st H.
  destruct (H12 p path st H) as (st2 & H2 & Hs2).
  destruct (H23 p path st2 H2) as (st3 & H3 & Hs3).
  exists st3. split; [done|].
  destruct Hs2 as [->|[-> ->]]; destruct Hs3 as [->|[? ->]]; eauto; done.
Qed.

Lemma undisturbed_same (h h' : Host) : procs h' = procs h → undisturbed h h'.
Proof. intros E p path st H. exists st. rewrite E. eauto. Qed.

Lemma undisturbed_None (h h' : Host) p :
  undisturbed h h' → procs h' !! p = None → procs h !! p = None.
Proof.
  intros H Hp. destruct (procs h !! p) as [[path st]|] eqn:E; [|done].
  destruct (H p path st E) as (? & H' & _). by rewrite Hp in H'.
Qed.

Lemma apply_action_procs (a : EnvAction) (h : Host) p :
  procs (apply_action h a) !! p = procs h !! p
  ∨ ∃ path, procs h !! p = Some (path, Running)
            ∧ procs (apply_action h a) !! p = Some (path, Exited).
Proof.
  destruct a as [q|q]; simpl.
  - left. destruct (procs h !! q) as [[path []]|]; try done.
    by destruct (existsSync path h).
  - destruct (procs h !! q) as [[path st]|] eqn:E; [|by left].
    destruct st; try by left. simpl.
    destruct (decide (q = p)) as [->|Hne].
    + right. exists path. by rewrite lookup_insert_eq.
    + left. by rewrite lookup_insert_ne.
Qed.

Lemma environment_procs (acts : list EnvAction) (h : Host) p :
  procs (environment acts h) !! p = procs h !! p
  ∨ ∃ path, procs h !! p = Some (path, Running)
            ∧ procs (environment acts h) !! p = Some (path, Exited).
Proof.
  revert h. induction acts as [|a acts IH]; intros h; [by left|].
  simpl. destruct (IH (apply_action h a)) as [H|(path & H1 & H2)];
    destruct (apply_action_procs a h p) as [H'|(path' & H1' & H2')].
  - left. congruence.
  - right. exists path'. split; [done|]. congruence.
  - right. exists path. split; [congruence|done].
  - rewrite H2' in H1. done.
Qed.

Lemma undisturbed_environment acts (h : Host) : undisturbed h (environment acts h).
Proof.
  intros p path st H.
  destruct (environment_procs acts h p) as [E|(path' & H1 & H2)].
  - exists st. rewrite E. eauto.
  - rewrite H in H1. injection H1 as <- ->. exists Exited. eauto.
Qed.

Lemma none_signalled_refl (h : Host) : none_signalled h h.
Proof. by intros p path H. Qed.

Lemma none_signalled_trans (h1 h2 h3 : Host) :
  none_signalled h1 h2 → none_signalled h2 h3 → none_signalled h1 h3.
Proof. intros H12 H23 p path H. by apply H12, H23. Qed.

Lemma none_signalled_same (h h' : Host) : procs h' = procs h → none_signalled h h'.
Proof. intros E p path. by rewrite E. Qed.

Lemma none_signalled_environment acts (h : Host) :
  none_signalled h (environment acts h).
Proof.
  intros p path H.
  destruct (environment_procs acts h p) as [E|(path' & H1 & H2)].
  - by rewrite <- E.
  - rewrite H in H2. done.
Qed.

Lemma environment_dom acts (h : Host) p :
  procs (environment acts h) !! p = None ↔ procs h !! p = None.
Proof.
  destruct (environment_procs acts h p) as [E|(path' & H1 & H2)].
  - by rewrite E.
  - rewrite H1, H2. done.
Qed.


Lemma spawn_socat_procs (path : string) (started : bool) (h h' : Host) child :
  spawn_socat path started h = (child, h') →
  files h' = files h ∧ debug h' = debug h
  ∧ match pid child with
    | Some p => child = child_of p ∧ procs h !! p = None
                ∧ procs h' = <[p := (path, Running)]> (procs h)
    | None => h' = h
    end.
Proof.
  unfold spawn_socat. destruct started; intros [= <- <-]; simpl; [|done].
  split_and!; try done.
  apply not_elem_of_dom, is_fresh.
Qed.

Lemma undisturbed_insert_new (h h' : Host) p e :
  procs h !! p = None → procs h' = <[p := e]> (procs h) → undisturbed h h'.
Proof.
  intros Hp E q path st H. exists st. rewrite E.
  rewrite lookup_insert_ne by congruence. eauto.
Qed.

Lemma none_signalled_insert_running (h h' : Host) p path :
  procs h !! p = None → procs h' = <[p := (path, Running)]> (procs h) →
  none_signalled h h'.
Proof.
  intros Hp E q path' H. rewrite E in H.
  destruct (decide (p = q)) as [->|Hne].
  - rewrite lookup_insert_eq in H. done.
  - by rewrite lookup_insert_ne in H.
Qed.

Section AttemptMore.
Variable join : string → string → string.
Variable tmpdir : string.

(** The spawn loop and the wait loop signal no process. *)
Lemma spawn_forwarders_calm (env : AttemptEnv) ms k sp (h : Host) e sp' h' :
  spawn_forwarders env ms k sp h = (e, sp', h') →
  undisturbed h h' ∧ none_signalled h h'.
Proof.
  revert k sp h. induction ms as [|m ms IH]; intros k sp h Hs; simpl in Hs.
  - injection Hs as <- <- <-. split; [apply undisturbed_refl|apply none_signalled_refl].
  - set (h0 := logForDebugging _ h) in Hs.
    destruct (if existsSync (hostPath m) h0 then unlinkSync (hostPath m) h0
              else Some h0) as [h1|] eqn:Hc.
    2:{ injection Hs as <- <- <-.
        split; [by apply undisturbed_same|by apply none_signalled_same]. }
    assert (Hp1 : procs h1 = procs h).
    { destruct (existsSync (hostPath m) h0).
      - apply unlinkSync_Some in Hc. by rewrite Hc.
      - by injection Hc as <-. }
    destruct (spawn_socat (hostPath m) (spawn_started env k) h1) as [child h2] eqn:Hsp.
    destruct (spawn_socat_procs _ _ _ _ _ Hsp) as (_ & _ & Hchild).
    destruct (pid child) as [p|] eqn:Hpid.
    + destruct Hchild as (_ & Hnew & Hp2).
      apply IH in Hs as [H1 H2]. rewrite Hp1 in Hnew, Hp2. split.
      * eapply undisturbed_trans; [|eapply undisturbed_trans; [|exact H1]].
        -- by eapply undisturbed_insert_new.
        -- apply undisturbed_environment.
      * eapply none_signalled_trans; [|eapply none_signalled_trans; [|exact H2]].
        -- by eapply none_signalled_insert_running.
        -- apply none_signalled_environment.
    + injection Hs as <- <- <-. subst h2.
      split; [by apply undisturbed_same|by apply none_signalled_same].
Qed.

Lemma wait_for_sockets_calm ms checks (h : Host) ok h' :
  wait_for_sockets ms checks h = (ok, h') →
  undisturbed h h' ∧ none_signalled h h'.
Proof.
  revert h. induction checks as [|acts checks IH]; intros h Hw; simpl in Hw.
  - injection Hw as <- <-. split; [apply undisturbed_refl|apply none_signalled_refl].
  - destruct (forallb _ ms).
    + injection Hw as <- <-. split.
      * eapply undisturbed_trans; [apply undisturbed_environment|].
        by apply undisturbed_same.
      * eapply none_signalled_trans; [apply none_signalled_environment|].
        by apply none_signalled_same.
    + apply IH in Hw as [H1 H2]. split.
      * eapply undisturbed_trans; [apply undisturbed_environment|done].
      * eapply none_signalled_trans; [apply none_signalled_environment|done].
Qed.

Lemma spawn_forwarders_spawned_after (env : AttemptEnv) ms k sp (h0 h : Host) e sp' h' :
  spawn_forwarders env ms k sp h = (e, sp', h') →
  undisturbed h0 h → spawned_after h0 sp → spawned_after h0 sp'.
Proof.
  revert k sp h. induction ms as [|m ms IH]; intros k sp h Hs Hu Hsp; simpl in Hs.
  - by injection Hs as <- <- <-.
  - set (h1 := logForDebugging _ h) in Hs.
    destruct (if existsSync (hostPath m) h1 then unlinkSync (hostPath m) h1
              else Some h1) as [h2|] eqn:Hc.
    2:{ by injection Hs as <- <- <-. }
    assert (Hp2 : procs h2 = procs h).
    { destruct (existsSync (hostPath m) h1).
      - apply unlinkSync_Some in Hc. by rewrite Hc.
      - by injection Hc as <-. }
    destruct (spawn_socat (hostPath m) (spawn_started env k) h2) as [child h3] eqn:Hspawn.
    destruct (spawn_socat_procs _ _ _ _ _ Hspawn) as (_ & _ & Hchild).
    destruct (pid child) as [p|] eqn:Hpid.
    + destruct Hchild as (-> & Hnew & Hp3). rewrite Hp2 in Hnew, Hp3.
      eapply IH; [exact Hs| |].
      * eapply undisturbed_trans; [exact Hu|].
        eapply undisturbed_trans; [|apply undisturbed_environment].
        by eapply undisturbed_insert_new.
      * intros c q [Hc'|Hc']%elem_of_app Hq.
        -- by eapply Hsp.
        -- apply list_elem_of_singleton in Hc' as ->.
           injection Hq as <-. by eapply undisturbed_None.
    + by injection Hs as <- <- <-.
Qed.

Lemma process_kill_procs (p : positive) (h h' : Host) q :
  process_kill p h = Some h' → q ≠ p → procs h' !! q = procs h !! q.
Proof.
  unfold process_kill. destruct (procs h !! p) as [[path st]|]; [|done].
  destruct st; intros [= <-] Hq; simpl; try done.
  by rewrite lookup_insert_ne.
Qed.

Lemma kill_spawned_foreign (h0 : Host) sp (h : Host) :
  undisturbed h0 h → spawned_after h0 sp → undisturbed h0 (kill_spawned sp h).
Proof.
  revert h. induction sp as [|c sp IH]; intros h Hu Hsp; [done|].
  simpl. apply IH.
  - destruct (pid c) as [p|] eqn:Hp; [|done].
    destruct (negb (killed c)); [|done].
    destruct (process_kill p h) as [h'|] eqn:Hk; [|done].
    intros q path st Hq. destruct (Hu q path st Hq) as (st' & H1 & H2).
    exists st'. split; [|done].
    rewrite (process_kill_procs _ _ _ q Hk); [done|].
    intros ->. rewrite (Hsp c p) in Hq; [done|apply list_elem_of_here|done].
  - intros c' p Hin. apply Hsp. by apply list_elem_of_further.
Qed.

Lemma cleanup_foreign (h0 : Host) sp ms (h : Host) :
  undisturbed h0 h → spawned_after h0 sp → undisturbed h0 (cleanup sp ms h).
Proof.
  intros Hu Hsp. unfold cleanup.
  eapply undisturbed_trans; [by apply kill_spawned_foreign|].
  apply undisturbed_same. apply unlink_sockets_spec.
Qed.

Lemma attempt_undisturbed ms runId env (h : Host) res h' :
  attemptStartSupervisor join tmpdir ms runId env h = (res, h') →
  undisturbed h h'
  ∧ (∀ ctx, res = inr ctx → none_signalled h h').
Proof.
  unfold attemptStartSupervisor. destruct (missing_parent join ms h).
  { intros [= <- <-]. split; [apply undisturbed_refl|done]. }
  destruct (spawn_forwarders env ms 0 [] h) as [[e sp] h1] eqn:Hs.
  destruct (spawn_forwarders_calm _ _ _ _ _ _ _ _ Hs) as [Hu1 Hn1].
  assert (Hsp : spawned_after h sp).
  { eapply spawn_forwarders_spawned_after; [exact Hs|apply undisturbed_refl|].
    by intros c p ?%not_elem_of_nil. }
  destruct e as [error|].
  { intros [= <- <-]. split; [by apply cleanup_foreign|done]. }
  destruct (wait_for_sockets ms (polls env) h1) as [ok h2] eqn:Hw.
  destruct (wait_for_sockets_calm _ _ _ _ _ Hw) as [Hu2 Hn2].
  destruct ok; intros [= <- <-].
  - split; [by eapply undisturbed_trans|].
    intros _ _. by eapply none_signalled_trans.
  - split; [|done]. apply cleanup_foreign; [by eapply undisturbed_trans|done].
Qed.

Lemma attempts_undisturbed ms runId envs delay remaining lastError (h : Host) res h' :
  attempts join tmpdir ms runId envs delay remaining lastError h = (res, h') →
  undisturbed h h'.
Proof.
  revert lastError h. induction remaining as [|n remaining IH]; intros lastError h Ha.
  - simpl in Ha. injection Ha as <- <-. apply undisturbed_refl.
  - simpl in Ha.
    destruct (attemptStartSupervisor join tmpdir ms runId (envs n)
                (logForDebugging (LogStarting n) h)) as [[error|ctx] h1] eqn:Hat;
      apply attempt_undisturbed in Hat as [Hu _].
    + apply IH in Ha.
      eapply undisturbed_trans;
        [by apply (undisturbed_same h (logForDebugging (LogStarting n) h))|].
      eapply undisturbed_trans; [exact Hu|].
      eapply undisturbed_trans; [|exact Ha].
      destruct (n <? _)%nat.
      * eapply undisturbed_trans; [|apply undisturbed_environment].
        by apply undisturbed_same.
      * by apply undisturbed_same.
    + injection Ha as <- <-.
      eapply undisturbed_trans;
        [by apply (undisturbed_same h (logForDebugging (LogStarting n) h))|].
      eapply undisturbed_trans; [exact Hu|].
      by apply undisturbed_same.
Qed.

(** *** A successful attempt *)

Lemma free_or_bound_same (h h' : Host) path :
  files h' = files h → free_or_bound h path → free_or_bound h' path.
Proof. unfold free_or_bound. by intros ->. Qed.

Lemma free_or_bound_unlink (h h' : Host) path path' :
  unlinkSync path' h = Some h' → free_or_bound h path → free_or_bound h' path.
Proof.
  intros ->%unlinkSync_Some. unfold free_or_bound. simpl.
  destruct (decide (path' = path)) as [->|Hne].
  - rewrite lookup_delete_eq. by left.
  - by rewrite lookup_delete_ne.
Qed.

Lemma free_or_bound_action (a : EnvAction) (h : Host) path :
  free_or_bound h path → free_or_bound (apply_action h a) path.
Proof.
  unfold free_or_bound. destruct a as [p|p]; simpl.
  - destruct (procs h !! p) as [[path' []]|]; try done.
    destruct (existsSync path' h) eqn:E; [done|]. simpl.
    destruct (decide (path' = path)) as [->|Hne].
    + rewrite lookup_insert_eq. by right.
    + by rewrite lookup_insert_ne.
  - by destruct (procs h !! p) as [[path' []]|].
Qed.

Lemma free_or_bound_environment acts (h : Host) path :
  free_or_bound h path → free_or_bound (environment acts h) path.
Proof.
  revert h. induction acts as [|a acts IH]; intros h H; [done|].
  simpl. by apply IH, free_or_bound_action.
Qed.

Lemma spawn_forwarders_free_or_bound (env : AttemptEnv) ms k sp (h : Host) e sp' h' :
  spawn_forwarders env ms k sp h = (e, sp', h') →
  (∀ path, free_or_bound h path → free_or_bound h' path)
  ∧ (e = None → ∀ m, m ∈ ms → free_or_bound h' (hostPath m)).
Proof.
  revert k sp h. induction ms as [|m ms IH]; intros k sp h Hs; simpl in Hs.
  - injection Hs as <- <- <-. split; [done|]. by intros _ m ?%not_elem_of_nil.
  - set (h0 := logForDebugging _ h) in Hs.
    destruct (if existsSync (hostPath m) h0 then unlinkSync (hostPath m) h0
              else Some h0) as [h1|] eqn:Hc.
    2:{ injection Hs as <- <- <-. split; [|done].
        intros path. by apply free_or_bound_same. }
    assert (H01 : ∀ path, free_or_bound h path → free_or_bound h1 path).
    { intros path Hp. destruct (existsSync (hostPath m) h0).
      - by apply (free_or_bound_unlink h0 h1 path (hostPath m)).
      - by injection Hc as <-. }
    assert (Hm1 : free_or_bound h1 (hostPath m)).
    { destruct (existsSync (hostPath m) h0) eqn:Hex.
      - apply unlinkSync_Some in Hc as ->. left. simpl. apply lookup_delete_eq.
      - injection Hc as <-. left. by apply existsSync_false in Hex. }
    destruct (spawn_socat (hostPath m) (spawn_started env k) h1) as [child h2] eqn:Hsp.
    destruct (spawn_socat_procs _ _ _ _ _ Hsp) as (Hf2 & _ & _).
    destruct (pid child) as [p|] eqn:Hpid.
    + apply IH in Hs as [H1 H2].
      assert (H13 : ∀ path, free_or_bound h1 path →
                            free_or_bound (environment (after_spawn env k) h2) path).
      { intros path Hp. apply free_or_bound_environment.
        by apply (free_or_bound_same h1). }
      split.
      * intros path Hp. by apply H1, H13, H01.
      * intros He m' [->|Hin]%elem_of_cons; [by apply H1, H13|by apply H2].
    + injection Hs as <- <- <-. split; [|done].
      intros path Hp. apply (free_or_bound_same h1); [done|by apply H01].
Qed.

Lemma wait_for_sockets_free_or_bound ms checks (h : Host) ok h' path :
  wait_for_sockets ms checks h = (ok, h') →
  free_or_bound h path → free_or_bound h' path.
Proof.
  revert h. induction checks as [|acts checks IH]; intros h Hw Hp; simpl in Hw.
  - by injection Hw as <- <-.
  - destruct (forallb _ ms).
    + injection Hw as <- <-.
      apply (free_or_bound_same (environment acts h)); [done|].
      by apply free_or_bound_environment.
    + eapply IH; [exact Hw|]. by apply free_or_bound_environment.
Qed.

Lemma wait_for_sockets_true ms checks (h : Host) h' :
  wait_for_sockets ms checks h = (true, h') →
  (∀ m, m ∈ ms → is_Some (files h' !! hostPath m))
  ∧ last (debug h') = Some LogAllCreated.
Proof.
  revert h. induction checks as [|acts checks IH]; intros h Hw; simpl in Hw; [done|].
  destruct (forallb _ ms) eqn:Hall.
  - injection Hw as <-. split.
    + intros m Hin. rewrite forallb_forall in Hall.
      apply list_elem_of_In, Hall in Hin.
      unfold existsSync in Hin. by apply bool_decide_eq_true in Hin.
    + simpl. apply last_snoc.
  - by apply IH in Hw.
Qed.

(** The processes of a spawn loop that ran to its end: one for each
    mapping, in order. *)
Lemma spawn_forwarders_success (env : AttemptEnv) ms k sp (h : Host) sp' h' :
  spawn_forwarders env ms k sp h = (None, sp', h') →
  ∃ ps, sp' = sp ++ map child_of ps
        ∧ Forall2 (λ m p, procs h !! p = None
                          ∧ ∃ st, procs h' !! p = Some (hostPath m, st)) ms ps
        ∧ NoDup ps
        ∧ (∀ q, procs h !! q = None → is_Some (procs h' !! q) → q ∈ ps).
Proof.
  revert k sp h. induction ms as [|m ms IH]; intros k sp h Hs; simpl in Hs.
  - injection Hs as <- <-. exists []. rewrite app_nil_r.
    split_and!; [done|constructor|constructor|].
    intros q Hq [x Hx]. by rewrite Hq in Hx.
  - set (h0 := logForDebugging _ h) in Hs.
    destruct (if existsSync (hostPath m) h0 then unlinkSync (hostPath m) h0
              else Some h0) as [h1|] eqn:Hc; [|done].
    assert (Hp1 : procs h1 = procs h).
    { destruct (existsSync (hostPath m) h0).
      - apply unlinkSync_Some in Hc. by rewrite Hc.
      - by injection Hc as <-. }
    destruct (spawn_socat (hostPath m) (spawn_started env k) h1) as [child h2] eqn:Hsp.
    destruct (spawn_socat_procs _ _ _ _ _ Hsp) as (_ & _ & Hchild).
    destruct (pid child) as [p|] eqn:Hpid; [|done].
    destruct Hchild as (-> & Hnew & Hp2). rewrite Hp1 in Hnew, Hp2.
    set (h3 := environment (after_spawn env k) h2) in Hs.
    destruct (spawn_forwarders_calm _ _ _ _ _ _ _ _ Hs) as [Hu _].
    apply IH in Hs as (ps & -> & Hall & Hnd & Hnew').
    assert (Hp3 : ∃ st, procs h3 !! p = Some (hostPath m, st)).
    { destruct (undisturbed_environment (after_spawn env k) h2 p (hostPath m) Running)
        as (st & H & _); [|by exists st].
      rewrite Hp2. apply lookup_insert_eq. }
    assert (Hdom : ∀ q, procs h3 !! q = None ↔ procs h !! q = None ∧ q ≠ p).
    { intros q. unfold h3. rewrite environment_dom, Hp2.
      destruct (decide (p = q)) as [->|Hne].
      - rewrite lookup_insert_eq. split; [done|]. by intros [_ ?].
      - rewrite lookup_insert_ne by done.
        split; [intros ?; split; [done|congruence]|by intros [? _]]. }
    exists (p :: ps). split_and!.
    + by rewrite <- app_assoc.
    + constructor.
      * split; [done|]. destruct Hp3 as (st & H3).
        destruct (Hu p _ _ H3) as (st' & H' & _). by exists st'.
      * eapply Forall2_impl; [exact Hall|].
        intros m' q [Hq Hst]. split; [|done]. by apply Hdom in Hq as [? _].
    + constructor; [|done]. intros Hin.
      apply list_elem_of_lookup in Hin as [i Hi].
      destruct (Forall2_lookup_r _ _ _ _ _ Hall Hi) as (m' & _ & Hq & _).
      destruct Hp3 as (st & H3). by rewrite H3 in Hq.
    + intros q Hq Hsome. destruct (decide (q = p)) as [->|Hne]; [by left|].
      right. apply Hnew'; [|done]. by apply Hdom.
Qed.

Lemma wait_for_sockets_dom ms checks (h : Host) ok h' q :
  wait_for_sockets ms checks h = (ok, h') →
  procs h' !! q = None ↔ procs h !! q = None.
Proof.
  revert h. induction checks as [|acts checks IH]; intros h Hw; simpl in Hw.
  - by injection Hw as <- <-.
  - destruct (forallb _ ms).
    + injection Hw as <- <-. simpl. apply environment_dom.
    + rewrite (IH _ Hw). apply environment_dom.
Qed.

Lemma attempt_success ms runId env (h : Host) ctx h' :
  attemptStartSupervisor join tmpdir ms runId env h = (inr ctx, h') →
  mappings ctx = ms
  ∧ controlSocketPath ctx
    = join tmpdir ("srt-unix-supervisor-" +:+ runId +:+ "-" +:+ socketId env +:+ ".sock")
  ∧ (∀ m, m ∈ ms → files h' !! hostPath m = Some (mkFile Socket true))
  ∧ last (debug h') = Some LogAllCreated
  ∧ ∃ ps, supervisorProcess ctx = child_of <$> head ps
          ∧ Forall2 (λ m p, procs h !! p = None
                            ∧ ∃ st, procs h' !! p = Some (hostPath m, st)
                                    ∧ st ≠ Terminated) ms ps
          ∧ NoDup ps
          ∧ (∀ q, spawned_between h h' q → q ∈ ps).
Proof.
  intros Ha. destruct (attempt_undisturbed _ _ _ _ _ _ Ha) as [_ Hns].
  specialize (Hns ctx eq_refl).
  unfold attemptStartSupervisor in Ha. destruct (missing_parent join ms h); [done|].
  destruct (spawn_forwarders env ms 0 [] h) as [[e sp] h1] eqn:Hs.
  destruct e as [error|]; [done|].
  destruct (wait_for_sockets ms (polls env) h1) as [ok h2] eqn:Hw.
  destruct ok; [|done]. injection Ha as <- <-.
  destruct (spawn_forwarders_free_or_bound _ _ _ _ _ _ _ _ Hs) as [_ Hfree].
  destruct (wait_for_sockets_true _ _ _ _ Hw) as [Hex Hlast].
  destruct (wait_for_sockets_calm _ _ _ _ _ Hw) as [Hu2 _].
  destruct (spawn_forwarders_success _ _ _ _ _ _ _ Hs) as (ps & -> & Hall & Hnd & Hnew).
  split_and!; try done.
  - intros m Hin.
    destruct (wait_for_sockets_free_or_bound _ _ _ _ _ (hostPath m) Hw
                (Hfree eq_refl m Hin)) as [Hnone|Hsome]; [|done].
    destruct (Hex m Hin) as [x Hx]. by rewrite Hnone in Hx.
  - exists ps. split_and!.
    + simpl. by destruct ps.
    + eapply Forall2_impl; [exact Hall|].
      intros m p [Hp (st & Hst)]. split; [done|].
      destruct (Hu2 p _ _ Hst) as (st' & Hst' & _). exists st'. split; [done|].
      intros ->. apply Hns in Hst'. by rewrite Hp in Hst'.
    + done.
    + intros q [Hq Hsome]. apply Hnew; [done|].
      destruct (procs h1 !! q) eqn:E; [done|].
      apply (wait_for_sockets_dom _ _ _ _ _ q Hw) in E.
      destruct Hsome as [x Hx]. by rewrite E in Hx.
Qed.

Lemma attempts_success ms runId envs delay remaining lastError (h : Host) ctx h' :
  attempts join tmpdir ms runId envs delay remaining lastError h = (inr ctx, h') →
  ∃ n hb ha, n ∈ remaining ∧ undisturbed h hb
             ∧ attemptStartSupervisor join tmpdir ms runId (envs n) hb = (inr ctx, ha)
             ∧ h' = logForDebugging (LogStarted n) ha.
Proof.
  revert lastError h. induction remaining as [|n remaining IH]; intros lastError h Ha.
  - done.
  - simpl in Ha.
    destruct (attemptStartSupervisor join tmpdir ms runId (envs n)
                (logForDebugging (LogStarting n) h)) as [[error|ctx'] h1] eqn:Hat.
    + destruct (attempt_undisturbed _ _ _ _ _ _ Hat) as [Hu _].
      apply IH in Ha as (n' & hb & ha & Hin & Hub & Hab & ->).
      exists n', hb, ha. split_and!; try done; [by right|].
      eapply undisturbed_trans; [|exact Hub].
      eapply undisturbed_trans;
        [by apply (undisturbed_same h (logForDebugging (LogStarting n) h))|].
      eapply undisturbed_trans; [exact Hu|].
      destruct (n <? _)%nat.
      * eapply undisturbed_trans; [|apply undisturbed_environment].
        by apply undisturbed_same.
      * by apply undisturbed_same.
    + injection Ha as <- <-.
      exists n, (logForDebugging (LogStarting n) h), h1.
      split_and!; [by left|by apply undisturbed_same|done|done].
Qed.

(** X1.  When [startUnixSocketSupervisor] returns a context, the
    mappings it was given are not empty and are those of the context;
    every host path holds a socket that a forwarder has bound; the last
    entry of the log is the success message of an attempt numbered below
    3; one forwarder was spawned for each mapping, in order, with a pid
    that no process of the host had before the call, listening on the
    host path of its mapping and not signalled; the pids are distinct, and
    [supervisorProcess] is the handle of the first of them alone. *)
Theorem start_success_contract ms runId envs delay (h : Host) ctx h' :
  startUnixSocketSupervisor join tmpdir ms runId envs delay h = (inr ctx, h') →
  ms = Some (mappings ctx) ∧ mappings ctx ≠ []
  ∧ (∀ m, m ∈ mappings ctx → files h' !! hostPath m = Some (mkFile Socket true))
  ∧ (∃ n, (n < 3)%nat ∧ last (debug h') = Some (LogStarted n))
  ∧ ∃ ps, supervisorProcess ctx = child_of <$> head ps
          ∧ length ps = length (mappings ctx)
          ∧ Forall2 (λ m p, procs h !! p = None
                            ∧ ∃ st, procs h' !! p = Some (hostPath m, st)
                                    ∧ st ≠ Terminated) (mappings ctx) ps
          ∧ NoDup ps.
Proof.
  intros Hs. unfold startUnixSocketSupervisor in Hs.
  destruct ms as [[|m ms]|]; [done| |done].
  apply attempts_success in Hs as (n & hb & ha & Hin & Hu & Ha & ->).
  apply attempt_success in Ha as (Hms & _ & Hfiles & _ & ps & Hsp & Hall & Hnd & _).
  rewrite Hms. split_and!; try done.
  - exists n. split; [|apply last_snoc].
    apply elem_of_seq in Hin. unfold MAX_RETRIES in Hin. simpl in Hin. lia.
  - exists ps. split_and!; try done.
    + symmetry. by eapply Forall2_length.
    + eapply Forall2_impl; [exact Hall|].
      intros m' p [Hp Hst]. split; [|done]. by eapply undisturbed_None.
Qed.

(** *** Files that cannot be removed *)


Lemma apply_action_keeps (a : EnvAction) (h : Host) path e :
  files h !! path = Some e → files (apply_action h a) !! path = Some e.
Proof.
  intros He. destruct a as [p|p]; simpl.
  - destruct (procs h !! p) as [[path' []]|]; try done.
    destruct (existsSync path' h) eqn:E; [done|]. simpl.
    apply existsSync_false in E.
    rewrite lookup_insert_ne; [done|]. intros ->. by rewrite E in He.
  - by destruct (procs h !! p) as [[path' []]|].
Qed.

Lemma environment_keeps acts (h : Host) path e :
  files h !! path = Some e → files (environment acts h) !! path = Some e.
Proof.
  revert h. induction acts as [|a acts IH]; intros h H; [done|].
  simpl. by apply IH, apply_action_keeps.
Qed.








(** *** The log of a start *)

Lemma attempt_log_same (h h' : Host) : debug h' = debug h → attempt_log h h'.
Proof. intros E. exists []. by rewrite app_nil_r. Qed.

Lemma attempt_log_trans (h1 h2 h3 : Host) :
  attempt_log h1 h2 → attempt_log h2 h3 → attempt_log h1 h3.
Proof.
  intros (x1 & E1 & H1) (x2 & E2 & H2). exists (x1 ++ x2).
  rewrite E2, E1, <- app_assoc. split; [done|].
  rewrite forallb_app, H1, H2. done.
Qed.

Lemma attempt_log_entry (e : LogEntry) (h : Host) :
  attempt_entry e = true → attempt_log h (logForDebugging e h).
Proof. intros He. exists [e]. simpl. by rewrite He. Qed.

Lemma spawn_forwarders_log (env : AttemptEnv) ms k sp (h : Host) e sp' h' :
  spawn_forwarders env ms k sp h = (e, sp', h') → attempt_log h h'.
Proof.
  revert k sp h. induction ms as [|m ms IH]; intros k sp h Hs; simpl in Hs.
  - injection Hs as <- <- <-. by apply attempt_log_same.
  - set (h0 := logForDebugging _ h) in Hs.
    assert (H0 : attempt_log h h0) by (by apply attempt_log_entry).
    destruct (if existsSync (hostPath m) h0 then unlinkSync (hostPath m) h0
              else Some h0) as [h1|] eqn:Hc.
    2:{ by injection Hs as <- <- <-. }
    assert (Hd1 : debug h1 = debug h0).
    { destruct (existsSync (hostPath m) h0).
      - apply unlinkSync_Some in Hc. by rewrite Hc.
      - by injection Hc as <-. }
    destruct (spawn_socat (hostPath m) (spawn_started env k) h1) as [child h2] eqn:Hsp.
    destruct (spawn_socat_procs _ _ _ _ _ Hsp) as (_ & Hd2 & _).
    destruct (pid child) as [p|] eqn:Hpid.
    + apply IH in Hs. eapply attempt_log_trans; [exact H0|].
      eapply attempt_log_trans; [|exact Hs].
      apply attempt_log_same. rewrite environment_debug. congruence.
    + injection Hs as <- <- <-. eapply attempt_log_trans; [exact H0|].
      apply attempt_log_same. congruence.
Qed.

Lemma wait_for_sockets_log ms checks (h : Host) ok h' :
  wait_for_sockets ms checks h = (ok, h') → attempt_log h h'.
Proof.
  revert h. induction checks as [|acts checks IH]; intros h Hw; simpl in Hw.
  - injection Hw as <- <-. by apply attempt_log_same.
  - destruct (forallb _ ms).
    + injection Hw as <- <-.
      eapply attempt_log_trans; [|by apply attempt_log_entry].
      apply attempt_log_same, environment_debug.
    + eapply attempt_log_trans; [|by apply IH].
      apply attempt_log_same, environment_debug.
Qed.

Lemma cleanup_debug sp ms (h : Host) : debug (cleanup sp ms h) = debug h.
Proof.
  unfold cleanup.
  destruct (unlink_sockets_spec ms (kill_spawned sp h)) as (_ & -> & _).
  by destruct (kill_spawned_spec sp h) as (_ & -> & _).
Qed.

Lemma attempt_log_attempt ms runId env (h : Host) res h' :
  attemptStartSupervisor join tmpdir ms runId env h = (res, h') → attempt_log h h'.
Proof.
  unfold attemptStartSupervisor. destruct (missing_parent join ms h).
  { intros [= <- <-]. by apply attempt_log_same. }
  destruct (spawn_forwarders env ms 0 [] h) as [[e sp] h1] eqn:Hs.
  apply spawn_forwarders_log in Hs.
  destruct e as [error|].
  { intros [= <- <-]. eapply attempt_log_trans; [exact Hs|].
    apply attempt_log_same, cleanup_debug. }
  destruct (wait_for_sockets ms (polls env) h1) as [ok h2] eqn:Hw.
  apply wait_for_sockets_log in Hw.
  destruct ok; intros [= <- <-].
  - by eapply attempt_log_trans.
  - eapply attempt_log_trans; [exact Hs|]. eapply attempt_log_trans; [exact Hw|].
    apply attempt_log_same, cleanup_debug.
Qed.

Lemma attempt_log_omap {A} (f : LogEntry → option A) (h h' : Host) :
  (∀ e, attempt_entry e = true → f e = None) →
  attempt_log h h' → omap f (debug h') = omap f (debug h).
Proof.
  intros Hf (extra & -> & Hall). rewrite omap_app.
  assert (omap f extra = []) as ->; [|by rewrite app_nil_r].
  induction extra as [|e extra IH]; [done|].
  simpl in Hall. apply andb_true_iff in Hall as [He Hall].
  simpl. rewrite (Hf e He). by apply IH.
Qed.

Lemma attempt_log_projections (h h' : Host) :
  attempt_log h h' →
  failures h' = failures h ∧ retry_delays h' = retry_delays h
  ∧ successes h' = successes h ∧ attempts_started h' = attempts_started h.
Proof.
  intros H. split_and!; apply (attempt_log_omap _ h h'); try done; by intros [].
Qed.

(** One iteration of the loop of [startUnixSocketSupervisor]. *)
Lemma attempts_round ms runId envs delay n remaining lastError (h : Host) res h' :
  attempts join tmpdir ms runId envs delay (n :: remaining) lastError h = (res, h') →
  (∃ ctx, res = inr ctx
          ∧ failures h' = failures h ∧ retry_delays h' = retry_delays h
          ∧ successes h' = successes h ++ [n]
          ∧ attempts_started h' = attempts_started h ++ [n])
  ∨ (∃ error h3,
       attempts join tmpdir ms runId envs delay remaining (Some error) h3 = (res, h')
       ∧ failures h3
         = failures h ++ [(n, error, if (n =? MAX_RETRIES - 1)%nat then Err else Warn)]
       ∧ retry_delays h3
         = retry_delays h ++ (if (n <? MAX_RETRIES - 1)%nat
                              then [default 0 (RETRY_DELAYS_MS !! n)] else [])
       ∧ successes h3 = successes h
       ∧ attempts_started h3 = attempts_started h ++ [n]).
Proof.
  cbn [attempts]. intros Ha.
  destruct (attemptStartSupervisor join tmpdir ms runId (envs n)
              (logForDebugging (LogStarting n) h)) as [[error|ctx] h1] eqn:Hat;
    apply attempt_log_attempt, attempt_log_projections in Hat as (F & R & S & A).
  - right. exists error. eexists. split; [exact Ha|].
    unfold failures, retry_delays, successes, attempts_started in *.
    destruct (n <? MAX_RETRIES - 1)%nat; rewrite ?environment_debug; simpl in *;
      rewrite !omap_app; simpl; rewrite ?omap_app in *; simpl in *;
      rewrite ?app_nil_r in *; rewrite F, R, S, A; by rewrite ?app_nil_r.
  - left. injection Ha as <- <-. exists ctx. split; [done|].
    unfold failures, retry_delays, successes, attempts_started in *. simpl in *.
    rewrite !omap_app in *. simpl in *. rewrite ?app_nil_r in *.
    by rewrite F, R, S, A.
Qed.

(** X3.  The retry policy of [startUnixSocketSupervisor] as its log
    shows it.  A start with mappings reports one failure for each failed
    attempt, numbered from 0, at level warn but for the third, which is
    at level error; it announces a delay after each failure but the
    third, 200 ms and then 500 ms (the third entry of [RETRY_DELAYS_MS]
    is never used); it starts one attempt more than it reports failures,
    and three at most.  When it throws, three attempts have failed, no
    success is reported and the message is that of the third failure
    after a fixed prefix; when it returns, fewer than three attempts have
    failed and the success carries the number of the attempt. *)
Theorem retry_policy ms runId envs delay (h : Host) res h' :
  ms ≠ [] →
  startUnixSocketSupervisor join tmpdir (Some ms) runId envs delay h = (res, h') →
  ∃ errors : list string,
    failures h'
    = failures h ++ imap (λ n e, (n, e, if (n =? 2)%nat then Err else Warn)) errors
    ∧ retry_delays h' = retry_delays h ++ take (length errors) [200; 500]
    ∧ attempts_started h' = attempts_started h ++ take (S (length errors)) [0; 1; 2]%nat
    ∧ match res with
      | inl e =>
          length errors = 3%nat ∧ successes h' = successes h
          ∧ ∃ last, errors !! 2%nat = Some last
                    ∧ e = "Failed to start Unix socket supervisor after 3 attempts: "
                          +:+ last
      | inr _ => (length errors < 3)%nat ∧ successes h' = successes h ++ [length errors]
      end.
Proof.
  intros Hms Hs. unfold startUnixSocketSupervisor in Hs.
  destruct ms as [|m ms]; [done|]. clear Hms.
  change (seq 0 MAX_RETRIES) with [0; 1; 2]%nat in Hs.
  apply attempts_round in Hs
    as [(ctx & -> & F0 & R0 & S0 & A0)|(e0 & h0 & Hs & F0 & R0 & S0 & A0)].
  { exists []. simpl. rewrite !app_nil_r. split_and!; try done. lia. }
  apply attempts_round in Hs
    as [(ctx & -> & F1 & R1 & S1 & A1)|(e1 & h1 & Hs & F1 & R1 & S1 & A1)].
  { exists [e0]. simpl in *. rewrite F1, R1, S1, A1, F0, R0, S0, A0.
    rewrite <- !app_assoc. split_and!; try done. lia. }
  apply attempts_round in Hs
    as [(ctx & -> & F2 & R2 & S2 & A2)|(e2 & h2 & Hs & F2 & R2 & S2 & A2)].
  { exists [e0; e1]. simpl in *.
    rewrite F2, R2, S2, A2, F1, R1, S1, A1, F0, R0, S0, A0.
    rewrite <- !app_assoc. split_and!; try done. lia. }
  cbn [attempts] in Hs. injection Hs as <- <-.
  exists [e0; e1; e2]. simpl in *.
  rewrite F2, R2, S2, A2, F1, R1, S1, A1, F0, R0, S0, A0.
  rewrite <- !app_assoc, ?app_nil_r. split_and!; try done.
  by exists e2.
Qed.

(** X5.  A start signals no process but its own forwarders: whether it
    returns or throws, and whatever the forwarders do meanwhile, a process
    the host had before the call is still there on its path, in the state
    it had unless it was running and has exited.  (A pid is not used
    again while the host knows the process: [spawn_socat].) *)
Theorem start_signals_no_foreign_process ms runId envs delay (h : Host) res h' :
  startUnixSocketSupervisor join tmpdir ms runId envs delay h = (res, h') →
  ∀ p path st, procs h !! p = Some (path, st) →
    ∃ st', procs h' !! p = Some (path, st')
           ∧ (st' = st ∨ (st = Running ∧ st' = Exited)).
Proof.
  intros Hs. change (undisturbed h h').
  unfold startUnixSocketSupervisor in Hs.
  destruct ms as [[|m ms]|].
  - injection Hs as <- <-. apply undisturbed_refl.
  - by apply attempts_undisturbed in Hs.
  - injection Hs as <- <-. apply undisturbed_refl.
Qed.

End AttemptMore.

(** *** Stopping *)

Lemma apply_action_exit (a : EnvAction) (h : Host) p :
  procs (apply_action h a) !! p = procs h !! p
  ∨ ∃ path, procs h !! p = Some (path, Running)
            ∧ procs (apply_action h a) !! p = Some (path, Exited) ∧ a = Exit p.
Proof.
  destruct a as [q|q]; simpl.
  - left. destruct (procs h !! q) as [[path []]|]; try done.
    by destruct (existsSync path h).
  - destruct (procs h !! q) as [[path st]|] eqn:E; [|by left].
    destruct st; try by left. simpl.
    destruct (decide (q = p)) as [->|Hne].
    + right. exists path. by rewrite lookup_insert_eq.
    + left. by rewrite lookup_insert_ne.
Qed.

Lemma environment_exit (acts : list EnvAction) (h : Host) p :
  procs (environment acts h) !! p = procs h !! p
  ∨ ∃ path, procs h !! p = Some (path, Running)
            ∧ procs (environment acts h) !! p = Some (path, Exited) ∧ Exit p ∈ acts.
Proof.
  revert h. induction acts as [|a acts IH]; intros h; [by left|].
  simpl. destruct (IH (apply_action h a)) as [H|(path & H1 & H2 & H3)];
    destruct (apply_action_exit a h p) as [H'|(path' & H1' & H2' & ->)].
  - left. congruence.
  - right. exists path'. split_and!; [done|congruence|by left].
  - right. exists path. split_and!; [congruence|done|by right].
  - rewrite H2' in H1. done.
Qed.

Lemma unlink_sockets_frame ms (h : Host) path :
  path ∉ hostPath <$> ms → files (unlink_sockets ms h) !! path = files h !! path.
Proof.
  revert h. induction ms as [|m ms IH]; intros h Hp; [done|].
  rewrite fmap_cons in Hp. apply not_elem_of_cons in Hp as [Hne Hp].
  simpl. rewrite IH by done.
  destruct (existsSync (hostPath m) h); [|done].
  destruct (unlinkSync (hostPath m) h) as [h'|] eqn:Hu; [|done].
  apply unlinkSync_Some in Hu as ->. simpl. by rewrite lookup_delete_ne.
Qed.

Lemma stop_unlink_sockets_host ms (s : StopState) :
  stop_host (stop_unlink_sockets ms s) = unlink_sockets ms (stop_host s)
  ∧ stop_scheduled (stop_unlink_sockets ms s) = stop_scheduled s.
Proof.
  revert s. induction ms as [|m ms IH]; intros s; [done|].
  simpl. destruct (IH
    (if existsSync (hostPath m) (stop_host s)
     then match unlinkSync (hostPath m) (stop_host s) with
          | Some h' => stop_logForDebugging (LogCleanedUp (hostPath m)) (stop_set_host h' s)
          | None => stop_logForDebugging
                      (LogCleanupError (unlink_error (hostPath m) (stop_host s))) s
          end
     else s)) as [-> ->].
  destruct (existsSync (hostPath m) (stop_host s)); [|done].
  by destruct (unlinkSync (hostPath m) (stop_host s)).
Qed.

Lemma stop_unlink_control_host path (s : StopState) :
  stop_host (stop_unlink_control path s)
  = unlink_sockets [mkMapping path EmptyString] (stop_host s)
  ∧ stop_scheduled (stop_unlink_control path s) = stop_scheduled s.
Proof.
  unfold stop_unlink_control. simpl.
  destruct (existsSync path (stop_host s)); [|done].
  by destruct (unlinkSync path (stop_host s)).
Qed.

Lemma process_kill_Some (p : positive) (h h' : Host) :
  process_kill p h = Some h' →
  files h' = files h ∧ debug h' = debug h
  ∧ ∃ path st, procs h !! p = Some (path, st) ∧ st ≠ Exited
               ∧ procs h' = <[p := (path, Terminated)]> (procs h).
Proof.
  unfold process_kill. destruct (procs h !! p) as [[path st]|] eqn:E; [|done].
  destruct st; intros [= <-]; simpl; split_and!; try done.
  - by exists path, Running.
  - exists path, Terminated. split_and!; try done. by rewrite insert_id.
Qed.

(** The host after the first part of [stopUnixSocketSupervisor]. *)
Lemma stop_process_spec (proc : ChildProcess) (env : StopEnv) (s : StopState) :
  let h := stop_host s in
  let h1 := stop_host (stop_process proc env s) in
  (∀ p path st, pid proc = Some p → killed proc = false →
                procs h !! p = Some (path, st) → procs h1 !! p = Some (path, Exited))
  ∧ (∀ q path st, pid proc ≠ Some q → procs h !! q = Some (path, st) →
       procs h1 !! q = Some (path, st)
       ∨ (st = Running ∧ procs h1 !! q = Some (path, Exited)
          ∧ Exit q ∈ while_waiting env))
  ∧ (∀ q, procs h1 !! q = None ↔ procs h !! q = None)
  ∧ (∀ path e, files h !! path = Some e → files h1 !! path = Some e)
  ∧ created_or_old h h1
  ∧ debug h1 = debug h.
Proof.
  intros h h1. unfold h1, stop_process.
  assert (Hsame : let h1 := h in
    (∀ p path st, pid proc = Some p → killed proc = false →
                  procs h !! p = Some (path, st) → st = Exited →
                  procs h1 !! p = Some (path, Exited))
    ∧ (∀ q path st, pid proc ≠ Some q → procs h !! q = Some (path, st) →
         procs h1 !! q = Some (path, st)
         ∨ (st = Running ∧ procs h1 !! q = Some (path, Exited)
            ∧ Exit q ∈ while_waiting env))
    ∧ (∀ q, procs h1 !! q = None ↔ procs h !! q = None)
    ∧ (∀ path e, files h !! path = Some e → files h1 !! path = Some e)
    ∧ created_or_old h h1
    ∧ debug h1 = debug h).
  { simpl. split_and!; try done; [by intros ???????; subst|eauto|].
    apply created_or_old_refl. }
  destruct (pid proc) as [p|] eqn:Hpid.
  2:{ destruct Hsame as (_ & H2 & H3 & H4 & H5 & H6). by split_and!. }
  destruct (killed proc) eqn:Hkilled; simpl.
  { destruct Hsame as (_ & H2 & H3 & H4 & H5 & H6). by split_and!. }
  fold h. destruct (process_kill p h) as [hk|] eqn:Hk.
  2:{ destruct Hsame as (H1 & H2 & H3 & H4 & H5 & H6). split_and!; try done.
      intros p' path st [= <-] _ Hp. apply (H1 p path st); try done.
      unfold process_kill in Hk. rewrite Hp in Hk. by destruct st. }
  clear Hsame.
  destruct (process_kill_Some _ _ _ Hk) as (Hfk & Hdk & path0 & st0 & Hp0 & Hst0 & Hpk).
  set (he := environment (while_waiting env) hk).
  assert (Hpe : procs he !! p = Some (path0, Terminated)).
  { unfold he.
    destruct (environment_exit (while_waiting env) hk p) as [->|(? & H & _)].
    - rewrite Hpk. apply lookup_insert_eq.
    - rewrite Hpk, lookup_insert_eq in H. done. }
  assert (Hqe : ∀ q path st, q ≠ p → procs h !! q = Some (path, st) →
            procs he !! q = Some (path, st)
            ∨ (st = Running ∧ procs he !! q = Some (path, Exited)
               ∧ Exit q ∈ while_waiting env)).
  { intros q path st Hq Hst.
    unfold he.
    destruct (environment_exit (while_waiting env) hk q) as [E|(path' & H1 & H2 & H3)].
    - left. rewrite E, Hpk. by rewrite lookup_insert_ne.
    - right. rewrite Hpk, lookup_insert_ne in H1 by done.
      rewrite Hst in H1. injection H1 as <- ->. done. }
  assert (Hde : ∀ q, procs he !! q = None ↔ procs h !! q = None).
  { intros q. unfold he. rewrite environment_dom, Hpk.
    destruct (decide (p = q)) as [->|Hne].
    - rewrite lookup_insert_eq, Hp0. done.
    - by rewrite lookup_insert_ne. }
  assert (Hfe : ∀ path e, files h !! path = Some e → files he !! path = Some e).
  { intros path e He. apply environment_keeps. by rewrite Hfk. }
  assert (Hce : created_or_old h he).
  { eapply created_or_old_trans; [by apply created_or_old_same|].
    apply created_or_old_environment. }
  assert (Hfinal : ∀ hf : Host,
            files hf = files he → debug hf = debug he →
            procs hf = <[p := (path0, Exited)]> (procs he) →
            (∀ p' path st, Some p = Some p' → false = false →
                procs h !! p' = Some (path, st) → procs hf !! p' = Some (path, Exited))
            ∧ (∀ q path st, Some p ≠ Some q → procs h !! q = Some (path, st) →
                 procs hf !! q = Some (path, st)
                 ∨ (st = Running ∧ procs hf !! q = Some (path, Exited)
                    ∧ Exit q ∈ while_waiting env))
            ∧ (∀ q, procs hf !! q = None ↔ procs h !! q = None)
            ∧ (∀ path e, files h !! path = Some e → files hf !! path = Some e)
            ∧ created_or_old h hf
            ∧ debug hf = debug h).
  { intros hf Hff Hdf Hpf. split_and!.
    - intros p' path st [= <-] _ Hp. rewrite Hp in Hp0. injection Hp0 as -> ->.
      rewrite Hpf. apply lookup_insert_eq.
    - intros q path st Hq Hst. assert (q ≠ p) as Hne by congruence.
      rewrite Hpf, lookup_insert_ne by done. by apply Hqe.
    - intros q. rewrite Hpf. destruct (decide (p = q)) as [->|Hne].
      + rewrite lookup_insert_eq, Hp0. done.
      + rewrite lookup_insert_ne by done. apply Hde.
    - intros path e He. rewrite Hff. by apply Hfe.
    - eapply created_or_old_trans; [exact Hce|by apply created_or_old_same].
    - rewrite Hdf. unfold he. by rewrite environment_debug. }
  destruct (exits_in_time env); simpl.
  - fold he. apply Hfinal.
    + unfold exit_on_SIGTERM. by rewrite Hpe.
    + unfold exit_on_SIGTERM. by rewrite Hpe.
    + unfold exit_on_SIGTERM. by rewrite Hpe.
  - unfold force_kill. rewrite Hkilled, Hpid. simpl. fold he.
    unfold process_kill_SIGKILL. rewrite Hpe.
    exact (Hfinal (set_procs (<[p := (path0, Exited)]> (procs he)) he)
             eq_refl eq_refl eq_refl).
Qed.

Lemma stop_process_scheduled (proc : ChildProcess) (env : StopEnv) (s : StopState) :
  stop_scheduled (stop_process proc env s)
  = stop_scheduled s ++
    match pid proc with
    | Some p =>
        if negb (killed proc) && bool_decide (is_Some (process_kill p (stop_host s)))
        then [if exits_in_time env then ForceKillTimer p else ExitListener]
        else []
    | None => []
    end.
Proof.
  unfold stop_process. destruct (pid proc) as [p|] eqn:Hpid; [|by rewrite app_nil_r].
  destruct (killed proc) eqn:Hk; simpl; [by rewrite app_nil_r|].
  destruct (process_kill p (stop_host s)) as [hk|]; simpl; [|by rewrite app_nil_r].
  destruct (exits_in_time env); simpl; [done|].
  unfold force_kill. rewrite Hk, Hpid. simpl.
  by destruct (process_kill_SIGKILL p _).
Qed.

(** X4.  [stopUnixSocketSupervisor] on a context with a process handle
    does not throw.  It signals the process of [supervisorProcess], the
    forwarder of the first mapping: when the handle has a pid and is not
    marked killed, that process is gone when the promise resolves.  No
    other process is signalled, the forwarders of the other mappings
    among them: each is in the state it was in, unless it was running and
    has exited on its own during the wait.  No process appears or
    disappears.  What is left at a host path of the mappings or at the
    control socket path was there before and cannot be unlinked; the
    other files stay, and no file appears.  When the process was running
    and exits within the 5000 ms, the timer of the force kill is left
    armed. *)
Theorem stop_signals_first_forwarder_only (ctx : UnixSocketSupervisorContext)
    (runId : string) (env : StopEnv) (h : Host) (proc : ChildProcess) :
  supervisorProcess ctx = Some proc →
  let r := stopUnixSocketSupervisor ctx runId env h in
  let h' := stop_host r.2 in
  r.1 = None
  ∧ (∀ p path st, pid proc = Some p → killed proc = false →
                  procs h !! p = Some (path, st) → procs h' !! p = Some (path, Exited))
  ∧ (∀ q path st, pid proc ≠ Some q → procs h !! q = Some (path, st) →
       procs h' !! q = Some (path, st)
       ∨ (st = Running ∧ procs h' !! q = Some (path, Exited)
          ∧ Exit q ∈ while_waiting env))
  ∧ (∀ q, procs h' !! q = None ↔ procs h !! q = None)
  ∧ (∀ path e, path ∈ hostPath <$> mappings ctx ∨ path = controlSocketPath ctx →
               files h' !! path = Some e →
               can_unlink e = false ∧ files h !! path = Some e)
  ∧ (∀ path e, path ∉ hostPath <$> mappings ctx → path ≠ controlSocketPath ctx →
               files h !! path = Some e → files h' !! path = Some e)
  ∧ created_or_old h h'
  ∧ (∀ p, pid proc = Some p → killed proc = false → is_running h p →
          exits_in_time env = true → stop_scheduled r.2 = [ForceKillTimer p]).
Proof.
  intros Hproc r h'. unfold h', r, stopUnixSocketSupervisor. rewrite Hproc. simpl.
  set (s0 := {| stop_host := h; stop_log := [LogStopping]; stop_scheduled := [] |}).
  destruct (stop_process_spec proc env s0) as (H1 & H2 & H3 & H4 & H5 & H6).
  set (s1 := stop_process proc env s0) in *. simpl in H1, H2, H3, H4, H5, H6.
  destruct (stop_unlink_control_host (controlSocketPath ctx)
              (stop_unlink_sockets (mappings ctx) s1)) as [-> Hsch2].
  destruct (stop_unlink_sockets_host (mappings ctx) s1) as [E Hsch1]. rewrite E.
  set (h2 := unlink_sockets (mappings ctx) (stop_host s1)).
  set (cm := mkMapping (controlSocketPath ctx) EmptyString).
  destruct (unlink_sockets_spec (mappings ctx) (stop_host s1)) as (Hp2 & _ & Hf2 & Hc2).
  destruct (unlink_sockets_spec [cm] h2) as (Hp3 & _ & Hf3 & Hc3).
  fold h2 in Hp2, Hf2, Hc2.
  assert (Hold : ∀ path e, files (stop_host s1) !! path = Some e →
                           can_unlink e = false → files h !! path = Some e).
  { intros path e He Hc. destruct (H5 path e He) as [->|?]; done. }
  split_and!.
  - done.
  - intros p path st Hp Hk Hst. rewrite Hp3, Hp2. by eapply H1.
  - intros q path st Hq Hst. rewrite Hp3, Hp2. by apply H2.
  - intros q. rewrite Hp3, Hp2. apply H3.
  - intros path e Hin He.
    assert (can_unlink e = false) as Hc.
    { destruct Hin as [Hin| ->].
      - apply list_elem_of_fmap in Hin as (m & -> & Hm).
        apply (Hc2 m e Hm). by apply Hf3.
      - apply (Hc3 cm e); [by left|done]. }
    split; [done|]. apply Hold; [|done]. by apply Hf2, Hf3.
  - intros path e Hn1 Hn2 He.
    rewrite (unlink_sockets_frame [cm] h2 path).
    + unfold h2. rewrite unlink_sockets_frame by done. by apply H4.
    + simpl. by intros ->%list_elem_of_singleton.
  - intros path e He. apply H5. by apply Hf2, Hf3.
  - intros p Hp Hk (path & Hrun) Hexit.
    rewrite Hsch2, Hsch1. unfold s1. rewrite stop_process_scheduled.
    rewrite Hp, Hk. simpl. unfold process_kill. rewrite Hrun. simpl.
    by rewrite Hexit.
Qed.

(** *** Starting and stopping on concrete hosts *)
Lemma start_signals_no_foreign_process_witness :
  let r := startUnixSocketSupervisor posix_join "/tmp" (Some example_mappings) "run"
             (λ _, env_slow) (λ _, [Exit 7%positive]) busy_host in
  ∃ st', procs r.2 !! 7%positive = Some ("/tmp/other.sock", st')
         ∧ (st' = Running ∨ (Running = Running ∧ st' = Exited)).
Proof.
  intros r.
  assert (H : startUnixSocketSupervisor posix_join "/tmp" (Some example_mappings) "run"
                (λ _, env_slow) (λ _, [Exit 7%positive]) busy_host = (r.1, r.2))
    by (vm_compute; reflexivity).
  assert (Hp : procs busy_host !! 7%positive = Some ("/tmp/other.sock", Running))
    by (vm_compute; reflexivity).
  exact (start_signals_no_foreign_process posix_join "/tmp" (Some example_mappings)
           "run" (λ _, env_slow) (λ _, [Exit 7%positive]) busy_host r.1 r.2 H
           7%positive "/tmp/other.sock" Running Hp).
Defined.

Lemma start_success_contract_witness :
  let r := startUnixSocketSupervisor posix_join "/tmp" (Some example_mappings) "run"
             (λ _, env_prompt) (λ _, []) example_host in
  ∃ n, (n < 3)%nat ∧ last (debug r.2) = Some (LogStarted n).
Proof.
  intros r.
  assert (H : startUnixSocketSupervisor posix_join "/tmp" (Some example_mappings) "run"
                (λ _, env_prompt) (λ _, []) example_host = (inr started_context, r.2))
    by (vm_compute; reflexivity).
  exact (proj1 (proj2 (proj2 (proj2
           (start_success_contract posix_join "/tmp" (Some example_mappings) "run"
              (λ _, env_prompt) (λ _, []) example_host started_context r.2 H))))).
Defined.


Lemma retry_policy_witness :
  let r := startUnixSocketSupervisor posix_join "/tmp" (Some example_mappings) "run"
             (λ _, env_slow) (λ _, []) example_host in
  ∃ errors : list string,
    failures r.2
    = failures example_host
      ++ imap (λ n e, (n, e, if (n =? 2)%nat then Err else Warn)) errors.
Proof.
  intros r.
  assert (Hne : example_mappings ≠ []) by discriminate.
  assert (H : startUnixSocketSupervisor posix_join "/tmp" (Some example_mappings) "run"
                (λ _, env_slow) (λ _, []) example_host = (r.1, r.2))
    by (vm_compute; reflexivity).
  destruct (retry_policy posix_join "/tmp" example_mappings "run"
              (λ _, env_slow) (λ _, []) example_host r.1 r.2 Hne H)
    as (errors & H1 & _).
  by exists errors.
Defined.

Lemma stop_signals_first_forwarder_only_witness :
  let r := stopUnixSocketSupervisor started_context "run" stop_prompt started_host in
  r.1 = None.
Proof.
  intros r.
  assert (H : supervisorProcess started_context = Some (child_of 1%positive))
    by (vm_compute; reflexivity).
  exact (proj1 (stop_signals_first_forwarder_only started_context "run" stop_prompt
                  started_host (child_of 1%positive) H)).
Defined.
(** After a start with two mappings and a stop, the forwarder of the
    second mapping still runs, its socket file is gone, and the timer of
    the force kill is still armed. *)
Example start_then_stop :
  let r := startUnixSocketSupervisor posix_join "/tmp" (Some example_mappings) "run"
             (λ _, env_prompt) (λ _, []) example_host in
  let s := stopUnixSocketSupervisor started_context "run" stop_prompt r.2 in
  r.1 = inr started_context
  ∧ s.1 = None
  ∧ map_to_list (files (stop_host s.2)) = [("/tmp", mkFile Directory false)]
  ∧ map_to_list (procs (stop_host s.2))
    = [(2%positive, ("/tmp/b.sock", Running)); (1%positive, ("/tmp/a.sock", Exited))]
  ∧ stop_log s.2 = [LogStopping; LogSentSIGTERM; LogSupervisorExited;
                    LogCleanedUp "/tmp/a.sock"; LogCleanedUp "/tmp/b.sock"]
  ∧ stop_scheduled s.2 = [ForceKillTimer 1%positive].
Proof. vm_compute. by split_and!. Qed.

(** A forwarder that ignores SIGTERM is killed when the 5000 ms are over;
    a context without a process makes the stop throw before it removes
    anything. *)
Example stop_force_kill :
  let s := stopUnixSocketSupervisor started_context "run"
             {| exits_in_time := false; while_waiting := [Exit 2%positive] |}
             started_host in
  map_to_list (procs (stop_host s.2))
  = [(2%positive, ("/tmp/b.sock", Exited)); (1%positive, ("/tmp/a.sock", Exited))]
  ∧ stop_log s.2 = [LogStopping; LogSentSIGTERM; LogForceKilling;
                    LogCleanedUp "/tmp/a.sock"; LogCleanedUp "/tmp/b.sock"]
  ∧ stop_scheduled s.2 = [ExitListener]
  ∧ (stopUnixSocketSupervisor
       {| controlSocketPath := "/tmp/c.sock"; supervisorProcess := None;
          mappings := example_mappings |} "run" stop_prompt started_host).1
    = Some "Cannot read properties of undefined (reading 'pid')".
Proof. vm_compute. by split_and!. Qed.

End SupervisorLaws.
